(** * RayLibOdeVehicle: the frame loop of [src/main.c]

    A shallow embedding of the parts of [main.c] that decide the behaviour
    of the simulation loop: the near-phase collision callback, the
    fixed-step physics driver, the flip-recovery counter, the accel and
    steer smoothing, and the per-frame debris pass.

    Numbers.  The C program computes in [float] (with [double] constants).
    Here a [float] is an exact rational ([Q]): the order of the operations,
    the constants and every comparison are the program's, rounding is not
    modelled.  Where a property depends on the rounding, the statements are
    modelled a second time with each operation rounded to binary32
    ([Binary], [Controls32]).  The roll angle, which needs [atan2f], is
    stated over the real numbers.  An [int] counter is a [Z].

    The first part holds the model, the later parts the properties. *)

From Stdlib Require Import Reals ZArith QArith Qabs Qround List Bool Lia Lqa.
From Stdlib Require Import SpecFloat.
Import ListNotations.

Local Open Scope Q_scope.

(** * Part I: the model *)

(** ** Comparisons of the program on rationals *)

(** [a < b] of the C program as a boolean. *)
Definition Qltb (a b : Q) : bool :=
  if Qlt_le_dec a b then true else false.

(** ** The near-phase collision callback (main.c, lines 73-117) *)

Module Collision.

(** [#define MAX_CONTACTS 8] *)
Definition MAX_CONTACTS : nat := 8.

(** The joint types of ODE ([ode/common.h]). *)
Inductive dJointType : Type :=
| dJointTypeNone | dJointTypeBall | dJointTypeHinge | dJointTypeSlider
| dJointTypeContact | dJointTypeUniversal | dJointTypeHinge2
| dJointTypeFixed | dJointTypeNull | dJointTypeAMotor | dJointTypeLMotor
| dJointTypePlane2D | dJointTypePR | dJointTypePU | dJointTypePiston
| dJointTypeDBall | dJointTypeDHinge | dJointTypeTransmission.

Definition dJointType_eqb (a b : dJointType) : bool :=
  match a, b with
  | dJointTypeNone, dJointTypeNone | dJointTypeBall, dJointTypeBall
  | dJointTypeHinge, dJointTypeHinge | dJointTypeSlider, dJointTypeSlider
  | dJointTypeContact, dJointTypeContact
  | dJointTypeUniversal, dJointTypeUniversal
  | dJointTypeHinge2, dJointTypeHinge2 | dJointTypeFixed, dJointTypeFixed
  | dJointTypeNull, dJointTypeNull | dJointTypeAMotor, dJointTypeAMotor
  | dJointTypeLMotor, dJointTypeLMotor | dJointTypePlane2D, dJointTypePlane2D
  | dJointTypePR, dJointTypePR | dJointTypePU, dJointTypePU
  | dJointTypePiston, dJointTypePiston | dJointTypeDBall, dJointTypeDBall
  | dJointTypeDHinge, dJointTypeDHinge
  | dJointTypeTransmission, dJointTypeTransmission => true
  | _, _ => false
  end.

(** The contact mode flags of ODE ([ode/contact.h]). *)
Definition dContactBounce : Z := 0x004.
Definition dContactSoftERP : Z := 0x008.
Definition dContactSoftCFM : Z := 0x010.
Definition dContactSlip1 : Z := 0x100.
Definition dContactSlip2 : Z := 0x200.
Definition dContactApprox1 : Z := 0x7000.

(** The fields of [dSurfaceParameters] that the callback writes. *)
Record dSurfaceParameters : Type := mkSurface {
  mode : Z;
  mu : Q;
  slip1 : Q;
  slip2 : Q;
  soft_erp : Q;
  soft_cfm : Q;
  bounce : Q;
  bounce_vel : Q
}.

(** The body of the first loop: what every [contact[i].surface] is set to. *)
Definition surfaceParams : dSurfaceParameters :=
  mkSurface
    (Z.lor dContactSlip1
       (Z.lor dContactSlip2
          (Z.lor dContactSoftERP (Z.lor dContactSoftCFM dContactApprox1))))
    1000 (1 # 10000) (1 # 1000) (5 # 100) (3 # 10000) (1 # 10) (1 # 10).

(** A body handle; [None] is the null body of a static geometry. *)
Definition dBodyID : Type := option nat.

(** A joint of the world: its type and the two bodies it is attached to. *)
Record Joint : Type := mkJoint {
  jtype : dJointType;
  jbody1 : dBodyID;
  jbody2 : dBodyID
}.

Section Callback.

(** The geometries, and what ODE and raylibODE.c answer about them.
    [checkColliding] is the collidability predicate of raylibODE.c, whose
    source is not part of [main.c]; [contactPoints o1 o2] is the list of
    contact points the narrow phase of ODE computes for the pair, in the
    order it computes them. *)
Variable dGeomID : Type.
Variable dContactGeom : Type.
Variable dGeomGetBody : dGeomID -> dBodyID.
Variable checkColliding : dGeomID -> bool.
Variable contactPoints : dGeomID -> dGeomID -> list dContactGeom.

(** A [dContact]: the surface parameters and the contact geometry
    ([None] while [dCollide] has not written it). *)
Record dContact : Type := mkContact {
  surface : dSurfaceParameters;
  geom : option dContactGeom
}.

(** A contact joint of the group: the contact it was created from and the
    bodies [dJointAttach] attached it to. *)
Record ContactJoint : Type := mkContactJoint {
  cjContact : dContact;
  cjBody1 : dBodyID;
  cjBody2 : dBodyID
}.

(** The globals [world] and [contactgroup]: the joints of the vehicle and
    the scratch group of contact joints. *)
Record World : Type := mkWorld {
  joints : list Joint;
  contactgroup : list ContactJoint
}.

(** Every joint attached to some body: the contact joints are joints of
    type [dJointTypeContact]. *)
Definition allJoints (w : World) : list Joint :=
  joints w ++
  map (fun c => mkJoint dJointTypeContact (cjBody1 c) (cjBody2 c))
      (contactgroup w).

Definition body_eqb (a : dBodyID) (b : nat) : bool :=
  match a with
  | Some x => Nat.eqb x b
  | None => false
  end.

(** ODE's [dAreConnectedExcluding (b1, b2, joint_type)]: some joint whose
    type is not [joint_type] is attached to both bodies. *)
Definition dAreConnectedExcluding
  (w : World) (b1 b2 : nat) (joint_type : dJointType) : bool :=
  existsb
    (fun j =>
       negb (dJointType_eqb (jtype j) joint_type) &&
       ((body_eqb (jbody1 j) b1 && body_eqb (jbody2 j) b2) ||
        (body_eqb (jbody1 j) b2 && body_eqb (jbody2 j) b1)))
    (allJoints w).

(** The first loop: [contact[i].surface] for [i < MAX_CONTACTS]. *)
Definition initContacts : list dContact :=
  repeat (mkContact surfaceParams None) MAX_CONTACTS.

(** Writes the contact geometries into the first entries of the array. *)
Fixpoint fillGeoms (pts : list dContactGeom) (contact : list dContact)
  : list dContact :=
  match pts, contact with
  | p :: pts', c :: contact' =>
      mkContact (surface c) (Some p) :: fillGeoms pts' contact'
  | _, _ => contact
  end.

(** ODE's [dCollide (o1, o2, flags, &contact[0].geom, sizeof(dContact))]:
    at most [flags] contact points are written, the first ones computed;
    the result is their number and the array. *)
Definition dCollide (o1 o2 : dGeomID) (flags : nat) (contact : list dContact)
  : nat * list dContact :=
  let pts := firstn flags (contactPoints o1 o2) in
  (length pts, fillGeoms pts contact).

(** [dJointCreateContact (world, contactgroup, contact + i)] followed by
    [dJointAttach (c, b1, b2)].  ODE requires of [dJointAttach] that the two
    bodies are not one same body, and [dSpaceCollide] does not call the
    callback for two geometries of one body: a pair that reaches the
    callback satisfies [separateBodies] below. *)
Definition createContact (c : dContact) (b1 b2 : dBodyID) (w : World)
  : World :=
  mkWorld (joints w) (contactgroup w ++ [mkContactJoint c b1 b2]).

(** [for (i = 0; i < numc; i++) { create and attach contact + i }] *)
Definition attachLoop
  (numc : nat) (contact : list dContact) (b1 b2 : dBodyID) (w : World)
  : World :=
  fold_left
    (fun w i =>
       match nth_error contact i with
       | Some c => createContact c b1 b2 w
       | None => w
       end)
    (seq 0 numc) w.

(** [b1 && b2 && dAreConnectedExcluding (b1, b2, dJointTypeContact)] *)
Definition connectedByJoint (w : World) (b1 b2 : dBodyID) : bool :=
  match b1, b2 with
  | Some x, Some y => dAreConnectedExcluding w x y dJointTypeContact
  | _, _ => false
  end.

(** [static void nearCallback (void *data, dGeomID o1, dGeomID o2)] *)
Definition nearCallback (o1 o2 : dGeomID) (w : World) : World :=
  let b1 := dGeomGetBody o1 in
  let b2 := dGeomGetBody o2 in
  if connectedByJoint w b1 b2 then w
  else if negb (checkColliding o1) then w
  else if negb (checkColliding o2) then w
  else
    let '(numc, contact) := dCollide o1 o2 MAX_CONTACTS initContacts in
    if Nat.eqb numc 0 then w
    else attachLoop numc contact b1 b2 w.

(** The contact joints the callback added to the group. *)
Definition created (w w' : World) : list ContactJoint :=
  skipn (length (contactgroup w)) (contactgroup w').

End Callback.

Arguments mkContact {dContactGeom}.
Arguments surface {dContactGeom}.
Arguments geom {dContactGeom}.
Arguments mkContactJoint {dContactGeom}.
Arguments cjContact {dContactGeom}.
Arguments cjBody1 {dContactGeom}.
Arguments cjBody2 {dContactGeom}.
Arguments mkWorld {dContactGeom}.
Arguments joints {dContactGeom}.
Arguments contactgroup {dContactGeom}.
Arguments allJoints {dContactGeom}.
Arguments dAreConnectedExcluding {dContactGeom}.
Arguments initContacts {dContactGeom}.
Arguments fillGeoms {dContactGeom}.
Arguments dCollide {dGeomID dContactGeom}.
Arguments createContact {dContactGeom}.
Arguments attachLoop {dContactGeom}.
Arguments connectedByJoint {dContactGeom}.
Arguments nearCallback {dGeomID dContactGeom}.
Arguments created {dContactGeom}.

(** The contact joint made from one contact point [p] of a pair. *)
Definition contactOf {dContactGeom : Type} (b1 b2 : dBodyID) (p : dContactGeom)
  : ContactJoint dContactGeom :=
  mkContactJoint (mkContact surfaceParams (Some p)) b1 b2.

(** The bodies of a pair that [dSpaceCollide] hands to the callback: one of
    them is the null body, or they are two bodies. *)
Definition separateBodies (b1 b2 : dBodyID) : Prop :=
  b1 = None \/ b2 = None \/ b1 <> b2.

(** A joint of the vehicle links the bodies [x] and [y]: it is not a
    contact joint and it is attached to both, in either order. *)
Definition linksBodies (j : Joint) (x y : nat) : Prop :=
  jtype j <> dJointTypeContact /\
  ((jbody1 j = Some x /\ jbody2 j = Some y) \/
   (jbody1 j = Some y /\ jbody2 j = Some x)).

(** A contact joint that a collision pass may create: it carries the
    surface parameters of the callback, and no joint of the vehicle links
    its two bodies. *)
Definition allowed {dContactGeom : Type}
  (js : list Joint) (cj : ContactJoint dContactGeom) : Prop :=
  surface (cjContact cj) = surfaceParams /\
  ~ (exists (j : Joint) (x y : nat),
        cjBody1 cj = Some x /\ cjBody2 cj = Some y /\
        In j js /\ linksBodies j x y).

End Collision.

(** ** The fixed-step driver (main.c, lines 395-415) *)

Module Driver.

(** [const float physSlice = 1.0 / 240.0;]  The constant of the program is
    the [float] nearest to 1/240, which is [8947849 / 2^31]; the model
    computes with 1/240 itself. *)
Definition physSlice : Q := 1 # 240.

(** [const int maxPsteps = 6;] *)
Definition maxPsteps : Z := 6.

Section Loop.

(** The physics world and one tick of it: [dSpaceCollide], then
    [dWorldQuickStep (world, physSlice)], then [dJointGroupEmpty]. *)
Variable World : Type.
Variable tick : World -> World.

Record LoopState : Type := mkLoop {
  frameTime : Q;
  pSteps : Z;
  world : World
}.

(** [while (frameTime > physSlice) { tick; frameTime -= physSlice;
    pSteps++; if (pSteps > maxPsteps) { frameTime = 0; break; } }].
    [fuel] bounds the number of iterations; [None] is "out of fuel". *)
Fixpoint stepLoop (fuel : nat) (s : LoopState) : option LoopState :=
  if Qltb physSlice (frameTime s) then
    match fuel with
    | O => None
    | S fuel' =>
        let w := tick (world s) in
        let ft := frameTime s - physSlice in
        let ps := (pSteps s + 1)%Z in
        if (ps >? maxPsteps)%Z
        then Some (mkLoop 0 ps w)
        else stepLoop fuel' (mkLoop ft ps w)
    end
  else Some s.

(** The iterations one frame can need: the cap and the one that trips it. *)
Definition loopFuel : nat := Z.to_nat (maxPsteps + 1).

(** One frame of the driver: [frameTime += GetFrameTime(); int pSteps = 0;]
    and the loop.  [acc] is the accumulator left by the previous frame,
    [dt] is what [GetFrameTime] returns. *)
Definition driverFrame (dt : Q) (acc : Q) (w : World) : option LoopState :=
  stepLoop loopFuel (mkLoop (acc + dt) 0 w).

(** A run of frames: the accumulator and the world are carried from one
    frame to the next, [pSteps] starts from 0 in each.  The result is the
    state at the end of the last frame's loop. *)
Fixpoint runFrames (dts : list Q) (s : LoopState) : option LoopState :=
  match dts with
  | [] => Some s
  | dt :: rest =>
      match driverFrame dt (frameTime s) (world s) with
      | Some s' => runFrames rest s'
      | None => None
      end
  end.

(** [float frameTime = 0;] before the main loop. *)
Definition initial (w : World) : LoopState := mkLoop 0 0 w.

(** [if (pSteps > maxPsteps) DrawText ("WARNING CPU overloaded ...")] *)
Definition capHit (s : LoopState) : bool := (pSteps s >? maxPsteps)%Z.

(** [w'] is [w] after [n] ticks. *)
Definition ticked (n : Z) (w w' : World) : Prop :=
  w' = Nat.iter (Z.to_nat n) tick w.

End Loop.

Arguments mkLoop {World}.
Arguments frameTime {World}.
Arguments pSteps {World}.
Arguments world {World}.
Arguments capHit {World}.
Arguments initial {World}.

End Driver.

(** ** The flip-recovery counter (main.c, lines 312-327) *)

Module FlipRecovery.

(** [# define M_PI_2 1.57079632679489661923] of math.h. *)
Definition M_PI_2 : Q := 157079632679489661923 # 100000000000000000000.

(** The wrap-around of a 32-bit [int]. *)
Definition int_wrap (z : Z) : Z :=
  ((z + 2 ^ 31) mod 2 ^ 32 - 2 ^ 31)%Z.

(** [fabs(roll) > (M_PI_2-0.001)] *)
Definition overLimit (roll : Q) : bool :=
  Qltb (M_PI_2 - (1 # 1000)) (Qabs roll).

(** The counter update:
    [if (fabs(roll) > (M_PI_2-0.001)) carFlipped++; else carFlipped=0;] *)
Definition countFlipped (roll : Q) (carFlipped : Z) : Z :=
  if overLimit roll then int_wrap (carFlipped + 1) else 0%Z.

(** [if (carFlipped > 100) unflipVehicle(car);]: whether the recovery
    operation is called. *)
Definition wantsUnflip (carFlipped : Z) : bool := (carFlipped >? 100)%Z.

(** One frame of the monitor: the new counter, and whether
    [unflipVehicle] was called in this frame. *)
Definition flipFrame (roll : Q) (carFlipped : Z) : Z * bool :=
  let c := countFlipped roll carFlipped in
  (c, wantsUnflip c).

(** A run of frames fed with the given rolls: the final counter and, frame
    by frame, whether [unflipVehicle] was called. *)
Fixpoint flipRun (rolls : list Q) (carFlipped : Z) : Z * list bool :=
  match rolls with
  | [] => (carFlipped, [])
  | roll :: rest =>
      let '(c, u) := flipFrame roll carFlipped in
      let '(c', us) := flipRun rest c in
      (c', u :: us)
  end.

(** The number of calls of [unflipVehicle] in a trace. *)
Definition recoveries (trace : list bool) : nat :=
  length (filter (fun u => u) trace).

(** The trace of [n] consecutive frames over the limit, from counter [c]:
    frame [k] calls [unflipVehicle] when [c + k > 100]. *)
Definition overTrace (c : Z) (n : nat) : list bool :=
  map (fun k => wantsUnflip (c + Z.of_nat k)) (seq 1 n).

End FlipRecovery.

(** ** Accel and steer smoothing (main.c, lines 331-342) *)

Module Controls.

(** The bounds of the accel clamp. *)
Definition maxAccel : Q := 75.
Definition minAccel : Q := -25.

(** [accel *= .99; if (IsKeyDown(KEY_UP)) accel +=2.5;
    if (IsKeyDown(KEY_DOWN)) accel -=2.5;
    if (accel > 75) accel = 75; if (accel < -25) accel = -25;] *)
Definition accelFrame (keyUp keyDown : bool) (accel : Q) : Q :=
  let accel := accel * (99 # 100) in
  let accel := if keyUp then accel + (25 # 10) else accel in
  let accel := if keyDown then accel - (25 # 10) else accel in
  let accel := if Qltb 75 accel then 75 else accel in
  if Qltb accel (-25) then -25 else accel.

(** [if (IsKeyDown(KEY_RIGHT)) steer -=.1; if (IsKeyDown(KEY_LEFT)) steer +=.1;
    if (!IsKeyDown(KEY_RIGHT) && !IsKeyDown(KEY_LEFT)) steer *= .5;
    if (steer > .5) steer = .5; if (steer < -.5) steer = -.5;] *)
Definition steerFrame (keyRight keyLeft : bool) (steer : Q) : Q :=
  let steer := if keyRight then steer - (1 # 10) else steer in
  let steer := if keyLeft then steer + (1 # 10) else steer in
  let steer := if negb keyRight && negb keyLeft then steer * (5 # 10)
               else steer in
  let steer := if Qltb (5 # 10) steer then 5 # 10 else steer in
  if Qltb steer (- (5 # 10)) then - (5 # 10) else steer.

(** The two clamps on their own. *)
Definition clampAccel (accel : Q) : Q :=
  let accel := if Qltb 75 accel then 75 else accel in
  if Qltb accel (-25) then -25 else accel.

Definition clampSteer (steer : Q) : Q :=
  let steer := if Qltb (5 # 10) steer then 5 # 10 else steer in
  if Qltb steer (- (5 # 10)) then - (5 # 10) else steer.

(** [n] frames with the same keys held. *)
Definition accelRun (keyUp keyDown : bool) (n : nat) (accel : Q) : Q :=
  Nat.iter n (accelFrame keyUp keyDown) accel.

Definition steerRun (keyRight keyLeft : bool) (n : nat) (steer : Q) : Q :=
  Nat.iter n (steerFrame keyRight keyLeft) steer.

End Controls.

(** ** The per-frame debris pass (main.c, lines 361-386) *)

Module Debris.

(** A [dVector3]; the C code reads [pos[1]] and [v[1]], the height and
    the vertical velocity. *)
Record Vec3 : Type := mkVec3 { c0 : Q; c1 : Q; c2 : Q }.

(** What the pass reads and writes of an ODE body. *)
Record Body : Type := mkBody {
  position : Vec3;
  linearVel : Vec3;
  angularVel : Vec3;
  mass : Q;
  force : Vec3;
  enabled : bool
}.

(** How many values each of the two generators has handed out. *)
Record Rng : Type := mkRng { randCalls : nat; dRandCalls : nat }.

(** The bodies [obj[0 .. numObj-1]] and the generators. *)
Record Pass : Type := mkPass { obj : list Body; rng : Rng }.

(** [obj[i] = b] *)
Fixpoint setNth (i : nat) (b : Body) (l : list Body) : list Body :=
  match l, i with
  | [], _ => []
  | _ :: l', O => b :: l'
  | x :: l', S i' => x :: setNth i' b l'
  end.

(** The setters of ODE used by the pass. *)
Definition dBodyEnable (b : Body) : Body :=
  mkBody (position b) (linearVel b) (angularVel b) (mass b) (force b) true.

Definition dBodyAddForce (b : Body) (fx fy fz : Q) : Body :=
  mkBody (position b) (linearVel b) (angularVel b) (mass b)
         (mkVec3 (c0 (force b) + fx) (c1 (force b) + fy) (c2 (force b) + fz))
         (enabled b).

Definition dBodySetPosition (b : Body) (x y z : Q) : Body :=
  mkBody (mkVec3 x y z) (linearVel b) (angularVel b) (mass b) (force b)
         (enabled b).

Definition dBodySetLinearVel (b : Body) (x y z : Q) : Body :=
  mkBody (position b) (mkVec3 x y z) (angularVel b) (mass b) (force b)
         (enabled b).

Definition dBodySetAngularVel (b : Body) (x y z : Q) : Body :=
  mkBody (position b) (linearVel b) (mkVec3 x y z) (mass b) (force b)
         (enabled b).

Section Frame.

(** The two random generators: the [k]-th value of
    [(float)rand() / (float)(RAND_MAX)] and of ODE's [dRandReal ()].
    Arguments of a call are evaluated from left to right. *)
Variable randUnit : nat -> Q.
Variable dRandUnit : nat -> Q.

(** [float rndf(float min, float max)] *)
Definition rndf (min max : Q) (g : Rng) : Q * Rng :=
  (randUnit (randCalls g) * (max - min) + min,
   mkRng (S (randCalls g)) (dRandCalls g)).

Definition dRandReal (g : Rng) : Q * Rng :=
  (dRandUnit (dRandCalls g), mkRng (randCalls g) (S (dRandCalls g))).

(** [float f = (6+(((float)i/numObj)*4)) * mass.mass;] *)
Definition forceScale (i numObj : nat) (m : Q) : Q :=
  (6 + (inject_Z (Z.of_nat i) / inject_Z (Z.of_nat numObj)) * 4) * m.

(** The guard of the impulse block for [obj[i]], as the code has it:
    [v] is the velocity of [obj[0]], [pos] the position of [obj[i]]. *)
Definition impulseGuard (i : nat) (s : Pass) : bool :=
  match nth_error (obj s) 0, nth_error (obj s) i with
  | Some b0, Some bi =>
      Qltb (c1 (linearVel b0)) 10 && Qltb (c1 (position bi)) 10
  | _, _ => false
  end.

(** The impulse block:
    [dBodyEnable; f = ...; dBodyAddForce(obj[i], rndf(-f,f), f*10, rndf(-f,f))] *)
Definition impulse (i : nat) (s : Pass) : Pass :=
  match nth_error (obj s) i with
  | Some bi =>
      let b := dBodyEnable bi in
      let f := forceScale i (length (obj s)) (mass b) in
      let '(fx, g1) := rndf (- f) f (rng s) in
      let '(fz, g2) := rndf (- f) f g1 in
      mkPass (setNth i (dBodyAddForce b fx (f * 10) fz) (obj s)) g2
  | None => s
  end.

(** The teleport block:
    [dBodySetPosition(obj[i], dRandReal() * 10 - 5, 12 + rndf(1,2),
    dRandReal() * 10 - 5); dBodySetLinearVel 0; dBodySetAngularVel 0] *)
Definition recycle (i : nat) (s : Pass) : Pass :=
  match nth_error (obj s) i with
  | Some bi =>
      let '(x, g1) := dRandReal (rng s) in
      let '(y, g2) := rndf 1 2 g1 in
      let '(z, g3) := dRandReal g2 in
      let b := dBodySetPosition bi (x * 10 - 5) (12 + y) (z * 10 - 5) in
      let b := dBodySetLinearVel b 0 0 0 in
      let b := dBodySetAngularVel b 0 0 0 in
      mkPass (setNth i b (obj s)) g3
  | None => s
  end.

(** The body of [for (int i = 0; i < numObj; i++)].  [pos] points into
    [obj[i]] and is read before that body's position is written. *)
Definition debrisBody (spcdn : bool) (s : Pass) (i : nat) : Pass :=
  match nth_error (obj s) i with
  | Some bi =>
      let pos := position bi in
      let s1 := if spcdn && impulseGuard i s then impulse i s else s in
      if Qltb (c1 pos) (-10) then recycle i s1 else s1
  | None => s
  end.

(** The whole loop; [spcdn] is [IsKeyDown(KEY_SPACE)]. *)
Definition debrisPass (spcdn : bool) (s : Pass) : Pass :=
  fold_left (debrisBody spcdn) (seq 0 (length (obj s))) s.

(** The loop stopped before index [k]: the iterations [0 .. k-1]. *)
Definition passUpTo (spcdn : bool) (k : nat) (s : Pass) : Pass :=
  fold_left (debrisBody spcdn) (seq 0 k) s.

(** A body is below the floor: [pos[1] < -10]. *)
Definition belowFloor (b : Body) : bool := Qltb (c1 (position b)) (-10).

(** The guard the description asks for: the body's own vertical velocity
    and own height are both below 10. *)
Definition ownGuard (b : Body) : bool :=
  Qltb (c1 (linearVel b)) 10 && Qltb (c1 (position b)) 10.

End Frame.

End Debris.

(** ** The roll of the chassis (main.c, lines 314-317) *)

Module Roll.

Local Open Scope R_scope.

(** The C library's [atan2 (y, x)] on real numbers: the angle of the point
    [(x, y)], in the interval from [-PI] (excluded) to [PI]. *)
Definition atan2 (y x : R) : R :=
  if Rlt_dec 0 x then atan (y / x)
  else if Rlt_dec x 0 then
    if Rle_dec 0 y then atan (y / x) + PI else atan (y / x) - PI
  else if Rlt_dec 0 y then PI / 2
  else if Rlt_dec y 0 then - (PI / 2)
  else 0.

(** The orientation [q[0 .. 3]] that [dBodyGetQuaternion] returns:
    [q[0]] is the scalar part, [q[1 .. 3]] the vector part. *)
Record Quaternion : Type := mkQuat { q0 : R; q1 : R; q2 : R; q3 : R }.

(** [float z0 = 2.0f*(q[0]*q[3] + q[1]*q[2]);] *)
Definition z0 (q : Quaternion) : R := 2 * (q0 q * q3 q + q1 q * q2 q).

(** [float z1 = 1.0f - 2.0f*(q[1]*q[1] + q[3]*q[3]);] *)
Definition z1 (q : Quaternion) : R :=
  1 - 2 * (q1 q * q1 q + q3 q * q3 q).

(** [float roll = atan2f(z0, z1);] *)
Definition roll (q : Quaternion) : R := atan2 (z0 q) (z1 q).

(** The identity orientation. *)
Definition identity : Quaternion := mkQuat 1 0 0 0.

(** The rotation of angle [theta] about the unit axis [(ax, ay, az)]. *)
Definition aboutAxis (ax ay az theta : R) : Quaternion :=
  mkQuat (cos (theta / 2)) (ax * sin (theta / 2)) (ay * sin (theta / 2))
         (az * sin (theta / 2)).

(** The rotation of angle [theta] about the body's x axis, the direction
    the car faces (the camera sits behind it, at the relative point
    [(-8, 3, 0)]; y is up). *)
Definition aboutForward (theta : R) : Quaternion := aboutAxis 1 0 0 theta.

End Roll.

(** ** One physics tick (main.c, lines 399-408) *)

Module Physics.

Import Collision.

Section Tick.

(** [Bodies] is the state of the bodies (poses and velocities), which ODE
    owns.  The broad phase of the hash space gives the candidate pairs of a
    state, the narrow phase the contact points of a pair in that state, and
    [dWorldQuickStep] the next state of the bodies under the joints and
    contacts of the world. *)
Variable dGeomID : Type.
Variable dContactGeom : Type.
Variable Bodies : Type.
Variable dGeomGetBody : dGeomID -> dBodyID.
Variable checkColliding : dGeomID -> bool.
Variable contactPoints : Bodies -> dGeomID -> dGeomID -> list dContactGeom.
Variable candidatePairs : Bodies -> list (dGeomID * dGeomID).
Variable dWorldQuickStep : Bodies -> World dContactGeom -> Bodies.

Record Sim : Type := mkSim {
  bodies : Bodies;
  ode : World dContactGeom
}.

(** The callback applied to a list of pairs, one after the other. *)
Definition collidePairs
  (b : Bodies) (pairs : list (dGeomID * dGeomID)) (w : World dContactGeom)
  : World dContactGeom :=
  fold_left
    (fun w p =>
       nearCallback dGeomGetBody checkColliding (contactPoints b)
                    (fst p) (snd p) w)
    pairs w.

(** [dSpaceCollide (space, 0, &nearCallback)] *)
Definition dSpaceCollide (b : Bodies) (w : World dContactGeom)
  : World dContactGeom :=
  collidePairs b (candidatePairs b) w.

(** [dJointGroupEmpty (contactgroup)] *)
Definition dJointGroupEmpty (w : World dContactGeom) : World dContactGeom :=
  mkWorld (joints w) [].

(** The body of the stepping loop that acts on the world:
    [dSpaceCollide; dWorldQuickStep (world, physSlice); dJointGroupEmpty]. *)
Definition physTick (s : Sim) : Sim :=
  let w := dSpaceCollide (bodies s) (ode s) in
  mkSim (dWorldQuickStep (bodies s) w) (dJointGroupEmpty w).

End Tick.

Arguments mkSim {dContactGeom Bodies}.
Arguments bodies {dContactGeom Bodies}.
Arguments ode {dContactGeom Bodies}.
Arguments collidePairs {dGeomID dContactGeom Bodies}.
Arguments dSpaceCollide {dGeomID dContactGeom Bodies}.
Arguments dJointGroupEmpty {dContactGeom}.
Arguments physTick {dGeomID dContactGeom Bodies}.

End Physics.

(** ** The chase camera (main.c, lines 348-358) *)

Module Camera.

(** raylib's [Vector3]. *)
Record Vector3 : Type := mkVector3 { x : Q; y : Q; z : Q }.



(** [camera.target = (Vector3){cp[0],cp[1]+1,cp[2]};] with [cp] the
    position of the chassis. *)
Definition target (cp : Vector3) : Vector3 :=
  mkVector3 (x cp) (y cp + 1) (z cp).



End Camera.

(** ** The creation of the debris bodies (main.c, lines 228-284) *)

Module Spawn.

Import Debris.

(** The four kinds of body with the dimensions drawn for them.  The
    composite is a cylinder of length [l] with a sphere of radius [l/2] at
    each end, at the offsets [l - 0.125] and [-l + 0.125] along z. *)
Inductive Shape : Type :=
| Box (sx sy sz : Q)
| Sphere (r : Q)
| Cylinder (r l : Q)
| Composite (l : Q).

(** [# define M_PI 3.14159265358979323846] of math.h. *)
Definition M_PI : Q := 314159265358979323846 # 100000000000000000000.

(** What the loop draws for one body. *)
Record Spawned : Type := mkSpawned {
  shape : Shape;
  place : Vec3;
  axis : Vec3;
  angle : Q
}.

Section Draw.

Variable randUnit : nat -> Q.
Variable dRandUnit : nat -> Q.

(** [float typ = rndf(0,1);] and the four branches on it. *)
Definition spawnShape (g : Rng) : Shape * Rng :=
  let '(typ, g) := rndf randUnit 0 1 g in
  if Qltb typ (25 # 100) then
    let '(sx, g) := rndf randUnit (25 # 100) (5 # 10) g in
    let '(sy, g) := rndf randUnit (25 # 100) (5 # 10) g in
    let '(sz, g) := rndf randUnit (25 # 100) (5 # 10) g in
    (Box sx sy sz, g)
  else if Qltb typ (5 # 10) then
    let '(r, g) := rndf randUnit (125 # 1000) (25 # 100) g in
    (Sphere r, g)
  else if Qltb typ (75 # 100) then
    let '(l, g) := rndf randUnit (125 # 1000) (5 # 10) g in
    let '(r, g) := rndf randUnit (125 # 1000) (5 # 10) g in
    (Cylinder r l, g)
  else
    let '(l, g) := rndf randUnit (25 # 100) (5 # 10) g in
    (Composite l, g).

(** [dBodySetPosition(obj[i], dRandReal() * 40 - 5, 4+(i/10),
    dRandReal() * 40 - 5);] where [i/10] is the division of [int]s. *)
Definition spawnPlace (i : nat) (g : Rng) : Vec3 * Rng :=
  let '(px, g) := dRandReal dRandUnit g in
  let '(pz, g) := dRandReal dRandUnit g in
  (mkVec3 (px * 40 - 5) (inject_Z (4 + Z.of_nat i / 10)) (pz * 40 - 5), g).

(** [dRFromAxisAndAngle(R, dRandReal() * 2.0 - 1.0, dRandReal() * 2.0 - 1.0,
    dRandReal() * 2.0 - 1.0, dRandReal() * M_PI*2 - M_PI);] *)
Definition spawnTurn (g : Rng) : Vec3 * Q * Rng :=
  let '(ax, g) := dRandReal dRandUnit g in
  let '(ay, g) := dRandReal dRandUnit g in
  let '(az, g) := dRandReal dRandUnit g in
  let '(an, g) := dRandReal dRandUnit g in
  (mkVec3 (ax * 2 - 1) (ay * 2 - 1) (az * 2 - 1), an * M_PI * 2 - M_PI, g).

(** The body of [for (int i = 0; i < numObj; i++)]. *)
Definition spawnBody (i : nat) (g : Rng) : Spawned * Rng :=
  let '(sh, g) := spawnShape g in
  let '(p, g) := spawnPlace i g in
  let '(ax, an, g) := spawnTurn g in
  (mkSpawned sh p ax an, g).

(** The whole loop: the bodies in the order of their index. *)
Fixpoint spawnFrom (i n : nat) (g : Rng) : list Spawned * Rng :=
  match n with
  | O => ([], g)
  | S n' =>
      let '(b, g) := spawnBody i g in
      let '(bs, g) := spawnFrom (S i) n' g in
      (b :: bs, g)
  end.

Definition spawnAll (numObj : nat) (g : Rng) : list Spawned * Rng :=
  spawnFrom 0 numObj g.

End Draw.

(** The dimensions of a shape are in the ranges of the four branches. *)
Definition inRanges (sh : Shape) : Prop :=
  match sh with
  | Box sx sy sz =>
      (1 # 4 <= sx <= 1 # 2) /\ (1 # 4 <= sy <= 1 # 2) /\
      (1 # 4 <= sz <= 1 # 2)
  | Sphere r => 1 # 8 <= r <= 1 # 4
  | Cylinder r l => (1 # 8 <= r <= 1 # 2) /\ (1 # 8 <= l <= 1 # 2)
  | Composite l => 1 # 4 <= l <= 1 # 2
  end.

(** The quarter of [0, 1] that selects each kind. *)
Definition inQuarter (typ : Q) (sh : Shape) : Prop :=
  match sh with
  | Box _ _ _ => typ < 1 # 4
  | Sphere _ => 1 # 4 <= typ < 1 # 2
  | Cylinder _ _ => 1 # 2 <= typ < 3 # 4
  | Composite _ => 3 # 4 <= typ
  end.

End Spawn.

(** ** Binary floating point: rounding to nearest, ties to even *)

Module Binary.

(** [2^e] *)
Definition pow2 (e : Z) : Q := 2 ^ e.

(** The binary exponent of a positive rational: the [e] with
    [2^e <= x < 2^(e+1)]. *)
Definition ilog2 (x : Q) : Z :=
  let c := (Z.log2 (Qnum x) - Z.log2 (Z.pos (Qden x)))%Z in
  if Qle_bool (pow2 c) x then c else (c - 1)%Z.

(** The integer nearest to [y], the even one of the two when [y] is half
    way between them. *)
Definition nearestEven (y : Q) : Z :=
  let f := Qfloor y in
  match Qcompare (y - inject_Z f) (1 # 2) with
  | Lt => f
  | Gt => (f + 1)%Z
  | Eq => if Z.even f then f else (f + 1)%Z
  end.

(** The value of [x] rounded to a binary format with [prec] bits of
    mantissa whose smallest unit in the last place is [2^emin] (the format's
    subnormal range).  Overflow is not modelled: the values of the program
    are far below the largest finite number. *)
Definition roundBinary (prec emin : Z) (x : Q) : Q :=
  if Qeq_bool x 0 then 0
  else
    let q := Z.max (ilog2 (Qabs x) - prec + 1) emin in
    inject_Z (nearestEven (x / pow2 q)) * pow2 q.

(** [float] (binary32) and [double] (binary64). *)
Definition round32 : Q -> Q := roundBinary 24 (-149).
Definition round64 : Q -> Q := roundBinary 53 (-1074).

(** The result of an operation on [double] operands that is stored in a
    [float]: [f = (float)(double result)]. *)
Definition viaDouble (x : Q) : Q := round32 (round64 x).

End Binary.

(** ** Accel and steer smoothing in binary32 (main.c, lines 331-342)

    The same statements as in [Controls], with the arithmetic of the C
    program: [accel] and [steer] are [float]s, the constants [.99], [2.5],
    [.1] and [.5] are [double]s, so each compound assignment computes in
    [double] and rounds the result to [float]. *)

Module Controls32.

Import Binary.

(** The [double] constants [.99] and [.1]. *)
Definition c99 : Q := round64 (99 # 100).
Definition c01 : Q := round64 (1 # 10).

(** [accel *= .99; if (IsKeyDown(KEY_UP)) accel +=2.5;
    if (IsKeyDown(KEY_DOWN)) accel -=2.5;
    if (accel > 75) accel = 75; if (accel < -25) accel = -25;] *)
Definition accelFrame (keyUp keyDown : bool) (accel : Q) : Q :=
  let accel := viaDouble (accel * c99) in
  let accel := if keyUp then viaDouble (accel + (25 # 10)) else accel in
  let accel := if keyDown then viaDouble (accel - (25 # 10)) else accel in
  let accel := if Qltb 75 accel then 75 else accel in
  if Qltb accel (-25) then -25 else accel.

(** [if (IsKeyDown(KEY_RIGHT)) steer -=.1; if (IsKeyDown(KEY_LEFT)) steer +=.1;
    if (!IsKeyDown(KEY_RIGHT) && !IsKeyDown(KEY_LEFT)) steer *= .5;
    if (steer > .5) steer = .5; if (steer < -.5) steer = -.5;] *)
Definition steerFrame (keyRight keyLeft : bool) (steer : Q) : Q :=
  let steer := if keyRight then viaDouble (steer - c01) else steer in
  let steer := if keyLeft then viaDouble (steer + c01) else steer in
  let steer := if negb keyRight && negb keyLeft
               then viaDouble (steer * (5 # 10)) else steer in
  let steer := if Qltb (5 # 10) steer then 5 # 10 else steer in
  if Qltb steer (- (5 # 10)) then - (5 # 10) else steer.

(** [n] frames with the same keys held. *)
Definition accelRun (keyUp keyDown : bool) (n : nat) (accel : Q) : Q :=
  Nat.iter n (accelFrame keyUp keyDown) accel.

Definition steerRun (keyRight keyLeft : bool) (n : nat) (steer : Q) : Q :=
  Nat.iter n (steerFrame keyRight keyLeft) steer.

End Controls32.

(** ** The both-keys steer frame with the Standard Library's IEEE 754
    operations, as a check of [Binary] *)

Module Ieee.

(** The rational value of a finite float. *)
Definition SF2Q (f : spec_float) : Q :=
  match f with
  | S754_finite s m e => inject_Z (cond_Zopp s (Z.pos m)) * Binary.pow2 e
  | _ => 0
  end.

(** The conversion of a [double] to [float]. *)
Definition toSingle (f : spec_float) : spec_float :=
  match f with
  | S754_finite s m e => binary_normalize 24 128 (cond_Zopp s (Z.pos m)) e s
  | _ => f
  end.

(** The [double] nearest to [n / d]. *)
Definition doubleOf (n d : positive) : spec_float :=
  SFdiv 53 1024 (S754_finite false n 0) (S754_finite false d 0).

(** [steer -=.1; steer +=.1;] on a [float]. *)
Definition steerBothKeys (steer : spec_float) : spec_float :=
  let steer := toSingle (SFsub 53 1024 steer (doubleOf 1 10)) in
  toSingle (SFadd 53 1024 steer (doubleOf 1 10)).

End Ieee.

(** ** A small scene used to exercise the model *)

Module Scene.

(** Geometry 0 is the ground trimesh, which has no body; geometry [g > 0]
    belongs to body [g]; geometry 9 is not collidable; every pair has ten
    contact points, numbered from 0. *)
Definition bodyOf (g : nat) : Collision.dBodyID :=
  if Nat.eqb g 0 then None else Some g.

Definition collidable (g : nat) : bool := negb (Nat.eqb g 9).

Definition points (o1 o2 : nat) : list nat := seq 0 10.

(** A world whose only joint is a hinge-2 between bodies 1 and 2. *)
Definition hinged : Collision.World nat :=
  Collision.mkWorld
    [Collision.mkJoint Collision.dJointTypeHinge2 (Some 1%nat) (Some 2%nat)]
    [].

(** Two debris bodies at rest height 0 with mass 1: [rising] moves up at
    20, [resting] does not move.  Both generators always answer 1/2. *)
Definition zero3 : Debris.Vec3 := Debris.mkVec3 0 0 0.

Definition rising : Debris.Body :=
  Debris.mkBody zero3 (Debris.mkVec3 0 20 0) zero3 1 zero3 false.

Definition resting : Debris.Body :=
  Debris.mkBody zero3 zero3 zero3 1 zero3 false.

(** A body that has fallen to height -11 at a speed of -30. *)
Definition fallen : Debris.Body :=
  Debris.mkBody (Debris.mkVec3 40 (-11) 7) (Debris.mkVec3 0 (-30) 0)
                (Debris.mkVec3 1 2 3) 1 zero3 true.

Definition half (k : nat) : Q := 1 # 2.

Definition fresh : Debris.Rng := Debris.mkRng 0 0.

(** A simulation over the geometries above: the state of the bodies is a
    step counter, the broad phase always proposes ground against body 1
    and body 1 against body 2. *)
Definition pairsOf (b : nat) : list (nat * nat) := [(0, 1); (1, 2)]%nat.

Definition pointsAt (b : nat) (o1 o2 : nat) : list nat := points o1 o2.

Definition stepBodies (b : nat) (w : Collision.World nat) : nat := S b.

Definition atRest : Physics.Sim nat nat := Physics.mkSim 0%nat hinged.

End Scene.

(** * Part II: the properties *)

(** ** Comparisons *)

Lemma Qltb_true_iff (a b : Q) : Qltb a b = true <-> a < b.
Proof.
  unfold Qltb. destruct (Qlt_le_dec a b) as [H|H]; split; intros H';
    try reflexivity; try discriminate; try assumption; lra.
Qed.

Lemma Qltb_false_iff (a b : Q) : Qltb a b = false <-> b <= a.
Proof.
  unfold Qltb. destruct (Qlt_le_dec a b) as [H|H]; split; intros H';
    try reflexivity; try discriminate; try assumption; lra.
Qed.

Lemma Qltb_lt (a b : Q) : a < b -> Qltb a b = true.
Proof. apply Qltb_true_iff. Qed.

Lemma Qltb_ge (a b : Q) : b <= a -> Qltb a b = false.
Proof. apply Qltb_false_iff. Qed.

(** ** The fixed-step driver *)

Section DriverFacts.

Import Driver.

Variable World : Type.
Variable tick : World -> World.

Local Abbreviation stepLoop := (Driver.stepLoop World tick).
Local Abbreviation driverFrame := (Driver.driverFrame World tick).
Local Abbreviation runFrames := (Driver.runFrames World tick).
Local Abbreviation ticked := (Driver.ticked World tick).

(** What one run of the loop does, from any state below the cap. *)
Lemma stepLoop_spec (fuel : nat) (s : LoopState World) :
  (0 <= pSteps s <= maxPsteps)%Z ->
  (Z.to_nat (maxPsteps + 1 - pSteps s) <= fuel)%nat ->
  exists r,
    stepLoop fuel s = Some r /\
    (pSteps s <= pSteps r <= maxPsteps + 1)%Z /\
    ticked (pSteps r - pSteps s) (world s) (world r) /\
    frameTime r <= physSlice /\
    (0 <= frameTime s -> 0 <= frameTime r) /\
    (capHit r = true -> frameTime r = 0) /\
    (capHit r = false ->
       frameTime r == frameTime s - inject_Z (pSteps r - pSteps s) * physSlice).
Proof.
  revert s. induction fuel as [|fuel IH]; intros s Hp Hf.
  - unfold maxPsteps in *. exfalso.
    assert (0 < Z.to_nat (6 + 1 - pSteps s))%nat by lia. lia.
  - cbn [Driver.stepLoop].
    destruct (Qltb physSlice (frameTime s)) eqn:Hcmp.
    + apply Qltb_true_iff in Hcmp.
      destruct (pSteps s + 1 >? maxPsteps)%Z eqn:Hcap.
      * eexists; split; [reflexivity|].
        unfold capHit, Driver.ticked, maxPsteps in *.
        cbn [pSteps frameTime world].
        split; [lia|].
        split; [replace (pSteps s + 1 - pSteps s)%Z with 1%Z by lia;
                reflexivity|].
        unfold physSlice. split; [lra|]. split; [intros; lra|].
        split; [reflexivity|]. intros Hn. rewrite Hcap in Hn. discriminate.
      * destruct (IH (mkLoop (frameTime s - physSlice) (pSteps s + 1)
                             (tick (world s))))
          as (r & Hr & Hps & Htk & Hub & Hlb & Hc & Hn).
        { cbn [pSteps]. unfold maxPsteps in *. lia. }
        { cbn [pSteps]. unfold maxPsteps in *. lia. }
        cbn [pSteps frameTime world] in *.
        exists r. split; [exact Hr|].
        split; [lia|].
        split.
        { unfold Driver.ticked in *. rewrite Htk.
          replace (Z.to_nat (pSteps r - pSteps s))
            with (Z.to_nat (pSteps r - (pSteps s + 1)) + 1)%nat by lia.
          rewrite Nat.iter_add. reflexivity. }
        split; [exact Hub|].
        split; [intros; apply Hlb; lra|].
        split; [exact Hc|].
        intros Hcr. rewrite (Hn Hcr).
        replace (pSteps r - pSteps s)%Z
          with ((pSteps r - (pSteps s + 1)) + 1)%Z by lia.
        rewrite inject_Z_plus. change (inject_Z 1) with 1. ring.
    + apply Qltb_false_iff in Hcmp.
      exists s. split; [reflexivity|].
      unfold capHit, Driver.ticked.
      split; [unfold maxPsteps in *; lia|].
      split; [rewrite Z.sub_diag; reflexivity|].
      split; [exact Hcmp|]. split; [tauto|].
      split.
      * intros Hc. apply Z.gtb_lt in Hc. unfold maxPsteps in *. lia.
      * intros _. rewrite Z.sub_diag. change (inject_Z 0) with 0. ring.
Qed.

(** Fuel beyond what the loop uses changes nothing. *)
Lemma stepLoop_fuel_mono (fuel : nat) (s r : LoopState World) :
  stepLoop fuel s = Some r -> stepLoop (S fuel) s = Some r.
Proof.
  revert s. induction fuel as [|fuel IH]; intros s H.
  - cbn [Driver.stepLoop] in *.
    destruct (Qltb physSlice (frameTime s)); [discriminate|exact H].
  - cbn [Driver.stepLoop] in H.
    change (stepLoop (S (S fuel)) s) with
      (if Qltb physSlice (frameTime s) then
         if (pSteps s + 1 >? maxPsteps)%Z
         then Some (mkLoop 0 (pSteps s + 1) (tick (world s)))
         else stepLoop (S fuel) (mkLoop (frameTime s - physSlice)
                                        (pSteps s + 1) (tick (world s)))
       else Some s).
    destruct (Qltb physSlice (frameTime s)); [|exact H].
    destruct (pSteps s + 1 >? maxPsteps)%Z; [exact H|].
    apply IH. exact H.
Qed.

(** One frame always ends, with these facts about its end state. *)
Lemma driverFrame_spec (dt acc : Q) (w : World) :
  exists r,
    driverFrame dt acc w = Some r /\
    (0 <= pSteps r <= maxPsteps + 1)%Z /\
    ticked (pSteps r) w (world r) /\
    frameTime r <= physSlice /\
    (0 <= acc + dt -> 0 <= frameTime r) /\
    (capHit r = true -> frameTime r = 0) /\
    (capHit r = false ->
       frameTime r == acc + dt - inject_Z (pSteps r) * physSlice).
Proof.
  unfold Driver.driverFrame.
  destruct (stepLoop_spec loopFuel (mkLoop (acc + dt) 0 w))
    as (r & Hr & Hps & Htk & Hub & Hlb & Hc & Hn).
  - cbn [pSteps]. unfold maxPsteps. lia.
  - cbn [pSteps]. unfold loopFuel. rewrite Z.sub_0_r. apply Nat.le_refl.
  - cbn [pSteps frameTime world] in *. rewrite Z.sub_0_r in *.
    exists r. repeat split; try tauto; try lia.
Qed.

(** The accumulator stays in the closed interval over any run of frames. *)
Lemma runFrames_inv (dts : list Q) (s : LoopState World) :
  Forall (fun dt => 0 <= dt) dts ->
  0 <= frameTime s <= physSlice ->
  (capHit s = true -> frameTime s = 0) ->
  exists r,
    runFrames dts s = Some r /\
    0 <= frameTime r <= physSlice /\
    (capHit r = true -> frameTime r = 0).
Proof.
  revert s. induction dts as [|dt rest IH]; intros s Hd Hs Hc.
  - exists s. split; [reflexivity|]. split; assumption.
  - inversion Hd as [|x l Hdt Hrest]; subst.
    cbn [Driver.runFrames].
    destruct (driverFrame_spec dt (frameTime s) (world s))
      as (r & Hr & _ & _ & Hub & Hlb & Hcap & _).
    rewrite Hr. apply IH; [exact Hrest| |exact Hcap].
    split; [apply Hlb; lra|exact Hub].
Qed.

End DriverFacts.

(** C1, as amended.  Over every run of frames with non-negative
    durations, the accumulator [frameTime] left after the last frame's
    stepping loop lies in the closed interval from 0 to [physSlice] (the
    loop runs while [frameTime > physSlice], so [physSlice] itself can be
    left over), and it is exactly 0 when the step cap was hit. *)
Theorem leftover_in_closed_slice
  (World : Type) (tick : World -> World) (dts : list Q) (w : World) :
  Forall (fun dt => 0 <= dt) dts ->
  exists r,
    Driver.runFrames World tick dts (Driver.initial w) = Some r /\
    0 <= Driver.frameTime r <= Driver.physSlice /\
    (Driver.capHit r = true -> Driver.frameTime r = 0).
Proof.
  intros Hd. apply runFrames_inv; [exact Hd| |].
  - cbn. unfold Driver.physSlice. lra.
  - cbn. discriminate.
Qed.

(** The amended C1 on three frames of 1/60 s, 0 s and 1/2 s. *)
Lemma leftover_in_closed_slice_witness :
  Forall (fun dt => 0 <= dt) [1 # 60; 0; 1 # 2] /\
  exists r,
    Driver.runFrames nat S [1 # 60; 0; 1 # 2] (Driver.initial 0%nat) = Some r /\
    0 <= Driver.frameTime r <= Driver.physSlice /\
    (Driver.capHit r = true -> Driver.frameTime r = 0).
Proof.
  assert (H : Forall (fun dt => 0 <= dt) [1 # 60; 0; 1 # 2])
    by (repeat constructor; discriminate).
  split; [exact H|].
  exact (leftover_in_closed_slice nat S [1 # 60; 0; 1 # 2] 0%nat H).
Defined.

(** C1 as stated fails: a first frame that lasts exactly [physSlice] does
    not enter the loop, the cap is not hit, and the leftover is [physSlice],
    which is not below [physSlice]. *)
Lemma leftover_half_open_fails :
  exists r,
    Driver.runFrames nat S [1 # 240] (Driver.initial 0%nat) = Some r /\
    Driver.capHit r = false /\
    Driver.pSteps r = 0%Z /\
    Driver.frameTime r == Driver.physSlice /\
    ~ (Driver.frameTime r < Driver.physSlice) /\
    ~ (Driver.frameTime r == 0).
Proof.
  eexists. split; [vm_compute; reflexivity|].
  cbn. repeat split; try reflexivity; unfold Driver.physSlice; lra.
Qed.

(** C2, as amended.  A frame performs at most [maxPsteps + 1 = 7] ticks:
    the world at the end of the frame is the world at its start after
    [pSteps] ticks, with [0 <= pSteps <= 7]; and when the step counter
    exceeds the cap (it is then 7) the accumulator is set to 0 and the
    frame's stepping has stopped. *)
Theorem frame_ticks_bounded
  (World : Type) (tick : World -> World) (dt acc : Q) (w : World) :
  exists r,
    Driver.driverFrame World tick dt acc w = Some r /\
    (0 <= Driver.pSteps r <= Driver.maxPsteps + 1)%Z /\
    Driver.world r = Nat.iter (Z.to_nat (Driver.pSteps r)) tick w /\
    (Driver.capHit r = true ->
       Driver.frameTime r = 0 /\ Driver.pSteps r = (Driver.maxPsteps + 1)%Z).
Proof.
  destruct (driverFrame_spec World tick dt acc w)
    as (r & Hr & Hps & Htk & _ & _ & Hcap & _).
  exists r. split; [exact Hr|]. split; [exact Hps|]. split; [exact Htk|].
  intros Hc. split; [exact (Hcap Hc)|].
  unfold Driver.capHit in Hc. apply Z.gtb_lt in Hc. lia.
Qed.

(** The amended C2 on a frame of one second. *)
Lemma frame_ticks_bounded_witness :
  exists r,
    Driver.driverFrame nat S 1 0 0%nat = Some r /\
    (0 <= Driver.pSteps r <= Driver.maxPsteps + 1)%Z /\
    Driver.world r = Nat.iter (Z.to_nat (Driver.pSteps r)) S 0%nat /\
    (Driver.capHit r = true ->
       Driver.frameTime r = 0 /\ Driver.pSteps r = (Driver.maxPsteps + 1)%Z).
Proof.
  exact (frame_ticks_bounded nat S 1 0 0%nat).
Defined.

(** C2 as stated fails: a frame of one second performs 7 ticks, one more
    than the cap of 6, before the accumulator is dropped. *)
Lemma seven_ticks_in_a_frame :
  Driver.driverFrame nat S 1 0 0%nat = Some (Driver.mkLoop 0 7 7%nat) /\
  (Z.of_nat 7 > Driver.maxPsteps)%Z.
Proof.
  split; [vm_compute; reflexivity|reflexivity].
Qed.

(** ** The flip-recovery counter *)

Section FlipFacts.

Import FlipRecovery.

Lemma int_wrap_small (z : Z) :
  (- 2 ^ 31 <= z < 2 ^ 31)%Z -> int_wrap z = z.
Proof.
  intros H. unfold int_wrap. rewrite Z.mod_small; lia.
Qed.

Lemma countFlipped_over (roll : Q) (c : Z) :
  overLimit roll = true -> (0 <= c < 2 ^ 31 - 1)%Z ->
  countFlipped roll c = (c + 1)%Z.
Proof.
  intros Ho Hc. unfold countFlipped. rewrite Ho. apply int_wrap_small. lia.
Qed.

Lemma countFlipped_within (roll : Q) (c : Z) :
  overLimit roll = false -> countFlipped roll c = 0%Z.
Proof.
  intros Ho. unfold countFlipped. rewrite Ho. reflexivity.
Qed.

Lemma overTrace_S (c : Z) (n : nat) :
  overTrace c (S n) = wantsUnflip (c + 1) :: overTrace (c + 1) n.
Proof.
  unfold overTrace. cbn [seq map]. f_equal.
  rewrite <- seq_shift, map_map. apply map_ext. intros k.
  f_equal. lia.
Qed.

(** A run of frames that are all over the limit counts them. *)
Lemma flipRun_over (rolls : list Q) (c : Z) :
  Forall (fun roll => overLimit roll = true) rolls ->
  (0 <= c)%Z -> (c + Z.of_nat (length rolls) < 2 ^ 31)%Z ->
  flipRun rolls c =
    ((c + Z.of_nat (length rolls))%Z, overTrace c (length rolls)).
Proof.
  revert c. induction rolls as [|roll rest IH]; intros c Hall Hc Hlen.
  - cbn. rewrite Z.add_0_r. reflexivity.
  - inversion Hall as [|x l Hroll Hrest]; subst.
    cbn [length] in *. cbn [flipRun]. unfold flipFrame.
    rewrite countFlipped_over by (assumption || lia).
    rewrite IH by (assumption || lia).
    rewrite overTrace_S. f_equal. lia.
Qed.

(** A run that ends with a frame inside the limit ends with counter 0 and
    no call in that last frame. *)
Lemma flipRun_app (r1 r2 : list Q) (c : Z) :
  flipRun (r1 ++ r2) c =
    let '(c1, t1) := flipRun r1 c in
    let '(c2, t2) := flipRun r2 c1 in
    (c2, t1 ++ t2).
Proof.
  revert c. induction r1 as [|roll rest IH]; intros c.
  - cbn [app flipRun]. destruct (flipRun r2 c). reflexivity.
  - cbn [app flipRun]. unfold flipFrame. rewrite IH.
    destruct (flipRun rest (countFlipped roll c)) as [c1 t1].
    destruct (flipRun r2 c1) as [c2 t2]. reflexivity.
Qed.

End FlipFacts.

(** C3, as amended.  Fed a roll over the limit ([|roll| > M_PI_2 - 0.001])
    for 101 consecutive frames from counter 0, the monitor calls
    [unflipVehicle] exactly once, in the 101st frame.  The call does not
    touch the counter, which is 101 after that frame: it returns to 0 in
    the first later frame whose roll is inside the limit, without a call,
    and one more frame over the limit calls [unflipVehicle] again.  Fed a
    roll over the limit for 100 frames and then one frame inside the limit,
    the monitor never calls [unflipVehicle] and the counter ends at 0. *)
Theorem flip_recovery_after_101
  (rolls : list Q) (next : Q) :
  Forall (fun roll => FlipRecovery.overLimit roll = true) rolls ->
  (length rolls = 101%nat ->
     FlipRecovery.flipRun rolls 0 = (101%Z, repeat false 100 ++ [true]) /\
     FlipRecovery.recoveries (snd (FlipRecovery.flipRun rolls 0)) = 1%nat /\
     (FlipRecovery.overLimit next = false ->
        FlipRecovery.flipFrame next 101 = (0%Z, false)) /\
     (FlipRecovery.overLimit next = true ->
        FlipRecovery.flipFrame next 101 = (102%Z, true))) /\
  (length rolls = 100%nat ->
     FlipRecovery.overLimit next = false ->
     FlipRecovery.flipRun (rolls ++ [next]) 0 = (0%Z, repeat false 101)).
Proof.
  intros Hall. split.
  - intros Hlen.
    assert (Hrun : FlipRecovery.flipRun rolls 0
                   = (101%Z, repeat false 100 ++ [true])).
    { rewrite flipRun_over by (assumption || rewrite ?Hlen; lia).
      rewrite Hlen. vm_compute. reflexivity. }
    split; [exact Hrun|]. split; [rewrite Hrun; reflexivity|].
    split; intros Hn; unfold FlipRecovery.flipFrame.
    + rewrite countFlipped_within by exact Hn. reflexivity.
    + rewrite countFlipped_over by (assumption || lia). reflexivity.
  - intros Hlen Hn. rewrite flipRun_app.
    rewrite flipRun_over by (assumption || rewrite ?Hlen; lia).
    rewrite Hlen. cbn [FlipRecovery.flipRun]. unfold FlipRecovery.flipFrame.
    rewrite countFlipped_within by exact Hn.
    vm_compute. reflexivity.
Qed.

(** The amended C3 on 101 frames with a roll of 2 radians, followed by a
    level frame. *)
Lemma flip_recovery_after_101_witness :
  Forall (fun roll => FlipRecovery.overLimit roll = true) (repeat 2 101) /\
  length (repeat 2 101) = 101%nat /\
  FlipRecovery.overLimit 0 = false /\
  FlipRecovery.flipRun (repeat 2 101) 0 = (101%Z, repeat false 100 ++ [true]) /\
  FlipRecovery.flipFrame 0 101 = (0%Z, false).
Proof.
  assert (H : Forall (fun roll => FlipRecovery.overLimit roll = true)
                     (repeat 2 101)).
  { apply Forall_forall. intros x Hx. apply repeat_spec in Hx. subst x.
    reflexivity. }
  split; [exact H|]. split; [reflexivity|]. split; [reflexivity|].
  destruct (flip_recovery_after_101 (repeat 2 101) 0 H) as [H101 _].
  destruct (H101 eq_refl) as (Hrun & _ & Hnext & _).
  split; [exact Hrun|]. exact (Hnext eq_refl).
Defined.

(** C3 as stated fails in its "back in Upright with counter 0": after the
    101st consecutive frame over the limit, in which [unflipVehicle] is
    called, the counter is 101 and not 0. *)
Lemma counter_not_reset_by_recovery :
  FlipRecovery.flipRun (repeat 2 101) 0 = (101%Z, repeat false 100 ++ [true]) /\
  fst (FlipRecovery.flipRun (repeat 2 101) 0) <> 0%Z.
Proof.
  split; [vm_compute; reflexivity|vm_compute; discriminate].
Qed.

(** ** Accel and steer smoothing *)

Section ControlFacts.

Import Controls.

(** The clamps, as bounds and as the identity inside the range. *)
Lemma clampAccel_spec (a : Q) :
  minAccel <= clampAccel a <= maxAccel /\
  (minAccel <= a <= maxAccel -> clampAccel a = a) /\
  (maxAccel < a -> clampAccel a = maxAccel) /\
  (a < minAccel -> clampAccel a = minAccel).
Proof.
  unfold clampAccel, minAccel, maxAccel.
  destruct (Qltb 75 a) eqn:H1.
  - apply Qltb_true_iff in H1. rewrite (Qltb_ge 75 (-25)) by lra.
    repeat split; try lra; intros; try reflexivity; lra.
  - apply Qltb_false_iff in H1. destruct (Qltb a (-25)) eqn:H2.
    + apply Qltb_true_iff in H2.
      repeat split; try lra; intros; try reflexivity; lra.
    + apply Qltb_false_iff in H2.
      repeat split; try lra; intros; try reflexivity; lra.
Qed.

Lemma accelFrame_unfold (keyUp keyDown : bool) (a : Q) :
  accelFrame keyUp keyDown a =
    clampAccel
      (let x := a * (99 # 100) in
       let x := if keyUp then x + (25 # 10) else x in
       if keyDown then x - (25 # 10) else x).
Proof. reflexivity. Qed.

(** Whatever the keys, the accel value of a frame is inside the clamp. *)
Lemma accelFrame_bounds (keyUp keyDown : bool) (a : Q) :
  minAccel <= accelFrame keyUp keyDown a <= maxAccel.
Proof. rewrite accelFrame_unfold. apply clampAccel_spec. Qed.

(** Holding accelerate, below the bound: the value does not decrease. *)
Lemma accelFrame_up_increases (a : Q) :
  0 <= a <= maxAccel -> a <= accelFrame true false a.
Proof.
  intros Ha. rewrite accelFrame_unfold. cbn zeta.
  unfold maxAccel in *.
  destruct (Qlt_le_dec maxAccel (a * (99 # 100) + (25 # 10))) as [H|H].
  - destruct (clampAccel_spec (a * (99 # 100) + (25 # 10)))
      as (_ & _ & Hmax & _).
    rewrite (Hmax H). unfold maxAccel. lra.
  - destruct (clampAccel_spec (a * (99 # 100) + (25 # 10)))
      as (_ & Hid & _ & _).
    unfold maxAccel, minAccel in *. rewrite Hid by lra. lra.
Qed.

(** With accelerate held from 0 the value is [maxAccel] at frame 36. *)
Lemma accelRun_up_36 : accelRun true false 36 0 = maxAccel.
Proof. vm_compute. reflexivity. Qed.

Lemma accelRun_up_35 : accelRun true false 35 0 < maxAccel.
Proof. vm_compute. reflexivity. Qed.

Lemma accelFrame_up_at_max : accelFrame true false maxAccel = maxAccel.
Proof. vm_compute. reflexivity. Qed.

Lemma accelRun_up_stays (n : nat) :
  (36 <= n)%nat -> accelRun true false n 0 = maxAccel.
Proof.
  intros Hn. replace n with ((n - 36) + 36)%nat by lia.
  unfold accelRun. rewrite Nat.iter_add.
  fold (accelRun true false 36 0). rewrite accelRun_up_36.
  generalize (n - 36)%nat. intros k. induction k as [|k IH]; [reflexivity|].
  rewrite Nat.iter_succ, IH. apply accelFrame_up_at_max.
Qed.

(** No key held: the frame multiplies by 0.99 inside the clamp, and the
    value keeps its sign while its size shrinks. *)
Lemma accelFrame_release_in_range (a : Q) :
  minAccel <= a <= maxAccel -> accelFrame false false a == a * (99 # 100).
Proof.
  intros Ha. rewrite accelFrame_unfold. cbn zeta.
  destruct (clampAccel_spec (a * (99 # 100))) as (_ & Hid & _ & _).
  unfold minAccel, maxAccel in *. rewrite Hid by lra. reflexivity.
Qed.

(** Accelerate held: the damping comes first, then the input is added. *)
Lemma accelFrame_up_in_range (a : Q) :
  minAccel <= a * (99 # 100) + (25 # 10) <= maxAccel ->
  accelFrame true false a == a * (99 # 100) + (25 # 10).
Proof.
  intros Ha. rewrite accelFrame_unfold. cbn zeta.
  destruct (clampAccel_spec (a * (99 # 100) + (25 # 10))) as (_ & Hid & _ & _).
  rewrite (Hid Ha). reflexivity.
Qed.

Lemma accelFrame_release_sign (a : Q) :
  (0 <= a -> 0 <= accelFrame false false a <= a * (99 # 100)) /\
  (a <= 0 -> a * (99 # 100) <= accelFrame false false a <= 0).
Proof.
  rewrite accelFrame_unfold. cbn zeta.
  destruct (clampAccel_spec (a * (99 # 100))) as (Hb & Hid & Hmax & Hmin).
  unfold minAccel, maxAccel in *.
  split; intros Ha.
  - destruct (Qlt_le_dec 75 (a * (99 # 100))) as [H|H].
    + rewrite (Hmax H). lra.
    + rewrite Hid by lra. lra.
  - destruct (Qlt_le_dec (a * (99 # 100)) (-25)) as [H|H].
    + rewrite (Hmin H). lra.
    + rewrite Hid by lra. lra.
Qed.

Lemma accelRun_release_sign (n : nat) (a : Q) :
  (0 <= a -> 0 <= accelRun false false n a <= a) /\
  (a <= 0 -> a <= accelRun false false n a <= 0).
Proof.
  induction n as [|n IH].
  - cbn. split; intros; lra.
  - unfold accelRun in *. rewrite Nat.iter_succ.
    destruct IH as [IHp IHn].
    destruct (accelFrame_release_sign (Nat.iter n (accelFrame false false) a))
      as [Hp Hn].
    split; intros Ha.
    + specialize (IHp Ha). specialize (Hp (proj1 IHp)). lra.
    + specialize (IHn Ha). specialize (Hn (proj2 IHn)). lra.
Qed.

Lemma accelFrame_release_abs (a : Q) :
  Qabs (accelFrame false false a) <= Qabs a * (99 # 100).
Proof.
  destruct (accelFrame_release_sign a) as [Hp Hn].
  destruct (Qlt_le_dec a 0) as [H|H].
  - assert (Ha : a <= 0) by lra. specialize (Hn Ha).
    rewrite (Qabs_neg a) by exact Ha.
    rewrite Qabs_neg by lra. lra.
  - specialize (Hp H). rewrite (Qabs_pos a) by exact H.
    rewrite Qabs_pos by lra. lra.
Qed.

(** The size after [n] released frames, against a bound that tends to 0. *)
Lemma accelRun_release_decay (n : nat) (a : Q) :
  Qabs (accelRun false false n a) * (99 + inject_Z (Z.of_nat n))
    <= 99 * Qabs a.
Proof.
  induction n as [|n IH].
  - change (accelRun false false 0 a) with a.
    change (inject_Z (Z.of_nat 0)) with 0. lra.
  - unfold accelRun in *. rewrite Nat.iter_succ.
    set (x := Nat.iter n (accelFrame false false) a) in *.
    pose proof (accelFrame_release_abs x) as Hx.
    pose proof (Qabs_nonneg x) as Hx0.
    pose proof (Qabs_nonneg (accelFrame false false x)) as Hy0.
    rewrite Nat2Z.inj_succ. unfold Z.succ. rewrite inject_Z_plus.
    change (inject_Z 1) with 1.
    assert (Hn0 : 0 <= inject_Z (Z.of_nat n)).
    { change 0 with (inject_Z 0). rewrite <- Zle_Qle. lia. }
    set (m := inject_Z (Z.of_nat n)) in *.
    apply Qle_trans with (Qabs x * (99 # 100) * (99 + (m + 1))).
    + apply Qmult_le_compat_r; [exact Hx|lra].
    + apply Qle_trans with (Qabs x * (99 + m)); [|exact IH].
      setoid_replace (Qabs x * (99 # 100) * (99 + (m + 1)))
        with (Qabs x * ((99 # 100) * (99 + (m + 1)))) by ring.
      apply Qmult_le_compat_nonneg; split; lra.
Qed.

End ControlFacts.

Section ControlLimits.

Import Controls.

(** Released, the value gets below any positive bound and stays there. *)
Lemma accelRun_release_limit (a eps : Q) :
  0 < eps ->
  exists N : nat, forall n : nat, (N <= n)%nat ->
    Qabs (accelRun false false n a) < eps.
Proof.
  intros Heps.
  set (K := 99 * Qabs a / eps).
  exists (Z.to_nat (Qceiling K)). intros n Hn.
  pose proof (accelRun_release_decay n a) as Hdec.
  pose proof (Qle_ceiling K) as HK.
  assert (HKn : K <= inject_Z (Z.of_nat n)).
  { apply Qle_trans with (inject_Z (Qceiling K)); [exact HK|].
    rewrite <- Zle_Qle. lia. }
  assert (HB : 99 * Qabs a == K * eps).
  { unfold K. field. lra. }
  assert (Hmul : K * eps <= inject_Z (Z.of_nat n) * eps).
  { apply Qmult_le_compat_r; [exact HKn|lra]. }
  set (m := inject_Z (Z.of_nat n)) in *.
  assert (Hm : 0 <= m).
  { unfold m. change 0 with (inject_Z 0). rewrite <- Zle_Qle. lia. }
  apply (Qmult_lt_r _ _ (99 + m)); [lra|].
  apply Qle_lt_trans with (99 * Qabs a); [exact Hdec|].
  rewrite HB. apply Qle_lt_trans with (m * eps); [exact Hmul|].
  setoid_replace (eps * (99 + m)) with (m * eps + 99 * eps) by ring.
  lra.
Qed.

(** The steer clamp. *)
Lemma clampSteer_spec (s : Q) :
  - (1 # 2) <= clampSteer s <= 1 # 2 /\
  (- (1 # 2) <= s <= 1 # 2 -> clampSteer s = s) /\
  (1 # 2 < s -> clampSteer s = 5 # 10) /\
  (s < - (1 # 2) -> clampSteer s = - (5 # 10)).
Proof.
  unfold clampSteer.
  destruct (Qltb (5 # 10) s) eqn:H1.
  - apply Qltb_true_iff in H1. rewrite (Qltb_ge (5 # 10) (- (5 # 10))) by lra.
    repeat split; try lra; intros; try reflexivity; lra.
  - apply Qltb_false_iff in H1. destruct (Qltb s (- (5 # 10))) eqn:H2.
    + apply Qltb_true_iff in H2.
      repeat split; try lra; intros; try reflexivity; lra.
    + apply Qltb_false_iff in H2.
      repeat split; try lra; intros; try reflexivity; lra.
Qed.

End ControlLimits.

(** C5.  From accel 0 with accelerate held, the value never exceeds
    [maxAccel] (75), never decreases, and equals [maxAccel] from the 36th
    frame on.  A frame multiplies the value by 0.99 before it adds the
    input; with no key held that is all it does (inside the clamp range),
    and over any number of such frames the value keeps its sign, never
    crosses 0, and gets below any positive bound. *)
Theorem accel_converges_and_decays :
  (forall n : nat, Controls.accelRun true false n 0 <= Controls.maxAccel) /\
  (forall n : nat,
     Controls.accelRun true false n 0 <= Controls.accelRun true false (S n) 0) /\
  (forall n : nat, (36 <= n)%nat ->
     Controls.accelRun true false n 0 = Controls.maxAccel) /\
  (forall a : Q, Controls.minAccel <= a <= Controls.maxAccel ->
     Controls.accelFrame false false a == a * (99 # 100)) /\
  (forall a : Q,
     Controls.minAccel <= a * (99 # 100) + (25 # 10) <= Controls.maxAccel ->
     Controls.accelFrame true false a == a * (99 # 100) + (25 # 10)) /\
  (forall (a : Q) (n : nat),
     (0 <= a -> 0 <= Controls.accelRun false false n a <= a) /\
     (a <= 0 -> a <= Controls.accelRun false false n a <= 0)) /\
  (forall a eps : Q, 0 < eps ->
     exists N : nat, forall n : nat, (N <= n)%nat ->
       Qabs (Controls.accelRun false false n a) < eps).
Proof.
  assert (Hbound : forall n : nat,
             0 <= Controls.accelRun true false n 0 <= Controls.maxAccel).
  { induction n as [|n IH].
    - cbn. unfold Controls.maxAccel. lra.
    - unfold Controls.accelRun in *. rewrite Nat.iter_succ.
      pose proof (accelFrame_up_increases _ IH) as Hinc.
      pose proof (accelFrame_bounds true false
                    (Nat.iter n (Controls.accelFrame true false) 0)) as Hb.
      split; [lra|apply Hb]. }
  split; [intros n; apply Hbound|].
  split.
  { intros n. unfold Controls.accelRun. rewrite Nat.iter_succ.
    apply accelFrame_up_increases. apply Hbound. }
  split; [exact accelRun_up_stays|].
  split; [exact accelFrame_release_in_range|].
  split; [exact accelFrame_up_in_range|].
  split; [intros a n; apply accelRun_release_sign|].
  exact accelRun_release_limit.
Qed.

(** C5 on 40 frames of accelerate from 0, then released from 50. *)
Lemma accel_converges_and_decays_witness :
  (36 <= 40)%nat /\
  Controls.accelRun true false 40 0 = Controls.maxAccel /\
  Controls.minAccel <= 50 <= Controls.maxAccel /\
  Controls.accelFrame false false 50 == 50 * (99 # 100) /\
  0 <= Controls.accelRun false false 10 50 <= 50 /\
  exists N : nat, forall n : nat, (N <= n)%nat ->
    Qabs (Controls.accelRun false false n 50) < 1.
Proof.
  destruct accel_converges_and_decays
    as (_ & _ & Hstay & Hrel & _ & Hsign & Hlim).
  assert (H40 : (36 <= 40)%nat) by (repeat constructor).
  assert (H50 : Controls.minAccel <= 50 <= Controls.maxAccel)
    by (split; discriminate).
  split; [exact H40|]. split; [exact (Hstay 40%nat H40)|].
  split; [exact H50|]. split; [exact (Hrel 50 H50)|].
  split; [apply (proj1 (Hsign 50 10%nat)); discriminate|].
  apply (Hlim 50 1). reflexivity.
Defined.

(** ** The near-phase collision callback *)

Section CollisionFacts.

Import Collision.

Variable dGeomID : Type.
Variable dContactGeom : Type.
Variable dGeomGetBody : dGeomID -> dBodyID.
Variable checkColliding : dGeomID -> bool.
Variable contactPoints : dGeomID -> dGeomID -> list dContactGeom.

Local Abbreviation nearCallback :=
  (Collision.nearCallback dGeomGetBody checkColliding contactPoints).
Local Abbreviation World := (Collision.World dContactGeom).
Local Abbreviation dContact := (Collision.dContact dContactGeom).

Lemma dJointType_eqb_neq (a b : dJointType) :
  a <> b -> dJointType_eqb a b = false.
Proof.
  intros H. destruct a, b; try reflexivity; exfalso; apply H; reflexivity.
Qed.

Lemma body_eqb_Some (x : nat) : body_eqb (Some x) x = true.
Proof. cbn. apply Nat.eqb_refl. Qed.

(** A joint of the vehicle that links two bodies makes ODE answer yes. *)
Lemma linked_connected (w : World) (j : Joint) (x y : nat) :
  In j (joints w) -> linksBodies j x y ->
  dAreConnectedExcluding w x y dJointTypeContact = true.
Proof.
  intros Hin [Hty Hb]. unfold dAreConnectedExcluding.
  apply existsb_exists. exists j. split.
  - unfold allJoints. apply in_or_app. left. exact Hin.
  - rewrite (dJointType_eqb_neq _ _ Hty). cbn [negb andb].
    destruct Hb as [[H1 H2]|[H1 H2]]; rewrite H1, H2, !body_eqb_Some;
      cbn; rewrite ?orb_true_r; reflexivity.
Qed.

(** The array after [dCollide]: its first entries are the contact points
    with the surface parameters of the first loop. *)
Lemma fillGeoms_firstn (pts : list dContactGeom) (c : dContact) (n : nat) :
  (length pts <= n)%nat ->
  firstn (length pts) (fillGeoms pts (repeat c n))
    = map (fun p => mkContact (surface c) (Some p)) pts.
Proof.
  revert n. induction pts as [|p pts IH]; intros n Hn.
  - reflexivity.
  - destruct n as [|n]; [cbn in Hn; lia|].
    cbn [length repeat fillGeoms firstn map]. f_equal.
    apply IH. cbn in Hn. lia.
Qed.

Lemma fillGeoms_length (pts : list dContactGeom) (l : list dContact) :
  length (fillGeoms pts l) = length l.
Proof.
  revert l. induction pts as [|p pts IH]; intros [|c l]; cbn; try reflexivity.
  rewrite IH. reflexivity.
Qed.

(** The second loop appends one joint per array entry below [numc]. *)
Lemma attachLoop_from
  (contact : list dContact) (b1 b2 : dBodyID) (k n : nat) (w : World) :
  (k + n <= length contact)%nat ->
  fold_left
    (fun w i =>
       match nth_error contact i with
       | Some c => createContact c b1 b2 w
       | None => w
       end)
    (seq k n) w
  = mkWorld (joints w)
      (contactgroup w ++
       map (fun c => mkContactJoint c b1 b2) (firstn n (skipn k contact))).
Proof.
  revert k w. induction n as [|n IH]; intros k w Hk.
  - cbn. rewrite app_nil_r. destruct w; reflexivity.
  - cbn [seq fold_left].
    destruct (nth_error contact k) as [c|] eqn:Hc.
    + rewrite IH by lia. cbn [createContact joints contactgroup].
      rewrite <- app_assoc. cbn [app]. do 2 f_equal.
      assert (Hsk : skipn k contact = c :: skipn (S k) contact).
      { clear - Hc. revert k Hc.
        induction contact as [|x l IHl]; intros [|k] Hc; cbn in *;
          try discriminate.
        - inversion Hc. reflexivity.
        - apply IHl. exact Hc. }
      rewrite Hsk. reflexivity.
    + apply nth_error_None in Hc. lia.
Qed.

Lemma attachLoop_spec
  (numc : nat) (contact : list dContact) (b1 b2 : dBodyID) (w : World) :
  (numc <= length contact)%nat ->
  attachLoop numc contact b1 b2 w
  = mkWorld (joints w)
      (contactgroup w ++
       map (fun c => mkContactJoint c b1 b2) (firstn numc contact)).
Proof.
  intros H. unfold attachLoop. rewrite attachLoop_from by (cbn; lia).
  reflexivity.
Qed.

(** The callback in one equation: nothing for a filtered pair, otherwise
    one contact joint for each of the first [MAX_CONTACTS] contact points. *)
Lemma nearCallback_eq (o1 o2 : dGeomID) (w : World) :
  nearCallback o1 o2 w =
    if connectedByJoint w (dGeomGetBody o1) (dGeomGetBody o2)
       || negb (checkColliding o1) || negb (checkColliding o2)
    then w
    else mkWorld (joints w)
           (contactgroup w ++
            map (contactOf (dGeomGetBody o1) (dGeomGetBody o2))
                (firstn MAX_CONTACTS (contactPoints o1 o2))).
Proof.
  unfold Collision.nearCallback.
  destruct (connectedByJoint w (dGeomGetBody o1) (dGeomGetBody o2));
    [reflexivity|].
  destruct (checkColliding o1); [|reflexivity].
  destruct (checkColliding o2); [|reflexivity].
  cbn [negb orb]. unfold dCollide.
  set (pts := firstn MAX_CONTACTS (contactPoints o1 o2)).
  assert (Hlen : (length pts <= MAX_CONTACTS)%nat)
    by (unfold pts; apply firstn_le_length).
  destruct (Nat.eqb (length pts) 0) eqn:Hz.
  - apply Nat.eqb_eq in Hz. destruct pts; [|discriminate].
    cbn. rewrite app_nil_r. destruct w; reflexivity.
  - rewrite attachLoop_spec.
    + unfold initContacts. rewrite fillGeoms_firstn by exact Hlen.
      rewrite map_map. reflexivity.
    + rewrite fillGeoms_length. unfold initContacts.
      rewrite repeat_length. exact Hlen.
Qed.

End CollisionFacts.

(** C6.  For a pair whose two bodies are linked by a joint of the vehicle
    (a joint that is not a contact joint), or one of whose geometries
    [checkColliding] rejects, the callback returns the world as it got it:
    no contact joint is created and the contact group is unchanged. *)
Theorem no_contact_for_excluded_pair
  (dGeomID dContactGeom : Type)
  (dGeomGetBody : dGeomID -> Collision.dBodyID)
  (checkColliding : dGeomID -> bool)
  (contactPoints : dGeomID -> dGeomID -> list dContactGeom)
  (o1 o2 : dGeomID) (w : Collision.World dContactGeom) :
  (exists (j : Collision.Joint) (x y : nat),
      dGeomGetBody o1 = Some x /\ dGeomGetBody o2 = Some y /\
      In j (Collision.joints w) /\ Collision.linksBodies j x y) \/
  checkColliding o1 = false \/ checkColliding o2 = false ->
  Collision.nearCallback dGeomGetBody checkColliding contactPoints o1 o2 w = w
  /\
  Collision.created w
    (Collision.nearCallback dGeomGetBody checkColliding contactPoints o1 o2 w)
  = [].
Proof.
  intros H.
  assert (Heq : Collision.nearCallback dGeomGetBody checkColliding
                  contactPoints o1 o2 w = w).
  { rewrite nearCallback_eq.
    destruct H as [(j & x & y & H1 & H2 & Hin & Hl)|[Hc|Hc]].
    - rewrite H1, H2. cbn [Collision.connectedByJoint].
      rewrite (linked_connected _ w j x y Hin Hl). reflexivity.
    - rewrite Hc. cbn [negb]. rewrite orb_true_r. reflexivity.
    - rewrite Hc. cbn [negb]. rewrite !orb_true_r. reflexivity. }
  split; [exact Heq|].
  rewrite Heq. unfold Collision.created. apply skipn_all.
Qed.

(** C6 on the two hinged bodies of the sample scene. *)
Lemma no_contact_for_excluded_pair_witness :
  In (Collision.mkJoint Collision.dJointTypeHinge2 (Some 1%nat) (Some 2%nat))
     (Collision.joints Scene.hinged) /\
  Collision.nearCallback Scene.bodyOf Scene.collidable Scene.points
    1%nat 2%nat Scene.hinged = Scene.hinged.
Proof.
  assert (Hin : In (Collision.mkJoint Collision.dJointTypeHinge2
                      (Some 1%nat) (Some 2%nat))
                   (Collision.joints Scene.hinged))
    by (left; reflexivity).
  split; [exact Hin|].
  apply (no_contact_for_excluded_pair nat nat Scene.bodyOf Scene.collidable
           Scene.points 1%nat 2%nat Scene.hinged).
  left. exists (Collision.mkJoint Collision.dJointTypeHinge2
                  (Some 1%nat) (Some 2%nat)), 1%nat, 2%nat.
  split; [reflexivity|]. split; [reflexivity|]. split; [exact Hin|].
  split; [discriminate|]. left. split; reflexivity.
Defined.

(** C7.  For every pair the callback leaves the vehicle's joints alone and
    appends to the contact group at most [MAX_CONTACTS = 8] contact joints.
    A filtered pair (bodies linked by a joint of the vehicle, or a geometry
    that [checkColliding] rejects) gets none.  A surviving pair gets one
    for each of the first 8 contact points computed, in order and attached
    to the two bodies of the pair, so their number is the smaller of 8 and
    the number of contact points; the points from the 9th on are dropped.
    Each contact joint carries the same surface parameters: mu 1000,
    slip1 0.0001, slip2 0.001, soft_erp 0.05, soft_cfm 0.0003, bounce 0.1
    and bounce_vel 0.1, under a mode that has no [dContactBounce] bit. *)
Theorem at_most_eight_contacts
  (dGeomID dContactGeom : Type)
  (dGeomGetBody : dGeomID -> Collision.dBodyID)
  (checkColliding : dGeomID -> bool)
  (contactPoints : dGeomID -> dGeomID -> list dContactGeom)
  (o1 o2 : dGeomID) (w : Collision.World dContactGeom) :
  exists new : list (Collision.ContactJoint dContactGeom),
    Collision.nearCallback dGeomGetBody checkColliding contactPoints o1 o2 w
      = Collision.mkWorld (Collision.joints w)
          (Collision.contactgroup w ++ new) /\
    (length new <= 8)%nat /\
    (Collision.connectedByJoint w (dGeomGetBody o1) (dGeomGetBody o2) = true \/
     checkColliding o1 = false \/ checkColliding o2 = false ->
     new = []) /\
    (Collision.connectedByJoint w (dGeomGetBody o1) (dGeomGetBody o2) = false ->
     checkColliding o1 = true -> checkColliding o2 = true ->
     Collision.separateBodies (dGeomGetBody o1) (dGeomGetBody o2) ->
     new = map (Collision.contactOf (dGeomGetBody o1) (dGeomGetBody o2))
               (firstn 8 (contactPoints o1 o2)) /\
     length new = Nat.min 8 (length (contactPoints o1 o2)) /\
     forall i : nat, (i < length new)%nat ->
       nth_error new i
       = option_map (Collision.contactOf (dGeomGetBody o1) (dGeomGetBody o2))
           (nth_error (contactPoints o1 o2) i)) /\
    Forall
      (fun cj =>
         let sp := Collision.surface (Collision.cjContact cj) in
         sp = Collision.surfaceParams /\
         Collision.mu sp = 1000 /\
         Collision.slip1 sp = 1 # 10000 /\
         Collision.slip2 sp = 1 # 1000 /\
         Collision.soft_erp sp = 5 # 100 /\
         Collision.soft_cfm sp = 3 # 10000 /\
         Collision.bounce sp = 1 # 10 /\
         Collision.bounce_vel sp = 1 # 10 /\
         Z.land (Collision.mode sp) Collision.dContactBounce = 0%Z)
      new.
Proof.
  rewrite nearCallback_eq.
  destruct (Collision.connectedByJoint w (dGeomGetBody o1) (dGeomGetBody o2))
    eqn:Hconn.
  { exists []. rewrite app_nil_r. cbn [orb].
    split; [destruct w; reflexivity|].
    split; [cbn; lia|]. split; [reflexivity|].
    split; [discriminate|constructor]. }
  destruct (checkColliding o1) eqn:Hc1.
  2:{ exists []. rewrite app_nil_r. cbn [orb negb].
      split; [destruct w; reflexivity|].
      split; [cbn; lia|]. split; [reflexivity|].
      split; [discriminate|constructor]. }
  destruct (checkColliding o2) eqn:Hc2.
  2:{ exists []. rewrite app_nil_r. cbn [orb negb].
      split; [destruct w; reflexivity|].
      split; [cbn; lia|]. split; [reflexivity|].
      split; [discriminate|constructor]. }
  cbn [orb negb]. eexists. split; [reflexivity|].
  assert (Hlen : length
                   (map (Collision.contactOf (dGeomGetBody o1)
                           (dGeomGetBody o2))
                      (firstn Collision.MAX_CONTACTS (contactPoints o1 o2)))
                 = Nat.min 8 (length (contactPoints o1 o2))).
  { rewrite length_map. apply length_firstn. }
  split; [rewrite Hlen; apply Nat.le_min_l|].
  split.
  { intros [H|[H|H]]; discriminate H. }
  split.
  { intros _ _ _ _. split; [reflexivity|]. split; [exact Hlen|].
    intros i Hi. rewrite Hlen in Hi.
    rewrite nth_error_map. f_equal.
    rewrite nth_error_firstn. unfold Collision.MAX_CONTACTS.
    destruct (Nat.ltb_spec i 8) as [_|H8]; [reflexivity|lia]. }
  apply Forall_forall. intros cj Hin. apply in_map_iff in Hin.
  destruct Hin as (p & <- & _). cbn. repeat split; reflexivity.
Qed.

(** C7 on bodies 2 and 3 of the sample scene, which no joint links: of the
    ten contact points of the pair the first eight become contact joints. *)
Lemma at_most_eight_contacts_witness :
  Collision.connectedByJoint Scene.hinged (Scene.bodyOf 2) (Scene.bodyOf 3)
    = false /\
  Scene.collidable 2 = true /\ Scene.collidable 3 = true /\
  Collision.separateBodies (Scene.bodyOf 2) (Scene.bodyOf 3) /\
  length (Scene.points 2 3) = 10%nat /\
  Collision.nearCallback Scene.bodyOf Scene.collidable Scene.points
    2%nat 3%nat Scene.hinged
  = Collision.mkWorld (Collision.joints Scene.hinged)
      (map (Collision.contactOf (Some 2%nat) (Some 3%nat)) (seq 0 8)).
Proof.
  assert (Hconn : Collision.connectedByJoint Scene.hinged (Scene.bodyOf 2)
                    (Scene.bodyOf 3) = false) by reflexivity.
  assert (Hc2 : Scene.collidable 2 = true) by reflexivity.
  assert (Hc3 : Scene.collidable 3 = true) by reflexivity.
  assert (Hsep : Collision.separateBodies (Scene.bodyOf 2) (Scene.bodyOf 3)).
  { right. right. discriminate. }
  split; [exact Hconn|]. split; [exact Hc2|]. split; [exact Hc3|].
  split; [exact Hsep|]. split; [reflexivity|].
  destruct (at_most_eight_contacts nat nat Scene.bodyOf Scene.collidable
              Scene.points 2%nat 3%nat Scene.hinged)
    as (new & Heq & _ & _ & Hsurv & _).
  destruct (Hsurv Hconn Hc2 Hc3 Hsep) as (Hnew & _).
  rewrite Heq, Hnew. reflexivity.
Defined.

(** The mode of every contact has no [dContactBounce] bit: ODE reads
    [bounce] and [bounce_vel] only under that flag. *)
Remark surface_mode_without_bounce :
  Collision.mode Collision.surfaceParams = 0x7318%Z /\
  Z.land (Collision.mode Collision.surfaceParams) Collision.dContactBounce
    = 0%Z.
Proof. split; reflexivity. Qed.

(** C9.  When one of the two geometries has no body, the test for a
    linking joint is not made, whatever joints the world has: a collidable
    pair gets a contact joint for each of its first 8 contact points,
    attached to the bodies of the two geometries, one of which is the null
    body; and the contact group after the callback does not depend on the
    joints of the world. *)
Theorem static_pair_ignores_joints
  (dGeomID dContactGeom : Type)
  (dGeomGetBody : dGeomID -> Collision.dBodyID)
  (checkColliding : dGeomID -> bool)
  (contactPoints : dGeomID -> dGeomID -> list dContactGeom)
  (o1 o2 : dGeomID) (w : Collision.World dContactGeom) :
  dGeomGetBody o1 = None \/ dGeomGetBody o2 = None ->
  Collision.connectedByJoint w (dGeomGetBody o1) (dGeomGetBody o2) = false /\
  (checkColliding o1 = true -> checkColliding o2 = true ->
   Collision.nearCallback dGeomGetBody checkColliding contactPoints o1 o2 w
     = Collision.mkWorld (Collision.joints w)
         (Collision.contactgroup w ++
          map (Collision.contactOf (dGeomGetBody o1) (dGeomGetBody o2))
              (firstn 8 (contactPoints o1 o2)))) /\
  (forall js : list Collision.Joint,
     Collision.contactgroup
       (Collision.nearCallback dGeomGetBody checkColliding contactPoints o1 o2
          (Collision.mkWorld js (Collision.contactgroup w)))
     = Collision.contactgroup
         (Collision.nearCallback dGeomGetBody checkColliding contactPoints
            o1 o2 w)).
Proof.
  intros Hnull.
  assert (Hconn : forall w' : Collision.World dContactGeom,
             Collision.connectedByJoint w' (dGeomGetBody o1) (dGeomGetBody o2)
             = false).
  { intros w'. destruct Hnull as [H|H]; rewrite H.
    - reflexivity.
    - destruct (dGeomGetBody o1); reflexivity. }
  split; [apply Hconn|]. split.
  - intros H1 H2. rewrite nearCallback_eq, Hconn, H1, H2. reflexivity.
  - intros js. rewrite !nearCallback_eq, !Hconn. cbn [orb].
    destruct (negb (checkColliding o1) || negb (checkColliding o2));
      reflexivity.
Qed.

(** C9 on the ground (geometry 0) against the hinged body 1. *)
Lemma static_pair_ignores_joints_witness :
  Scene.bodyOf 0%nat = None /\
  Collision.nearCallback Scene.bodyOf Scene.collidable Scene.points
    0%nat 1%nat Scene.hinged
  = Collision.mkWorld (Collision.joints Scene.hinged)
      (map (Collision.contactOf None (Some 1%nat)) (seq 0 8)).
Proof.
  split; [reflexivity|].
  exact (proj1 (proj2 (static_pair_ignores_joints nat nat Scene.bodyOf
                         Scene.collidable Scene.points 0%nat 1%nat
                         Scene.hinged (or_introl eq_refl)))
           eq_refl eq_refl).
Defined.

(** ** The per-frame debris pass *)

Section DebrisFacts.

Import Debris.

Variable randUnit : nat -> Q.
Variable dRandUnit : nat -> Q.

Lemma nth_error_setNth (l : list Body) (i : nat) (b x : Body) :
  nth_error l i = Some x -> nth_error (setNth i b l) i = Some b.
Proof.
  revert i. induction l as [|y l IH]; intros [|i] H; cbn in *;
    try discriminate; [reflexivity|apply IH; exact H].
Qed.

Lemma nth_error_setNth_other (l : list Body) (i j : nat) (b : Body) :
  i <> j -> nth_error (setNth i b l) j = nth_error l j.
Proof.
  revert i j. induction l as [|y l IH]; intros [|i] [|j] H; cbn;
    try reflexivity; [contradiction|apply IH; lia].
Qed.

(** The ramp: with the same positive mass a later index gets a larger
    force scale. *)
Lemma forceScale_ramp (i j numObj : nat) (m : Q) :
  (i < j)%nat -> (0 < numObj)%nat -> 0 < m ->
  forceScale i numObj m < forceScale j numObj m.
Proof.
  intros Hij Hn Hm. unfold forceScale.
  apply Qmult_lt_compat_r; [exact Hm|].
  assert (Hinv : 0 < / inject_Z (Z.of_nat numObj)).
  { apply Qinv_lt_0_compat. change 0 with (inject_Z 0).
    rewrite <- Zlt_Qlt. lia. }
  assert (Hlt : inject_Z (Z.of_nat i) / inject_Z (Z.of_nat numObj)
                < inject_Z (Z.of_nat j) / inject_Z (Z.of_nat numObj)).
  { unfold Qdiv. apply Qmult_lt_compat_r; [exact Hinv|].
    rewrite <- Zlt_Qlt. lia. }
  lra.
Qed.

(** The impulse block scales the vertical force by the body's mass and by
    the ramp over its index. *)
Lemma impulse_force (i : nat) (s : Pass) (bi : Body) :
  nth_error (obj s) i = Some bi ->
  exists b',
    nth_error (obj (impulse randUnit i s)) i = Some b' /\
    enabled b' = true /\
    c1 (force b') =
      c1 (force bi) + forceScale i (length (obj s)) (mass bi) * 10.
Proof.
  intros Hi. unfold impulse. rewrite Hi. cbn.
  eexists. split; [apply (nth_error_setNth _ _ _ bi Hi)|].
  split; reflexivity.
Qed.

(** One iteration for a body above the floor: the impulse block runs
    under the guard that reads the velocity of [obj[0]]. *)
Lemma debrisBody_above_floor (s : Pass) (i : nat) (b0 bi : Body) :
  nth_error (obj s) 0 = Some b0 ->
  nth_error (obj s) i = Some bi ->
  Qltb (c1 (position bi)) (-10) = false ->
  debrisBody randUnit dRandUnit true s i =
    if Qltb (c1 (linearVel b0)) 10 && Qltb (c1 (position bi)) 10
    then impulse randUnit i s else s.
Proof.
  intros H0 Hi Hfloor. unfold debrisBody, impulseGuard.
  rewrite Hi, H0, Hfloor. reflexivity.
Qed.

End DebrisFacts.

(** C4, the code at two inputs.  With the impulse key held, [resting]
    behind a [rising] first body gets no force although its own vertical
    velocity and height are below 10; and [rising] behind a [resting] first
    body gets the force (80 upwards for index 1 of 2 and mass 1) although
    its own vertical velocity is 20: the guard reads the velocity of the
    first body. *)
Theorem impulse_guard_reads_first_body :
  (Debris.ownGuard Scene.resting = true /\
   Debris.obj
     (Debris.debrisPass Scene.half Scene.half true
        (Debris.mkPass [Scene.rising; Scene.resting] Scene.fresh))
   = [Scene.rising; Scene.resting]) /\
  (Debris.ownGuard Scene.rising = false /\
   exists b : Debris.Body,
     nth_error
       (Debris.obj
          (Debris.debrisPass Scene.half Scene.half true
             (Debris.mkPass [Scene.resting; Scene.rising] Scene.fresh)))
       1 = Some b /\
     Debris.enabled b = true /\
     Debris.c1 (Debris.force b) == 80).
Proof.
  split.
  - split; vm_compute; reflexivity.
  - split; [vm_compute; reflexivity|].
    eexists. split; [vm_compute; reflexivity|].
    split; reflexivity.
Qed.

(** ** The roll of the chassis *)

Section RollFacts.

Import Roll.

Local Open Scope R_scope.

Lemma atan2_pos (y x : R) : 0 < x -> atan2 y x = atan (y / x).
Proof.
  intros H. unfold atan2. destruct (Rlt_dec 0 x); [reflexivity|contradiction].
Qed.

Lemma atan2_zero_neg (x : R) : x < 0 -> atan2 0 x = PI.
Proof.
  intros H. unfold atan2.
  destruct (Rlt_dec 0 x) as [H0|_]; [Lra.lra|].
  destruct (Rlt_dec x 0) as [_|H0]; [|contradiction].
  destruct (Rle_dec 0 0) as [_|H0]; [|Lra.lra].
  unfold Rdiv. rewrite Rmult_0_l, atan_0. Lra.lra.
Qed.

Lemma atan2_zero_pos (x : R) : 0 < x -> atan2 0 x = 0.
Proof.
  intros H. rewrite atan2_pos by exact H.
  unfold Rdiv. rewrite Rmult_0_l. apply atan_0.
Qed.

(** A rotation about the forward axis leaves [z0] at 0 and turns [z1]
    into the cosine of the angle. *)
Lemma aboutForward_z (theta : R) :
  z0 (aboutForward theta) = 0 /\ z1 (aboutForward theta) = cos theta.
Proof.
  unfold z0, z1, aboutForward, aboutAxis. cbn [q0 q1 q2 q3]. split.
  - ring.
  - assert (Hcos : cos theta = 1 - 2 * sin (theta / 2) * sin (theta / 2)).
    { replace (cos theta) with (cos (2 * (theta / 2)))
        by (f_equal; Lra.lra).
      apply cos_2a_sin. }
    rewrite Hcos. ring.
Qed.

End RollFacts.

(** C8.  The roll is [atan2 (2 (q0 q3 + q1 q2), 1 - 2 (q1^2 + q3^2))] of
    the orientation quaternion; the identity orientation has roll 0, and
    the half turn about the forward axis has a roll of absolute value
    [PI].  (Over the real numbers.) *)
Theorem roll_of_orientation :
  (forall q : Roll.Quaternion,
     Roll.roll q =
       Roll.atan2
         (2 * (Roll.q0 q * Roll.q3 q + Roll.q1 q * Roll.q2 q))
         (1 - 2 * ((Roll.q1 q) ^ 2 + (Roll.q3 q) ^ 2)))%R /\
  Roll.roll Roll.identity = 0%R /\
  Rabs (Roll.roll (Roll.aboutForward PI)) = PI.
Proof.
  split; [|split].
  - intros q. unfold Roll.roll, Roll.z0, Roll.z1. f_equal. ring.
  - unfold Roll.roll, Roll.z0, Roll.z1, Roll.identity. cbn.
    replace (2 * (1 * 0 + 0 * 0))%R with 0%R by ring.
    replace (1 - 2 * (0 * 0 + 0 * 0))%R with 1%R by ring.
    apply atan2_zero_pos. Lra.lra.
  - unfold Roll.roll. destruct (aboutForward_z PI) as [-> ->].
    rewrite cos_PI, atan2_zero_neg by Lra.lra.
    apply Rabs_right. pose proof PI_RGT_0. Lra.lra.
Qed.

(** A rotation about the forward axis by less than a quarter turn has
    roll 0, by more than a quarter turn (up to three quarters) roll [PI]:
    the value follows the sign of the cosine of the angle. *)
Lemma roll_about_forward (theta : R) :
  ((0 < cos theta -> Roll.roll (Roll.aboutForward theta) = 0) /\
   (cos theta < 0 -> Roll.roll (Roll.aboutForward theta) = PI))%R.
Proof.
  unfold Roll.roll. destruct (aboutForward_z theta) as [-> ->].
  split; intros H; [apply atan2_zero_pos|apply atan2_zero_neg]; exact H.
Qed.

(** The half turn about the z axis has a roll of [PI] as well, the half
    turn about the vertical y axis has roll 0. *)
Lemma roll_half_turns :
  Roll.roll (Roll.aboutAxis 0 0 1 PI) = PI /\
  Roll.roll (Roll.aboutAxis 0 1 0 PI) = 0%R.
Proof.
  unfold Roll.roll, Roll.z0, Roll.z1, Roll.aboutAxis. cbn [Roll.q0 Roll.q1 Roll.q2 Roll.q3].
  rewrite cos_PI2, sin_PI2. split.
  - replace (2 * (0 * (1 * 1) + 0 * 1 * (0 * 1)))%R with 0%R by ring.
    replace (1 - 2 * (0 * 1 * (0 * 1) + 1 * 1 * (1 * 1)))%R with (-1)%R by ring.
    apply atan2_zero_neg. Lra.lra.
  - replace (2 * (0 * (0 * 1) + 0 * 1 * (1 * 1)))%R with 0%R by ring.
    replace (1 - 2 * (0 * 1 * (0 * 1) + 0 * 1 * (0 * 1)))%R with 1%R by ring.
    apply atan2_zero_pos. Lra.lra.
Qed.

(** * Part III: further properties of the frame loop *)

(** ** The fixed-step driver: when the cap is hit and how many ticks run *)

Section DriverExact.

Import Driver.

Variable World : Type.
Variable tick : World -> World.

Local Abbreviation stepLoop := (Driver.stepLoop World tick).
Local Abbreviation driverFrame := (Driver.driverFrame World tick).
Local Abbreviation runFrames := (Driver.runFrames World tick).

(** The end state of the loop, told apart by the cap: either the loop did
    not run, or it ran and left a positive rest, or it was cut. *)
Lemma stepLoop_cases (fuel : nat) (s r : LoopState World) :
  (0 <= pSteps s <= maxPsteps)%Z ->
  stepLoop fuel s = Some r ->
  (capHit r = false ->
     (r = s /\ frameTime s <= physSlice) \/
     ((pSteps s < pSteps r)%Z /\ 0 < frameTime r)) /\
  (capHit r = true ->
     inject_Z (maxPsteps + 1 - pSteps s) * physSlice < frameTime s).
Proof.
  revert s. induction fuel as [|fuel IH]; intros s Hp Hrun.
  - cbn [Driver.stepLoop] in Hrun.
    destruct (Qltb physSlice (frameTime s)) eqn:Hcmp; [discriminate|].
    inversion Hrun; subst r. apply Qltb_false_iff in Hcmp. split.
    + intros _. left. split; [reflexivity|exact Hcmp].
    + intros Hc. unfold capHit in Hc. apply Z.gtb_lt in Hc. lia.
  - cbn [Driver.stepLoop] in Hrun.
    destruct (Qltb physSlice (frameTime s)) eqn:Hcmp.
    + apply Qltb_true_iff in Hcmp.
      destruct (pSteps s + 1 >? maxPsteps)%Z eqn:Hcap.
      * inversion Hrun; subst r. unfold capHit. cbn [pSteps frameTime].
        rewrite Hcap. split; [discriminate|]. intros _.
        apply Z.gtb_lt in Hcap. unfold maxPsteps in *.
        replace (6 + 1 - pSteps s)%Z with 1%Z by lia.
        change (inject_Z 1) with 1. lra.
      * rewrite Z.gtb_ltb in Hcap. apply Z.ltb_ge in Hcap.
        assert (Hp' : (0 <= pSteps s + 1 <= maxPsteps)%Z) by lia.
        destruct (IH (mkLoop (frameTime s - physSlice) (pSteps s + 1)
                             (tick (world s))) Hp' Hrun)
          as [Hno Hyes].
        cbn [pSteps frameTime] in *. split.
        { intros Hc. right. destruct (Hno Hc) as [[-> Hle]|[Hlt Hpos]].
          - cbn [pSteps frameTime] in *. split; [lia|].
            unfold physSlice in *. lra.
          - split; [lia|exact Hpos]. }
        { intros Hc. specialize (Hyes Hc).
          replace (maxPsteps + 1 - pSteps s)%Z
            with ((maxPsteps + 1 - (pSteps s + 1)) + 1)%Z by lia.
          rewrite inject_Z_plus. change (inject_Z 1) with 1.
          set (k := inject_Z (maxPsteps + 1 - (pSteps s + 1))) in *.
          setoid_replace ((k + 1) * physSlice) with (k * physSlice + physSlice)
            by ring.
          lra. }
    + inversion Hrun; subst r. apply Qltb_false_iff in Hcmp. split.
      * intros _. left. split; [reflexivity|exact Hcmp].
      * intros Hc. unfold capHit in Hc. apply Z.gtb_lt in Hc. lia.
Qed.

(** The same for a whole frame. *)
Lemma driverFrame_cases (dt acc : Q) (w : World) (r : LoopState World) :
  driverFrame dt acc w = Some r ->
  (capHit r = false ->
     (r = mkLoop (acc + dt) 0 w /\ acc + dt <= physSlice) \/
     ((0 < pSteps r)%Z /\ 0 < frameTime r)) /\
  (capHit r = true -> 7 * physSlice < acc + dt).
Proof.
  intros Hr. unfold Driver.driverFrame in Hr.
  assert (Hp : (0 <= pSteps (mkLoop (acc + dt) 0 w) <= maxPsteps)%Z)
    by (cbn; unfold maxPsteps; lia).
  exact (stepLoop_cases _ _ r Hp Hr).
Qed.

End DriverExact.

(** X2.  The step cap away from its threshold of seven slices (29.17 ms of
    accumulated time).  With 29 ms or less accumulated the cap is not hit:
    at most 6 ticks run and the rest, at most one slice, stays in the
    accumulator.  With 30 ms or more the cap is hit: exactly 7 ticks run
    and the accumulator is set to 0, the rest of the time being dropped. *)
Theorem cap_hit_on_overload
  (World : Type) (tick : World -> World) (dt acc : Q) (w : World) :
  exists r,
    Driver.driverFrame World tick dt acc w = Some r /\
    (acc + dt <= 29 # 1000 ->
       Driver.capHit r = false /\ (Driver.pSteps r <= 6)%Z /\
       Driver.frameTime r <= Driver.physSlice /\
       (0 <= acc + dt -> 0 <= Driver.frameTime r)) /\
    (30 # 1000 <= acc + dt ->
       Driver.capHit r = true /\ Driver.pSteps r = 7%Z /\
       Driver.frameTime r = 0 /\
       Driver.world r = Nat.iter 7 tick w).
Proof.
  destruct (driverFrame_spec World tick dt acc w)
    as (r & Hr & Hps & Htk & Hub & Hlb & Hcap & Hcons).
  exists r. split; [exact Hr|].
  destruct (driverFrame_cases World tick dt acc w r Hr) as [_ Hyes].
  unfold Driver.maxPsteps in *.
  split.
  - intros HT.
    assert (Hc : Driver.capHit r = false).
    { destruct (Driver.capHit r) eqn:Hc; [|reflexivity].
      specialize (Hyes eq_refl). unfold Driver.physSlice in Hyes. lra. }
    split; [exact Hc|]. split.
    + unfold Driver.capHit in Hc. rewrite Z.gtb_ltb in Hc.
      apply Z.ltb_ge in Hc. exact Hc.
    + split; [exact Hub|exact Hlb].
  - intros HT.
    assert (Hc : Driver.capHit r = true).
    { destruct (Driver.capHit r) eqn:Hc; [reflexivity|exfalso].
      specialize (Hcons eq_refl).
      unfold Driver.capHit in Hc. rewrite Z.gtb_ltb in Hc.
      apply Z.ltb_ge in Hc. unfold Driver.maxPsteps in Hc.
      assert (Hn : inject_Z (Driver.pSteps r) <= inject_Z 6)
        by (rewrite <- Zle_Qle; exact Hc).
      change (inject_Z 6) with 6 in Hn. unfold Driver.physSlice in *. lra. }
    assert (H7 : Driver.pSteps r = 7%Z).
    { unfold Driver.capHit in Hc. apply Z.gtb_lt in Hc.
      unfold Driver.maxPsteps in Hc. lia. }
    split; [exact Hc|]. split; [exact H7|]. split; [exact (Hcap Hc)|].
    unfold Driver.ticked in Htk. rewrite H7 in Htk. exact Htk.
Qed.

(** X2 on a frame of a tenth of a second and on a frame of 1/60 s. *)
Lemma cap_hit_on_overload_witness :
  (exists r,
     Driver.driverFrame nat S (1 # 10) 0 0%nat = Some r /\
     30 # 1000 <= 0 + (1 # 10) /\
     Driver.capHit r = true /\ Driver.pSteps r = 7%Z /\
     Driver.frameTime r = 0 /\ Driver.world r = 7%nat) /\
  (exists r,
     Driver.driverFrame nat S (1 # 60) 0 0%nat = Some r /\
     0 + (1 # 60) <= 29 # 1000 /\
     Driver.capHit r = false /\ (Driver.pSteps r <= 6)%Z).
Proof.
  split.
  - destruct (cap_hit_on_overload nat S (1 # 10) 0 0%nat)
      as (r & Hr & _ & Hhit).
    assert (HT : 30 # 1000 <= 0 + (1 # 10)) by discriminate.
    destruct (Hhit HT) as (Hc & H7 & H0 & Hw).
    exists r. split; [exact Hr|]. split; [exact HT|]. split; [exact Hc|].
    split; [exact H7|]. split; [exact H0|exact Hw].
  - destruct (cap_hit_on_overload nat S (1 # 60) 0 0%nat)
      as (r & Hr & Hno & _).
    assert (HT : 0 + (1 # 60) <= 29 # 1000) by discriminate.
    destruct (Hno HT) as (Hc & H6 & _).
    exists r. split; [exact Hr|]. split; [exact HT|]. split; assumption.
Defined.

Section DriverRuns.

Import Driver.

Variable World : Type.
Variable tick : World -> World.

(** The world after any run of frames is the first world after some
    number of ticks. *)
Lemma runFrames_ticks (dts : list Q) (s : LoopState World) :
  exists (r : LoopState World) (n : nat),
    Driver.runFrames World tick dts s = Some r /\
    world r = Nat.iter n tick (world s).
Proof.
  revert s. induction dts as [|dt rest IH]; intros s.
  - exists s, 0%nat. split; reflexivity.
  - cbn [Driver.runFrames].
    destruct (driverFrame_spec World tick dt (frameTime s) (world s))
      as (r1 & Hr1 & _ & Htk & _).
    rewrite Hr1. destruct (IH r1) as (r & n & Hr & Hw).
    exists r, (n + Z.to_nat (pSteps r1))%nat. split; [exact Hr|].
    rewrite Hw, Htk, Nat.iter_add. reflexivity.
Qed.

End DriverRuns.

(** ** The collision pass and the tick *)

Section PassFacts.

Import Collision Physics.

Variable dGeomID : Type.
Variable dContactGeom : Type.
Variable Bodies : Type.
Variable dGeomGetBody : dGeomID -> dBodyID.
Variable checkColliding : dGeomID -> bool.
Variable contactPoints : Bodies -> dGeomID -> dGeomID -> list dContactGeom.
Variable candidatePairs : Bodies -> list (dGeomID * dGeomID).
Variable dWorldQuickStep : Bodies -> World dContactGeom -> Bodies.

Local Abbreviation World := (Collision.World dContactGeom).
Local Abbreviation collidePairs :=
  (Physics.collidePairs dGeomGetBody checkColliding contactPoints).
Local Abbreviation physTick :=
  (Physics.physTick dGeomGetBody checkColliding contactPoints candidatePairs
     dWorldQuickStep).
Local Abbreviation Sim := (Physics.Sim dContactGeom Bodies).

(** The contact joints of the group play no part in the joint test: it
    reads the joints of the vehicle only. *)
Lemma connected_ignores_contacts
  (js : list Joint) (cg : list (ContactJoint dContactGeom)) (x y : nat) :
  dAreConnectedExcluding (mkWorld js cg) x y dJointTypeContact
  = dAreConnectedExcluding (@mkWorld dContactGeom js []) x y
      dJointTypeContact.
Proof.
  unfold dAreConnectedExcluding, allJoints. cbn [joints contactgroup map].
  rewrite app_nil_r, existsb_app.
  match goal with |- (?a || ?b)%bool = _ => assert (Hb : b = false) end.
  { induction cg as [|c cg IH]; [reflexivity|].
    cbn [map existsb jtype]. rewrite IH. reflexivity. }
  rewrite Hb. apply orb_false_r.
Qed.

Lemma connectedByJoint_ignores_contacts
  (js : list Joint) (cg : list (ContactJoint dContactGeom)) (b1 b2 : dBodyID) :
  connectedByJoint (mkWorld js cg) b1 b2
  = connectedByJoint (@mkWorld dContactGeom js []) b1 b2.
Proof.
  destruct b1 as [x|], b2 as [y|]; try reflexivity.
  apply connected_ignores_contacts.
Qed.

Lemma nearCallback_allowed (b : Bodies) (o1 o2 : dGeomID) (w : World) :
  exists new : list (ContactJoint dContactGeom),
    nearCallback dGeomGetBody checkColliding (contactPoints b) o1 o2 w
      = mkWorld (joints w) (contactgroup w ++ new) /\
    (length new <= MAX_CONTACTS)%nat /\
    Forall (allowed (joints w)) new.
Proof.
  rewrite nearCallback_eq.
  destruct (connectedByJoint w (dGeomGetBody o1) (dGeomGetBody o2))
    eqn:Hconn.
  - exists []. cbn [orb]. rewrite app_nil_r.
    split; [destruct w; reflexivity|]. split; [cbn; lia|constructor].
  - cbn [orb].
    destruct (negb (checkColliding o1) || negb (checkColliding o2)).
    + exists []. rewrite app_nil_r.
      split; [destruct w; reflexivity|]. split; [cbn; lia|constructor].
    + eexists. split; [reflexivity|].
      split; [rewrite length_map; apply firstn_le_length|].
      apply Forall_forall. intros cj Hin. apply in_map_iff in Hin.
      destruct Hin as (p & <- & _). split; [reflexivity|].
      intros (j & x & y & H1 & H2 & Hin & Hl). cbn in H1, H2.
      rewrite H1, H2 in Hconn. cbn [connectedByJoint] in Hconn.
      rewrite (linked_connected _ w j x y Hin Hl) in Hconn. discriminate.
Qed.

(** A pass leaves the joints of the vehicle as they are. *)
Lemma collidePairs_joints
  (b : Bodies) (pairs : list (dGeomID * dGeomID)) (w : World) :
  joints (collidePairs b pairs w) = joints w.
Proof.
  revert w. induction pairs as [|p pairs IH]; intros w; [reflexivity|].
  cbn [Physics.collidePairs fold_left].
  destruct (nearCallback_allowed b (fst p) (snd p) w) as (new1 & H1 & _).
  rewrite H1.
  change (joints (collidePairs b pairs
                    (mkWorld (joints w) (contactgroup w ++ new1)))
          = joints w).
  rewrite IH. reflexivity.
Qed.

(** A tick leaves the joints of the vehicle and empties the group. *)
Lemma physTick_world (s : Sim) :
  joints (ode (physTick s)) = joints (ode s) /\
  contactgroup (ode (physTick s)) = [].
Proof.
  unfold Physics.physTick, Physics.dSpaceCollide.
  cbn [ode Physics.dJointGroupEmpty joints contactgroup].
  split; [apply collidePairs_joints|reflexivity].
Qed.

Lemma iter_physTick_world (n : nat) (s : Sim) :
  contactgroup (ode s) = [] ->
  joints (ode (Nat.iter n physTick s)) = joints (ode s) /\
  contactgroup (ode (Nat.iter n physTick s)) = [].
Proof.
  intros H0. induction n as [|n [IHj IHc]].
  - split; [reflexivity|exact H0].
  - rewrite Nat.iter_succ.
    destruct (physTick_world (Nat.iter n physTick s)) as [Hj Hc].
    split; [rewrite Hj; exact IHj|exact Hc].
Qed.

End PassFacts.

(** X4.  A collision pass over any list of candidate pairs leaves the
    joints of the vehicle as they are and only appends to the contact
    group: at most 8 contact joints per pair, each with the surface
    parameters of the callback, and none between two bodies that a joint
    of the vehicle links. *)
Theorem collision_pass_only_adds_allowed_contacts
  (dGeomID dContactGeom Bodies : Type)
  (dGeomGetBody : dGeomID -> Collision.dBodyID)
  (checkColliding : dGeomID -> bool)
  (contactPoints : Bodies -> dGeomID -> dGeomID -> list dContactGeom)
  (b : Bodies) (pairs : list (dGeomID * dGeomID))
  (w : Collision.World dContactGeom) :
  exists new : list (Collision.ContactJoint dContactGeom),
    Physics.collidePairs dGeomGetBody checkColliding contactPoints b pairs w
      = Collision.mkWorld (Collision.joints w)
          (Collision.contactgroup w ++ new) /\
    (length new <= 8 * length pairs)%nat /\
    Forall
      (fun cj =>
         Collision.surface (Collision.cjContact cj) = Collision.surfaceParams /\
         ~ (exists (j : Collision.Joint) (x y : nat),
               Collision.cjBody1 cj = Some x /\
               Collision.cjBody2 cj = Some y /\
               In j (Collision.joints w) /\ Collision.linksBodies j x y))
      new.
Proof.
  revert w. induction pairs as [|p pairs IH]; intros w.
  - exists []. rewrite app_nil_r. split; [destruct w; reflexivity|].
    split; [cbn; lia|constructor].
  - cbn [Physics.collidePairs fold_left].
    destruct (nearCallback_allowed dGeomID dContactGeom Bodies dGeomGetBody
                checkColliding contactPoints b (fst p) (snd p) w)
      as (new1 & H1 & Hlen1 & Hall1).
    rewrite H1.
    destruct (IH (Collision.mkWorld (Collision.joints w)
                    (Collision.contactgroup w ++ new1)))
      as (new2 & H2 & Hlen2 & Hall2).
    unfold Physics.collidePairs in H2. rewrite H2.
    cbn [Collision.joints Collision.contactgroup] in *.
    exists (new1 ++ new2). rewrite app_assoc. split; [reflexivity|].
    split.
    + rewrite length_app. cbn [length]. unfold Collision.MAX_CONTACTS in *.
      lia.
    + apply Forall_app. split; assumption.
Qed.

(** X5.  The contact joints already in the group never change the answer
    of the joint test: the callback filters a pair on the joints of the
    vehicle alone, whatever the earlier pairs of the pass have added. *)
Theorem joint_test_ignores_contact_group
  (dContactGeom : Type) (js : list Collision.Joint)
  (cg cg' : list (Collision.ContactJoint dContactGeom))
  (b1 b2 : Collision.dBodyID) :
  Collision.connectedByJoint (Collision.mkWorld js cg) b1 b2
  = Collision.connectedByJoint (Collision.mkWorld js cg') b1 b2.
Proof.
  rewrite (connectedByJoint_ignores_contacts dContactGeom js cg).
  rewrite (connectedByJoint_ignores_contacts dContactGeom js cg').
  reflexivity.
Qed.

(** X6.  Driven by the fixed-step loop over any run of frames, from a
    world whose contact group is empty, the physics tick leaves the joints
    of the vehicle unchanged and the contact group empty at the end of
    every frame: no contact joint outlives its tick. *)
Theorem contacts_do_not_outlive_the_tick
  (dGeomID dContactGeom Bodies : Type)
  (dGeomGetBody : dGeomID -> Collision.dBodyID)
  (checkColliding : dGeomID -> bool)
  (contactPoints : Bodies -> dGeomID -> dGeomID -> list dContactGeom)
  (candidatePairs : Bodies -> list (dGeomID * dGeomID))
  (dWorldQuickStep : Bodies -> Collision.World dContactGeom -> Bodies)
  (dts : list Q) (s : Physics.Sim dContactGeom Bodies) :
  Collision.contactgroup (Physics.ode s) = [] ->
  exists r,
    Driver.runFrames _
      (Physics.physTick dGeomGetBody checkColliding contactPoints
         candidatePairs dWorldQuickStep)
      dts (Driver.initial s) = Some r /\
    Collision.joints (Physics.ode (Driver.world r))
      = Collision.joints (Physics.ode s) /\
    Collision.contactgroup (Physics.ode (Driver.world r)) = [].
Proof.
  intros H0.
  destruct (runFrames_ticks _
              (Physics.physTick dGeomGetBody checkColliding contactPoints
                 candidatePairs dWorldQuickStep) dts (Driver.initial s))
    as (r & n & Hr & Hw).
  exists r. split; [exact Hr|]. rewrite Hw. cbn [Driver.initial Driver.world].
  apply iter_physTick_world. exact H0.
Qed.

(** X6 on the sample scene, over one frame of 1/60 s. *)
Lemma contacts_do_not_outlive_the_tick_witness :
  Collision.contactgroup (Physics.ode Scene.atRest) = [] /\
  exists r,
    Driver.runFrames _
      (Physics.physTick Scene.bodyOf Scene.collidable Scene.pointsAt
         Scene.pairsOf Scene.stepBodies)
      [1 # 60] (Driver.initial Scene.atRest) = Some r /\
    Collision.joints (Physics.ode (Driver.world r))
      = Collision.joints (Physics.ode Scene.atRest) /\
    Collision.contactgroup (Physics.ode (Driver.world r)) = [].
Proof.
  split; [reflexivity|].
  exact (contacts_do_not_outlive_the_tick nat nat nat Scene.bodyOf
           Scene.collidable Scene.pointsAt Scene.pairsOf Scene.stepBodies
           [1 # 60] Scene.atRest eq_refl).
Defined.

(** ** The flip-recovery counter over whole runs *)

Section FlipRuns.

Import FlipRecovery.

Lemma flipRun_trace_length (rolls : list Q) (c : Z) :
  length (snd (flipRun rolls c)) = length rolls.
Proof.
  revert c. induction rolls as [|roll rest IH]; intros c; [reflexivity|].
  cbn [flipRun]. unfold flipFrame.
  specialize (IH (countFlipped roll c)).
  destruct (flipRun rest (countFlipped roll c)) as [c' us].
  cbn [snd length] in *. rewrite IH. reflexivity.
Qed.

(** A run either stays over the limit throughout, or has a last frame
    inside the limit, followed by frames over the limit. *)
Lemma rolls_split (rolls : list Q) :
  Forall (fun roll => overLimit roll = true) rolls \/
  exists (pre : list Q) (x : Q) (suf : list Q),
    rolls = pre ++ x :: suf /\ overLimit x = false /\
    Forall (fun roll => overLimit roll = true) suf.
Proof.
  induction rolls as [|a rest IH].
  - left. constructor.
  - destruct IH as [Hall|(pre & x & suf & -> & Hx & Hsuf)].
    + destruct (overLimit a) eqn:Ha.
      * left. constructor; assumption.
      * right. exists [], a, rest. repeat split; assumption.
    + right. exists (a :: pre), x, suf. repeat split; assumption.
Qed.

(** The trace of a streak: no call in its first 100 frames, a call in
    every later one. *)
Lemma overTrace_zero (n : nat) :
  overTrace 0 n = repeat false (Nat.min n 100) ++ repeat true (n - 100).
Proof.
  unfold overTrace.
  replace n with (Nat.min n 100 + (n - 100))%nat at 1 by lia.
  rewrite seq_app, map_app. f_equal.
  - rewrite <- (length_seq (Nat.min n 100) 1) at 2.
    rewrite <- map_const. apply map_ext_in. intros k Hk.
    apply in_seq in Hk. unfold wantsUnflip. rewrite Z.gtb_ltb.
    apply Z.ltb_ge. lia.
  - rewrite <- (length_seq (n - 100) (1 + Nat.min n 100)) at 2.
    rewrite <- map_const. apply map_ext_in. intros k Hk.
    apply in_seq in Hk. unfold wantsUnflip. rewrite Z.gtb_ltb.
    apply Z.ltb_lt. lia.
Qed.

(** After a frame inside the limit, the counter and the calls depend on
    the frames that follow only. *)
Lemma flipRun_after_inbound (pre : list Q) (x : Q) (suf : list Q) (c : Z) :
  overLimit x = false ->
  Forall (fun roll => overLimit roll = true) suf ->
  (Z.of_nat (length suf) < 2 ^ 31)%Z ->
  flipRun (pre ++ x :: suf) c =
    (Z.of_nat (length suf),
     snd (flipRun pre c) ++ false :: overTrace 0 (length suf)).
Proof.
  intros Hx Hsuf Hlen. rewrite flipRun_app.
  destruct (flipRun pre c) as [c1 t1]. cbn [snd].
  cbn [flipRun]. unfold flipFrame.
  rewrite countFlipped_within by exact Hx.
  rewrite flipRun_over by (assumption || lia).
  reflexivity.
Qed.

Lemma last_app_nonempty (l1 l2 : list bool) (d : bool) :
  l2 <> [] -> last (l1 ++ l2) d = last l2 d.
Proof.
  intros Hl2. induction l1 as [|a l1 IH].
  - reflexivity.
  - cbn [app]. rewrite <- IH. cbn [last].
    destruct (l1 ++ l2) eqn:E; [|reflexivity].
    apply app_eq_nil in E. destruct E. contradiction.
Qed.

(** A streak ends with a call only from its 101st frame on. *)
Lemma overTrace_last (n : nat) :
  last (overTrace 0 n) false = true -> (101 <= n)%nat.
Proof.
  intros Hn. rewrite overTrace_zero in Hn.
  destruct (Nat.le_gt_cases 101 n) as [H|H]; [exact H|exfalso].
  replace (n - 100)%nat with 0%nat in Hn by lia.
  cbn [repeat] in Hn. rewrite app_nil_r in Hn.
  destruct (Nat.min n 100) as [|m]; [discriminate|].
  replace (S m) with (m + 1)%nat in Hn by lia.
  rewrite repeat_app in Hn. cbn [repeat] in Hn.
  rewrite last_last in Hn. discriminate.
Qed.

End FlipRuns.

(** X7.  The counter forgets everything up to the last frame inside the
    limit: after such a frame followed by [n] frames over the limit, the
    counter is [n] whatever came before and whatever the counter was at the
    start, and among those [n] frames [unflipVehicle] is called in exactly
    the frames after the 100th. *)
Theorem counter_is_current_streak
  (pre : list Q) (x : Q) (suf : list Q) (c : Z) :
  FlipRecovery.overLimit x = false ->
  Forall (fun roll => FlipRecovery.overLimit roll = true) suf ->
  (Z.of_nat (length suf) < 2 ^ 31)%Z ->
  fst (FlipRecovery.flipRun (pre ++ x :: suf) c) = Z.of_nat (length suf) /\
  skipn (length pre) (snd (FlipRecovery.flipRun (pre ++ x :: suf) c))
  = false :: repeat false (Nat.min (length suf) 100)
          ++ repeat true (length suf - 100).
Proof.
  intros Hx Hsuf Hlen.
  rewrite (flipRun_after_inbound pre x suf c Hx Hsuf Hlen).
  cbn [fst snd]. split; [reflexivity|].
  rewrite skipn_app, flipRun_trace_length, Nat.sub_diag.
  rewrite skipn_all2 by (rewrite flipRun_trace_length; apply Nat.le_refl).
  cbn [skipn app]. rewrite overTrace_zero. reflexivity.
Qed.

(** X7 on a level frame followed by 102 frames at 2 radians, after three
    frames at 3 radians and a counter of 50. *)
Lemma counter_is_current_streak_witness :
  FlipRecovery.overLimit 0 = false /\
  Forall (fun roll => FlipRecovery.overLimit roll = true) (repeat 2 102) /\
  fst (FlipRecovery.flipRun ([3; 3; 3] ++ 0 :: repeat 2 102) 50) = 102%Z.
Proof.
  assert (H : Forall (fun roll => FlipRecovery.overLimit roll = true)
                     (repeat 2 102)).
  { apply Forall_forall. intros y Hy. apply repeat_spec in Hy. subst y.
    reflexivity. }
  split; [reflexivity|]. split; [exact H|].
  exact (proj1 (counter_is_current_streak [3; 3; 3] 0 (repeat 2 102) 50
                  eq_refl H eq_refl)).
Defined.

(** X8.  From counter 0, [unflipVehicle] is called in the last frame of a
    run only if the run has at least 101 frames and its last 101 frames
    were all over the limit. *)
Theorem recovery_needs_101_frames (rolls : list Q) :
  (Z.of_nat (length rolls) < 2 ^ 31)%Z ->
  last (snd (FlipRecovery.flipRun rolls 0)) false = true ->
  (101 <= length rolls)%nat /\
  Forall (fun roll => FlipRecovery.overLimit roll = true)
         (skipn (length rolls - 101) rolls).
Proof.
  intros Hlen Hlast.
  destruct (rolls_split rolls) as [Hall|(pre & x & suf & -> & Hx & Hsuf)].
  - rewrite flipRun_over in Hlast by (assumption || lia).
    cbn [snd] in Hlast. apply overTrace_last in Hlast.
    split; [exact Hlast|].
    rewrite <- (firstn_skipn (length rolls - 101) rolls) in Hall.
    apply Forall_app in Hall. apply Hall.
  - rewrite length_app in *. cbn [length] in *.
    rewrite flipRun_after_inbound in Hlast by (assumption || lia).
    cbn [snd] in Hlast.
    assert (Hsuf101 : (101 <= length suf)%nat).
    { apply overTrace_last.
      destruct (FlipRecovery.overTrace 0 (length suf)) as [|u us] eqn:Ht.
      - rewrite last_last in Hlast. discriminate.
      - rewrite <- Hlast.
        change (false :: u :: us) with ([false] ++ u :: us).
        rewrite app_assoc.
        symmetry. apply last_app_nonempty. discriminate. }
    split; [lia|].
    rewrite skipn_app.
    rewrite skipn_all2 by lia. cbn [app].
    replace (length pre + S (length suf) - 101 - length pre)%nat
      with (S (length suf - 101)) by lia.
    cbn [skipn].
    rewrite <- (firstn_skipn (length suf - 101) suf) in Hsuf.
    apply Forall_app in Hsuf. apply Hsuf.
Qed.

(** X8 on 101 frames at 2 radians. *)
Lemma recovery_needs_101_frames_witness :
  last (snd (FlipRecovery.flipRun (repeat 2 101) 0)) false = true /\
  (101 <= length (repeat 2 101))%nat.
Proof.
  assert (H : last (snd (FlipRecovery.flipRun (repeat 2 101) 0)) false = true)
    by (vm_compute; reflexivity).
  split; [exact H|].
  exact (proj1 (recovery_needs_101_frames (repeat 2 101) eq_refl H)).
Defined.

(** X9.  While the roll stays over the limit from the start, the
    recovery is not a single call: [unflipVehicle] is called in every
    frame from the 101st on, [n - 100] times over [n] frames. *)
Theorem recovery_repeats_while_flipped (rolls : list Q) :
  Forall (fun roll => FlipRecovery.overLimit roll = true) rolls ->
  (Z.of_nat (length rolls) < 2 ^ 31)%Z ->
  snd (FlipRecovery.flipRun rolls 0)
  = repeat false (Nat.min (length rolls) 100)
    ++ repeat true (length rolls - 100) /\
  FlipRecovery.recoveries (snd (FlipRecovery.flipRun rolls 0))
  = (length rolls - 100)%nat.
Proof.
  intros Hall Hlen.
  rewrite flipRun_over by (assumption || lia). cbn [snd].
  rewrite overTrace_zero. split; [reflexivity|].
  unfold FlipRecovery.recoveries. rewrite filter_app, length_app.
  assert (Hf : forall n : nat, filter (fun u : bool => u) (repeat false n) = []).
  { induction n as [|n IH]; [reflexivity|exact IH]. }
  assert (Ht : forall n : nat,
             filter (fun u : bool => u) (repeat true n) = repeat true n).
  { induction n as [|n IH]; [reflexivity|]. cbn. rewrite IH. reflexivity. }
  rewrite Hf, Ht, repeat_length. reflexivity.
Qed.

(** X9 on 103 frames at 2 radians: three calls. *)
Lemma recovery_repeats_while_flipped_witness :
  Forall (fun roll => FlipRecovery.overLimit roll = true) (repeat 2 103) /\
  FlipRecovery.recoveries (snd (FlipRecovery.flipRun (repeat 2 103) 0))
  = 3%nat.
Proof.
  assert (H : Forall (fun roll => FlipRecovery.overLimit roll = true)
                     (repeat 2 103)).
  { apply Forall_forall. intros y Hy. apply repeat_spec in Hy. subst y.
    reflexivity. }
  split; [exact H|].
  exact (proj2 (recovery_repeats_while_flipped (repeat 2 103) H eq_refl)).
Defined.

(** ** Accel and steer over any keys and any start *)

Section ControlOrder.

Import Controls.

(** The accel clamp in three cases. *)
Ltac accel_cases x :=
  let Hid := fresh "Hid" in
  let Hmax := fresh "Hmax" in
  let Hmin := fresh "Hmin" in
  let H := fresh "Hhi" in
  let L := fresh "Hlo" in
  destruct (clampAccel_spec x) as (_ & Hid & Hmax & Hmin);
  unfold minAccel, maxAccel in *;
  destruct (Qlt_le_dec 75 x) as [H|H];
  [rewrite (Hmax H)
  |destruct (Qlt_le_dec x (-25)) as [L|L];
   [rewrite (Hmin L)|rewrite Hid by lra]];
  clear Hid Hmax Hmin.

Ltac steer_cases x :=
  let Hid := fresh "Hid" in
  let Hmax := fresh "Hmax" in
  let Hmin := fresh "Hmin" in
  let H := fresh "Hhi" in
  let L := fresh "Hlo" in
  destruct (clampSteer_spec x) as (_ & Hid & Hmax & Hmin);
  destruct (Qlt_le_dec (1 # 2) x) as [H|H];
  [rewrite (Hmax H)
  |destruct (Qlt_le_dec x (- (1 # 2))) as [L|L];
   [rewrite (Hmin L)|rewrite Hid by lra]];
  clear Hid Hmax Hmin.

Lemma clampAccel_mono (a b : Q) : a <= b -> clampAccel a <= clampAccel b.
Proof.
  intros Hab. accel_cases a; accel_cases b; lra.
Qed.

Lemma clampSteer_mono (s t : Q) : s <= t -> clampSteer s <= clampSteer t.
Proof.
  intros Hst. steer_cases s; steer_cases t; lra.
Qed.

Lemma accelFrame_mono (keyUp keyDown : bool) (a b : Q) :
  a <= b -> accelFrame keyUp keyDown a <= accelFrame keyUp keyDown b.
Proof.
  intros Hab. rewrite !accelFrame_unfold. apply clampAccel_mono.
  destruct keyUp, keyDown; cbn zeta; lra.
Qed.

Lemma steerFrame_unfold (keyRight keyLeft : bool) (s : Q) :
  steerFrame keyRight keyLeft s =
    clampSteer
      (let x := if keyRight then s - (1 # 10) else s in
       let x := if keyLeft then x + (1 # 10) else x in
       if negb keyRight && negb keyLeft then x * (5 # 10) else x).
Proof. reflexivity. Qed.

Lemma steerFrame_mono (keyRight keyLeft : bool) (s t : Q) :
  s <= t -> steerFrame keyRight keyLeft s <= steerFrame keyRight keyLeft t.
Proof.
  intros Hst. rewrite !steerFrame_unfold. apply clampSteer_mono.
  destruct keyRight, keyLeft; cbn; lra.
Qed.

Lemma accelRun_mono (keyUp keyDown : bool) (n : nat) (a b : Q) :
  a <= b -> accelRun keyUp keyDown n a <= accelRun keyUp keyDown n b.
Proof.
  intros Hab. unfold accelRun. induction n as [|n IH]; [exact Hab|].
  rewrite !Nat.iter_succ. apply accelFrame_mono. exact IH.
Qed.

Lemma steerFrame_bounds (keyRight keyLeft : bool) (s : Q) :
  - (1 # 2) <= steerFrame keyRight keyLeft s <= 1 # 2.
Proof. rewrite steerFrame_unfold. apply clampSteer_spec. Qed.

Lemma accelRun_add (keyUp keyDown : bool) (n m : nat) (a : Q) :
  accelRun keyUp keyDown (n + m) a
  = accelRun keyUp keyDown n (accelRun keyUp keyDown m a).
Proof. unfold accelRun. apply Nat.iter_add. Qed.

Lemma accelRun_bounds (keyUp keyDown : bool) (n : nat) (a : Q) :
  minAccel <= a <= maxAccel ->
  minAccel <= accelRun keyUp keyDown n a <= maxAccel.
Proof.
  intros Ha. unfold accelRun. induction n as [|n IH]; [exact Ha|].
  rewrite Nat.iter_succ. apply accelFrame_bounds.
Qed.

Lemma steerRun_bounds (keyRight keyLeft : bool) (n : nat) (s : Q) :
  - (1 # 2) <= s <= 1 # 2 ->
  - (1 # 2) <= steerRun keyRight keyLeft n s <= 1 # 2.
Proof.
  intros Hs. unfold steerRun. induction n as [|n IH]; [exact Hs|].
  rewrite Nat.iter_succ. apply steerFrame_bounds.
Qed.

Lemma accelRun_0 (keyUp keyDown : bool) (a : Q) :
  accelRun keyUp keyDown 0 a = a.
Proof. reflexivity. Qed.

(** Held long enough from the far end of the range, a key reaches its
    end of the range. *)
Lemma accelRun_up_from_min : accelRun true false 45 minAccel = maxAccel.
Proof. vm_compute. reflexivity. Qed.

Lemma accelRun_down_from_max : accelRun false true 37 maxAccel = minAccel.
Proof. vm_compute. reflexivity. Qed.

(** Full throttle from any accel value within 46 frames, full reverse
    within 38. *)
Lemma accelRun_up_full (n : nat) (a : Q) :
  (46 <= n)%nat -> accelRun true false n a == maxAccel.
Proof.
  intros Hn. replace n with ((n - 46) + 45 + 1)%nat by lia.
  rewrite !accelRun_add.
  set (a1 := accelRun true false 1 a).
  assert (Ha1 : minAccel <= a1 <= maxAccel) by apply accelFrame_bounds.
  assert (H45 : accelRun true false 45 a1 == maxAccel).
  { apply Qle_antisym.
    - apply accelRun_bounds. exact Ha1.
    - rewrite <- accelRun_up_from_min. apply accelRun_mono. apply Ha1. }
  apply Qle_antisym.
  - apply accelRun_bounds. apply accelRun_bounds. exact Ha1.
  - clear Hn. generalize dependent (accelRun true false 45 a1). intros x Hx.
    clear Ha1. generalize (n - 46)%nat. intros k. induction k as [|k IH].
    + rewrite accelRun_0, Hx. apply Qle_refl.
    + unfold accelRun in *. rewrite Nat.iter_succ.
      rewrite <- accelFrame_up_at_max at 1.
      apply accelFrame_mono. exact IH.
Qed.

Lemma accelFrame_down_at_min : accelFrame false true minAccel = minAccel.
Proof. vm_compute. reflexivity. Qed.

Lemma accelRun_down_full (n : nat) (a : Q) :
  (38 <= n)%nat -> accelRun false true n a == minAccel.
Proof.
  intros Hn. replace n with ((n - 38) + 37 + 1)%nat by lia.
  rewrite !accelRun_add.
  set (a1 := accelRun false true 1 a).
  assert (Ha1 : minAccel <= a1 <= maxAccel) by apply accelFrame_bounds.
  assert (H37 : accelRun false true 37 a1 == minAccel).
  { apply Qle_antisym.
    - rewrite <- accelRun_down_from_max. apply accelRun_mono. apply Ha1.
    - apply accelRun_bounds. exact Ha1. }
  apply Qle_antisym.
  - generalize dependent (accelRun false true 37 a1). intros x Hx.
    clear Ha1. generalize (n - 38)%nat. intros k. induction k as [|k IH].
    + rewrite accelRun_0, Hx. apply Qle_refl.
    + unfold accelRun in *. rewrite Nat.iter_succ.
      rewrite <- accelFrame_down_at_min at 1.
      apply accelFrame_mono. exact IH.
  - apply accelRun_bounds. apply accelRun_bounds. exact Ha1.
Qed.

End ControlOrder.

Section ControlReach.

Import Controls.

(** A monotone frame function with values in [[lo, hi]] that fixes [hi]
    and takes [lo] to [hi] in [k] frames takes every value to [hi] in
    [k + 1] frames or more; and the same downwards. *)
Lemma iter_reaches_top (f : Q -> Q) (lo hi : Q) (k n : nat) (a : Q) :
  (forall x y : Q, x <= y -> f x <= f y) ->
  (forall x : Q, lo <= f x <= hi) ->
  hi <= Nat.iter k f lo ->
  hi <= f hi ->
  (k + 1 <= n)%nat ->
  Nat.iter n f a == hi.
Proof.
  intros Hmono Hrange Hk Hfix Hn.
  assert (Hiter_mono : forall (m : nat) (x y : Q),
             x <= y -> Nat.iter m f x <= Nat.iter m f y).
  { induction m as [|m IH]; intros x y Hxy; [exact Hxy|].
    rewrite !Nat.iter_succ. apply Hmono. apply IH. exact Hxy. }
  assert (Hup : forall m : nat, lo <= Nat.iter (S m) f a <= hi).
  { intros m. rewrite Nat.iter_succ. apply Hrange. }
  replace n with (S (n - 1))%nat by lia.
  apply Qle_antisym; [apply Hup|].
  replace (S (n - 1)) with ((n - 1 - k) + (k + 1))%nat by lia.
  rewrite Nat.iter_add.
  assert (Hk1 : hi <= Nat.iter (k + 1) f a).
  { rewrite Nat.iter_add. apply Qle_trans with (Nat.iter k f lo); [exact Hk|].
    apply Hiter_mono. cbn [Nat.iter]. apply Hrange. }
  generalize dependent (Nat.iter (k + 1) f a). intros x Hx.
  generalize (n - 1 - k)%nat. intros m. induction m as [|m IH]; [exact Hx|].
  rewrite Nat.iter_succ. apply Qle_trans with (f hi); [exact Hfix|].
  apply Hmono. exact IH.
Qed.

Lemma iter_reaches_bottom (f : Q -> Q) (lo hi : Q) (k n : nat) (a : Q) :
  (forall x y : Q, x <= y -> f x <= f y) ->
  (forall x : Q, lo <= f x <= hi) ->
  Nat.iter k f hi <= lo ->
  f lo <= lo ->
  (k + 1 <= n)%nat ->
  Nat.iter n f a == lo.
Proof.
  intros Hmono Hrange Hk Hfix Hn.
  assert (Hiter_mono : forall (m : nat) (x y : Q),
             x <= y -> Nat.iter m f x <= Nat.iter m f y).
  { induction m as [|m IH]; intros x y Hxy; [exact Hxy|].
    rewrite !Nat.iter_succ. apply Hmono. apply IH. exact Hxy. }
  assert (Hup : forall m : nat, lo <= Nat.iter (S m) f a <= hi).
  { intros m. rewrite Nat.iter_succ. apply Hrange. }
  replace n with (S (n - 1))%nat by lia.
  apply Qle_antisym; [|apply Hup].
  replace (S (n - 1)) with ((n - 1 - k) + (k + 1))%nat by lia.
  rewrite Nat.iter_add.
  assert (Hk1 : Nat.iter (k + 1) f a <= lo).
  { rewrite Nat.iter_add. apply Qle_trans with (Nat.iter k f hi); [|exact Hk].
    apply Hiter_mono. cbn [Nat.iter]. apply Hrange. }
  generalize dependent (Nat.iter (k + 1) f a). intros x Hx.
  generalize (n - 1 - k)%nat. intros m. induction m as [|m IH]; [exact Hx|].
  rewrite Nat.iter_succ. apply Qle_trans with (f lo); [|exact Hfix].
  apply Hmono. exact IH.
Qed.

Lemma steerRun_left_full (n : nat) (s : Q) :
  (11 <= n)%nat -> steerRun false true n s == 1 # 2.
Proof.
  intros Hn. unfold steerRun.
  apply (iter_reaches_top _ (- (1 # 2)) (1 # 2) 10).
  - apply steerFrame_mono.
  - apply steerFrame_bounds.
  - vm_compute. discriminate.
  - vm_compute. discriminate.
  - exact Hn.
Qed.

Lemma steerRun_right_full (n : nat) (s : Q) :
  (11 <= n)%nat -> steerRun true false n s == - (1 # 2).
Proof.
  intros Hn. unfold steerRun.
  apply (iter_reaches_bottom _ (- (1 # 2)) (1 # 2) 10).
  - apply steerFrame_mono.
  - apply steerFrame_bounds.
  - vm_compute. discriminate.
  - vm_compute. discriminate.
  - exact Hn.
Qed.

End ControlReach.

(** X10.  Whatever the keys and whatever the value before, the accel
    value after a frame is in [-25, 75] and the steer value in
    [-0.5, 0.5]. *)
Theorem controls_stay_in_range
  (keyUp keyDown keyRight keyLeft : bool) (accel steer : Q) :
  -25 <= Controls.accelFrame keyUp keyDown accel <= 75 /\
  - (1 # 2) <= Controls.steerFrame keyRight keyLeft steer <= 1 # 2.
Proof.
  split.
  - apply (accelFrame_bounds keyUp keyDown accel).
  - apply (steerFrame_bounds keyRight keyLeft steer).
Qed.

(** X11.  With the same keys held, a frame preserves the order of accel
    values and of steer values: a larger command never becomes the
    smaller one. *)
Theorem controls_are_monotone
  (keyUp keyDown keyRight keyLeft : bool) (a b : Q) :
  a <= b ->
  Controls.accelFrame keyUp keyDown a <= Controls.accelFrame keyUp keyDown b /\
  Controls.steerFrame keyRight keyLeft a
  <= Controls.steerFrame keyRight keyLeft b.
Proof.
  intros Hab. split; [apply accelFrame_mono|apply steerFrame_mono]; exact Hab.
Qed.

(** X11 on the values 10 and 20 with accelerate and steer-left held. *)
Lemma controls_are_monotone_witness :
  10 <= 20 /\
  Controls.accelFrame true false 10 <= Controls.accelFrame true false 20 /\
  Controls.steerFrame false true 10 <= Controls.steerFrame false true 20.
Proof.
  assert (H : 10 <= 20) by discriminate.
  split; [exact H|].
  exact (controls_are_monotone true false false true 10 20 H).
Defined.

(** X12.  From any accel value, accelerate held alone for 46 frames or
    more gives full throttle (75), and brake held alone for 38 frames or
    more gives full reverse (-25). *)
Theorem full_throttle_and_full_reverse (n : nat) (accel : Q) :
  ((46 <= n)%nat ->
     Controls.accelRun true false n accel == Controls.maxAccel) /\
  ((38 <= n)%nat ->
     Controls.accelRun false true n accel == Controls.minAccel).
Proof.
  split; intros Hn.
  - apply accelRun_up_full. exact Hn.
  - apply accelRun_down_full. exact Hn.
Qed.

(** X12 on 50 frames from full reverse and from full throttle. *)
Lemma full_throttle_and_full_reverse_witness :
  (46 <= 50)%nat /\ (38 <= 50)%nat /\
  Controls.accelRun true false 50 (-25) == Controls.maxAccel /\
  Controls.accelRun false true 50 75 == Controls.minAccel.
Proof.
  assert (H46 : (46 <= 50)%nat) by (repeat constructor).
  assert (H38 : (38 <= 50)%nat) by (repeat constructor).
  split; [exact H46|]. split; [exact H38|]. split.
  - exact (proj1 (full_throttle_and_full_reverse 50 (-25)) H46).
  - exact (proj2 (full_throttle_and_full_reverse 50 75) H38).
Defined.

(** X15.  With no steer key held, a steer value in [-0.5, 0.5] is halved
    in every frame: after [n] frames it is the start value over [2^n]. *)
Theorem steer_halves_when_released (n : nat) (steer : Q) :
  - (1 # 2) <= steer <= 1 # 2 ->
  Controls.steerRun false false n steer == steer * (1 # 2) ^ Z.of_nat n.
Proof.
  intros Hs. induction n as [|n IH].
  - cbn. ring.
  - pose proof (steerRun_bounds false false n steer Hs) as Hb.
    unfold Controls.steerRun in *. rewrite Nat.iter_succ.
    set (x := Nat.iter n (Controls.steerFrame false false) steer) in *.
    rewrite steerFrame_unfold. cbn [negb andb].
    destruct (clampSteer_spec (x * (5 # 10))) as (_ & Hid & _).
    rewrite Hid by lra. rewrite IH.
    rewrite Nat2Z.inj_succ. unfold Z.succ.
    rewrite Qpower.Qpower_plus by discriminate.
    rewrite Qpower.Qpower_1_r. ring.
Qed.

(** X15 on three frames from 0.4. *)
Lemma steer_halves_when_released_witness :
  - (1 # 2) <= 4 # 10 <= 1 # 2 /\
  Controls.steerRun false false 3 (4 # 10) == (4 # 10) * (1 # 2) ^ 3.
Proof.
  assert (H : - (1 # 2) <= 4 # 10 <= 1 # 2) by (split; discriminate).
  split; [exact H|].
  exact (steer_halves_when_released 3 (4 # 10) H).
Defined.

(** ** The debris pass over the whole population *)

Section DebrisPass.

Import Debris.

Variable randUnit : nat -> Q.
Variable dRandUnit : nat -> Q.

Local Abbreviation debrisBody := (Debris.debrisBody randUnit dRandUnit).
Local Abbreviation debrisPass := (Debris.debrisPass randUnit dRandUnit).
Local Abbreviation passUpTo := (Debris.passUpTo randUnit dRandUnit).
Local Abbreviation impulse := (Debris.impulse randUnit).
Local Abbreviation recycle := (Debris.recycle randUnit dRandUnit).

Lemma setNth_length (i : nat) (b : Body) (l : list Body) :
  length (setNth i b l) = length l.
Proof.
  revert i. induction l as [|x l IH]; intros [|i]; cbn; try reflexivity.
  rewrite IH. reflexivity.
Qed.

Lemma setNth_setNth (i : nat) (a b : Body) (l : list Body) :
  setNth i b (setNth i a l) = setNth i b l.
Proof.
  revert i. induction l as [|x l IH]; intros [|i]; cbn; try reflexivity.
  rewrite IH. reflexivity.
Qed.

Lemma setNth_same (i : nat) (x : Body) (l : list Body) :
  nth_error l i = Some x -> setNth i x l = l.
Proof.
  revert i. induction l as [|y l IH]; intros [|i] H; cbn in *;
    try discriminate.
  - inversion H. reflexivity.
  - rewrite IH by exact H. reflexivity.
Qed.

(** What the two blocks do to the body they work on, and that they leave
    the other bodies alone. *)
Lemma impulse_at (i : nat) (s : Pass) (bi : Body) :
  nth_error (obj s) i = Some bi ->
  exists fx fz : Q,
    obj (impulse i s)
    = setNth i
        (dBodyAddForce (dBodyEnable bi) fx
           (forceScale i (length (obj s)) (mass bi) * 10) fz)
        (obj s) /\
    fx = fst (rndf randUnit
                (- forceScale i (length (obj s)) (mass bi))
                (forceScale i (length (obj s)) (mass bi)) (rng s)) /\
    fz = fst (rndf randUnit
                (- forceScale i (length (obj s)) (mass bi))
                (forceScale i (length (obj s)) (mass bi))
                (snd (rndf randUnit
                        (- forceScale i (length (obj s)) (mass bi))
                        (forceScale i (length (obj s)) (mass bi)) (rng s)))).
Proof.
  intros Hi. unfold Debris.impulse. rewrite Hi. cbn.
  eexists. eexists. split; [reflexivity|]. split; reflexivity.
Qed.

Lemma recycle_at (i : nat) (s : Pass) (bi : Body) :
  nth_error (obj s) i = Some bi ->
  exists x y z : Q,
    obj (recycle i s)
    = setNth i
        (mkBody (mkVec3 (x * 10 - 5) (12 + y) (z * 10 - 5))
                (mkVec3 0 0 0) (mkVec3 0 0 0) (mass bi) (force bi)
                (enabled bi))
        (obj s) /\
    x = dRandUnit (dRandCalls (rng s)) /\
    y = randUnit (randCalls (rng s)) * (2 - 1) + 1 /\
    z = dRandUnit (S (dRandCalls (rng s))).
Proof.
  intros Hi. unfold Debris.recycle. rewrite Hi. cbn.
  do 3 eexists. split; [reflexivity|]. repeat split; reflexivity.
Qed.

(** One iteration, seen from the body it works on. *)
Lemma debrisBody_at (spcdn : bool) (s : Pass) (i : nat) (bi : Body) :
  nth_error (obj s) i = Some bi ->
  exists b' : Body,
    obj (debrisBody spcdn s i) = setNth i b' (obj s) /\
    mass b' = mass bi /\
    (belowFloor bi = false ->
       position b' = position bi /\ linearVel b' = linearVel bi /\
       angularVel b' = angularVel bi) /\
    (belowFloor bi = true ->
       linearVel b' = mkVec3 0 0 0 /\ angularVel b' = mkVec3 0 0 0 /\
       position b'
       = mkVec3 (dRandUnit (dRandCalls (rng s)) * 10 - 5)
                (12 + (randUnit
                         (randCalls
                            (rng (if spcdn && impulseGuard i s
                                  then impulse i s else s)))
                       * (2 - 1) + 1))
                (dRandUnit (S (dRandCalls (rng s))) * 10 - 5)) /\
    (spcdn && impulseGuard i s = false ->
       force b' = force bi /\ enabled b' = enabled bi) /\
    (spcdn && impulseGuard i s = true ->
       enabled b' = true /\
       c1 (force b')
       = c1 (force bi) + forceScale i (length (obj s)) (mass bi) * 10).
Proof.
  intros Hi. unfold Debris.debrisBody. rewrite Hi.
  fold (belowFloor bi).
  destruct (spcdn && impulseGuard i s) eqn:Hg.
  - destruct (impulse_at i s bi Hi) as (fx & fz & Himp & _).
    set (bf := dBodyAddForce (dBodyEnable bi) fx
                 (forceScale i (length (obj s)) (mass bi) * 10) fz) in *.
    assert (Hbf : nth_error (obj (impulse i s)) i = Some bf).
    { rewrite Himp. apply (nth_error_setNth _ _ _ bi Hi). }
    assert (Hr : dRandCalls (rng (impulse i s)) = dRandCalls (rng s)).
    { unfold Debris.impulse. rewrite Hi. reflexivity. }
    destruct (belowFloor bi) eqn:Hfl.
    + destruct (recycle_at i (impulse i s) bf Hbf)
        as (x & y & z & Hrec & -> & -> & ->).
      eexists. split.
      { rewrite Hrec, Himp. apply setNth_setNth. }
      cbn. rewrite Hr. repeat split; intros; try discriminate; reflexivity.
    + exists bf. split; [exact Himp|].
      cbn. repeat split; intros; try discriminate; reflexivity.
  - destruct (belowFloor bi) eqn:Hfl.
    + destruct (recycle_at i s bi Hi) as (x & y & z & Hrec & -> & -> & ->).
      eexists. split; [exact Hrec|].
      cbn. repeat split; intros; try discriminate; reflexivity.
    + exists bi. split; [symmetry; apply setNth_same; exact Hi|].
      repeat split; intros; try discriminate; reflexivity.
Qed.

Lemma debrisBody_out_of_range (spcdn : bool) (s : Pass) (i : nat) :
  nth_error (obj s) i = None -> debrisBody spcdn s i = s.
Proof.
  intros Hi. unfold Debris.debrisBody. rewrite Hi. reflexivity.
Qed.

Lemma debrisBody_length (spcdn : bool) (s : Pass) (i : nat) :
  length (obj (debrisBody spcdn s i)) = length (obj s).
Proof.
  destruct (nth_error (obj s) i) as [bi|] eqn:Hi.
  - destruct (debrisBody_at spcdn s i bi Hi) as (b' & -> & _).
    apply setNth_length.
  - rewrite debrisBody_out_of_range by exact Hi. reflexivity.
Qed.

Lemma debrisBody_other (spcdn : bool) (s : Pass) (i j : nat) :
  i <> j ->
  nth_error (obj (debrisBody spcdn s i)) j = nth_error (obj s) j.
Proof.
  intros Hij. destruct (nth_error (obj s) i) as [bi|] eqn:Hi.
  - destruct (debrisBody_at spcdn s i bi Hi) as (b' & -> & _).
    apply nth_error_setNth_other. exact Hij.
  - rewrite debrisBody_out_of_range by exact Hi. reflexivity.
Qed.

Lemma passUpTo_S (spcdn : bool) (k : nat) (s : Pass) :
  passUpTo spcdn (S k) s = debrisBody spcdn (passUpTo spcdn k s) k.
Proof.
  unfold Debris.passUpTo. rewrite seq_S, fold_left_app. reflexivity.
Qed.

Lemma passUpTo_length (spcdn : bool) (k : nat) (s : Pass) :
  length (obj (passUpTo spcdn k s)) = length (obj s).
Proof.
  induction k as [|k IH]; [reflexivity|].
  rewrite passUpTo_S, debrisBody_length. exact IH.
Qed.

(** Before its own iteration a body is as it was at the start. *)
Lemma passUpTo_untouched (spcdn : bool) (k j : nat) (s : Pass) :
  (k <= j)%nat ->
  nth_error (obj (passUpTo spcdn k s)) j = nth_error (obj s) j.
Proof.
  induction k as [|k IH]; intros Hkj; [reflexivity|].
  rewrite passUpTo_S, debrisBody_other by lia. apply IH. lia.
Qed.

(** After its own iteration a body does not change any more. *)
Lemma passUpTo_settled (spcdn : bool) (k j : nat) (s : Pass) :
  (j < k)%nat ->
  nth_error (obj (passUpTo spcdn k s)) j
  = nth_error (obj (passUpTo spcdn (S j) s)) j.
Proof.
  induction k as [|k IH]; intros Hjk; [lia|].
  destruct (Nat.eq_dec j k) as [->|Hne]; [reflexivity|].
  rewrite passUpTo_S, debrisBody_other by lia. apply IH. lia.
Qed.

(** The body at index [i] after the whole pass is what its own iteration
    made of it, starting from the state the earlier iterations left. *)
Lemma debrisPass_body (spcdn : bool) (s : Pass) (i : nat) (bi : Body) :
  nth_error (obj s) i = Some bi ->
  nth_error (obj (passUpTo spcdn i s)) i = Some bi /\
  nth_error (obj (debrisPass spcdn s)) i
  = nth_error (obj (debrisBody spcdn (passUpTo spcdn i s) i)) i.
Proof.
  intros Hi.
  assert (Hlt : (i < length (obj s))%nat).
  { apply nth_error_Some. rewrite Hi. discriminate. }
  split.
  - rewrite passUpTo_untouched by apply Nat.le_refl. exact Hi.
  - change (debrisPass spcdn s) with (passUpTo spcdn (length (obj s)) s).
    rewrite passUpTo_settled by exact Hlt. rewrite passUpTo_S. reflexivity.
Qed.

End DebrisPass.

Section DebrisTheorems.

Import Debris.

Variable randUnit : nat -> Q.
Variable dRandUnit : nat -> Q.

Local Abbreviation debrisBody := (Debris.debrisBody randUnit dRandUnit).
Local Abbreviation debrisPass := (Debris.debrisPass randUnit dRandUnit).
Local Abbreviation passUpTo := (Debris.passUpTo randUnit dRandUnit).

Lemma map_mass_setNth (i : nat) (b x : Body) (l : list Body) :
  nth_error l i = Some x -> mass b = mass x ->
  map mass (setNth i b l) = map mass l.
Proof.
  revert i. induction l as [|y l IH]; intros [|i] H Hm; cbn in *;
    try discriminate.
  - inversion H; subst. rewrite Hm. reflexivity.
  - rewrite IH by assumption. reflexivity.
Qed.

Lemma debrisBody_masses (spcdn : bool) (s : Pass) (i : nat) :
  map mass (obj (debrisBody spcdn s i)) = map mass (obj s).
Proof.
  destruct (nth_error (obj s) i) as [bi|] eqn:Hi.
  - destruct (debrisBody_at randUnit dRandUnit spcdn s i bi Hi)
      as (b' & -> & Hm & _).
    apply (map_mass_setNth _ _ bi); assumption.
  - rewrite debrisBody_out_of_range by exact Hi. reflexivity.
Qed.

Lemma passUpTo_masses (spcdn : bool) (k : nat) (s : Pass) :
  map mass (obj (passUpTo spcdn k s)) = map mass (obj s).
Proof.
  induction k as [|k IH]; [reflexivity|].
  rewrite passUpTo_S, debrisBody_masses. exact IH.
Qed.

(** With no key held and nobody below the floor an iteration does
    nothing at all. *)
Lemma debrisBody_idle (s : Pass) (i : nat) :
  (forall b : Body, In b (obj s) -> belowFloor b = false) ->
  debrisBody false s i = s.
Proof.
  intros Hall. unfold Debris.debrisBody.
  destruct (nth_error (obj s) i) as [bi|] eqn:Hi; [|reflexivity].
  cbn [andb]. fold (belowFloor bi).
  rewrite (Hall bi (nth_error_In _ _ Hi)). reflexivity.
Qed.

End DebrisTheorems.

(** X16.  The pass never creates or destroys a body and never changes
    a mass: the population has the same size and the same masses, in the
    same order, after the pass. *)
Theorem debris_pass_keeps_population
  (randUnit dRandUnit : nat -> Q) (spcdn : bool) (s : Debris.Pass) :
  length (Debris.obj (Debris.debrisPass randUnit dRandUnit spcdn s))
  = length (Debris.obj s) /\
  map Debris.mass (Debris.obj (Debris.debrisPass randUnit dRandUnit spcdn s))
  = map Debris.mass (Debris.obj s).
Proof.
  split.
  - apply (passUpTo_length randUnit dRandUnit).
  - apply (passUpTo_masses randUnit dRandUnit).
Qed.

(** X17.  A body that is not below the floor (height at least -10) is
    never moved by the pass: its position and its linear and angular
    velocity are unchanged; and with the impulse key up the body is
    unchanged altogether. *)
Theorem debris_above_floor_not_moved
  (randUnit dRandUnit : nat -> Q) (spcdn : bool) (s : Debris.Pass)
  (i : nat) (bi : Debris.Body) :
  nth_error (Debris.obj s) i = Some bi ->
  -10 <= Debris.c1 (Debris.position bi) ->
  exists b' : Debris.Body,
    nth_error (Debris.obj (Debris.debrisPass randUnit dRandUnit spcdn s)) i
    = Some b' /\
    Debris.position b' = Debris.position bi /\
    Debris.linearVel b' = Debris.linearVel bi /\
    Debris.angularVel b' = Debris.angularVel bi /\
    (spcdn = false -> b' = bi).
Proof.
  intros Hi Hfloor.
  assert (Hfl : Debris.belowFloor bi = false)
    by (apply Qltb_ge; exact Hfloor).
  destruct (debrisPass_body randUnit dRandUnit spcdn s i bi Hi) as [Ht Hfin].
  destruct (debrisBody_at randUnit dRandUnit spcdn _ i bi Ht)
    as (b' & Hobj & Hm & Habove & _ & Hnof & _).
  destruct (Habove Hfl) as (Hp & Hl & Ha).
  exists b'. split.
  { rewrite Hfin, Hobj. apply (nth_error_setNth _ _ _ bi Ht). }
  repeat (split; [assumption|]).
  intros ->. destruct (Hnof eq_refl) as [Hf He].
  destruct b', bi. cbn in *. subst. reflexivity.
Qed.

(** X17 on the resting body of the sample scene, behind a fallen one. *)
Lemma debris_above_floor_not_moved_witness :
  -10 <= Debris.c1 (Debris.position Scene.resting) /\
  exists b' : Debris.Body,
    nth_error
      (Debris.obj
         (Debris.debrisPass Scene.half Scene.half false
            (Debris.mkPass [Scene.fallen; Scene.resting] Scene.fresh)))
      1 = Some b' /\
    b' = Scene.resting.
Proof.
  assert (H : -10 <= Debris.c1 (Debris.position Scene.resting))
    by discriminate.
  split; [exact H|].
  destruct (debris_above_floor_not_moved Scene.half Scene.half false
              (Debris.mkPass [Scene.fallen; Scene.resting] Scene.fresh)
              1 Scene.resting eq_refl H)
    as (b' & Hb & _ & _ & _ & Heq).
  exists b'. split; [exact Hb|]. exact (Heq eq_refl).
Defined.

(** X18.  A body below the floor (height under -10) is recycled by the
    pass: with both generators in [0, 1] it ends at a height in [13, 14]
    with x and z in [-5, 5], and with zero linear and angular velocity. *)
Theorem debris_below_floor_recycled
  (randUnit dRandUnit : nat -> Q) (spcdn : bool) (s : Debris.Pass)
  (i : nat) (bi : Debris.Body) :
  (forall k : nat, 0 <= randUnit k <= 1) ->
  (forall k : nat, 0 <= dRandUnit k <= 1) ->
  nth_error (Debris.obj s) i = Some bi ->
  Debris.c1 (Debris.position bi) < -10 ->
  exists b' : Debris.Body,
    nth_error (Debris.obj (Debris.debrisPass randUnit dRandUnit spcdn s)) i
    = Some b' /\
    -5 <= Debris.c0 (Debris.position b') <= 5 /\
    13 <= Debris.c1 (Debris.position b') <= 14 /\
    -5 <= Debris.c2 (Debris.position b') <= 5 /\
    Debris.linearVel b' = Debris.mkVec3 0 0 0 /\
    Debris.angularVel b' = Debris.mkVec3 0 0 0.
Proof.
  intros Hr Hd Hi Hfloor.
  assert (Hfl : Debris.belowFloor bi = true)
    by (apply Qltb_lt; exact Hfloor).
  destruct (debrisPass_body randUnit dRandUnit spcdn s i bi Hi) as [Ht Hfin].
  destruct (debrisBody_at randUnit dRandUnit spcdn _ i bi Ht)
    as (b' & Hobj & _ & _ & Hbelow & _).
  destruct (Hbelow Hfl) as (Hl & Ha & Hp).
  exists b'. split.
  { rewrite Hfin, Hobj. apply (nth_error_setNth _ _ _ bi Ht). }
  rewrite Hp. cbn [Debris.c0 Debris.c1 Debris.c2].
  split; [|split; [|split; [|split; assumption]]].
  - match goal with |- _ <= dRandUnit ?k * 10 - 5 <= _ =>
      pose proof (Hd k) end. lra.
  - match goal with |- _ <= 12 + (randUnit ?k * (2 - 1) + 1) <= _ =>
      pose proof (Hr k) end. lra.
  - match goal with |- _ <= dRandUnit ?k * 10 - 5 <= _ =>
      pose proof (Hd k) end. lra.
Qed.

(** X18 on the fallen body of the sample scene. *)
Lemma debris_below_floor_recycled_witness :
  (forall k : nat, 0 <= Scene.half k <= 1) /\
  Debris.c1 (Debris.position Scene.fallen) < -10 /\
  exists b' : Debris.Body,
    nth_error
      (Debris.obj
         (Debris.debrisPass Scene.half Scene.half true
            (Debris.mkPass [Scene.fallen; Scene.resting] Scene.fresh)))
      0 = Some b' /\
    13 <= Debris.c1 (Debris.position b') <= 14 /\
    Debris.linearVel b' = Debris.mkVec3 0 0 0.
Proof.
  assert (Hh : forall k : nat, 0 <= Scene.half k <= 1)
    by (intros k; split; discriminate).
  assert (Hf : Debris.c1 (Debris.position Scene.fallen) < -10)
    by reflexivity.
  split; [exact Hh|]. split; [exact Hf|].
  destruct (debris_below_floor_recycled Scene.half Scene.half true
              (Debris.mkPass [Scene.fallen; Scene.resting] Scene.fresh)
              0 Scene.fallen Hh Hh eq_refl Hf)
    as (b' & Hb & _ & Hy & _ & Hl & _).
  exists b'. split; [exact Hb|]. split; [exact Hy|exact Hl].
Defined.

(** X19.  With the impulse key up and no body below the floor the pass
    does nothing: the bodies and the two generators are as before. *)
Theorem idle_debris_pass_is_identity
  (randUnit dRandUnit : nat -> Q) (s : Debris.Pass) :
  (forall b : Debris.Body,
     In b (Debris.obj s) -> -10 <= Debris.c1 (Debris.position b)) ->
  Debris.debrisPass randUnit dRandUnit false s = s.
Proof.
  intros Hall.
  assert (Hfl : forall b : Debris.Body,
             In b (Debris.obj s) -> Debris.belowFloor b = false).
  { intros b Hb. apply Qltb_ge. apply Hall. exact Hb. }
  change (Debris.debrisPass randUnit dRandUnit false s)
    with (Debris.passUpTo randUnit dRandUnit false (length (Debris.obj s)) s).
  generalize (length (Debris.obj s)). intros k.
  induction k as [|k IH]; [reflexivity|].
  rewrite passUpTo_S, IH. apply debrisBody_idle. exact Hfl.
Qed.

(** X19 on the two bodies of the sample scene. *)
Lemma idle_debris_pass_is_identity_witness :
  Debris.debrisPass Scene.half Scene.half false
    (Debris.mkPass [Scene.rising; Scene.resting] Scene.fresh)
  = Debris.mkPass [Scene.rising; Scene.resting] Scene.fresh.
Proof.
  apply (idle_debris_pass_is_identity Scene.half Scene.half
           (Debris.mkPass [Scene.rising; Scene.resting] Scene.fresh)).
  intros b [<-|[<-|[]]]; discriminate.
Defined.

Section ImpulseFacts.

Import Debris.

Variable randUnit : nat -> Q.
Variable dRandUnit : nat -> Q.

(** [rndf] stays between its two arguments. *)
Lemma rndf_range (min max : Q) (g : Rng) :
  0 <= randUnit (randCalls g) <= 1 -> min <= max ->
  min <= fst (rndf randUnit min max g) <= max.
Proof.
  intros Hu Hmm. unfold rndf. cbn [fst].
  set (u := randUnit (randCalls g)) in *.
  assert (H0 : 0 <= u * (max - min)).
  { apply Qmult_le_0_compat; lra. }
  assert (H1 : u * (max - min) <= 1 * (max - min)).
  { apply Qmult_le_compat_r; lra. }
  lra.
Qed.

(** The index ramp lies between 0 and 1. *)
Lemma index_ratio_range (i numObj : nat) :
  (i < numObj)%nat ->
  0 <= inject_Z (Z.of_nat i) / inject_Z (Z.of_nat numObj) /\
  inject_Z (Z.of_nat i) / inject_Z (Z.of_nat numObj) < 1.
Proof.
  intros Hi.
  assert (Hn : 0 < inject_Z (Z.of_nat numObj)).
  { change 0 with (inject_Z 0). rewrite <- Zlt_Qlt. lia. }
  split.
  - apply Qle_shift_div_l; [exact Hn|]. rewrite Qmult_0_l.
    change 0 with (inject_Z 0). rewrite <- Zle_Qle. lia.
  - apply Qlt_shift_div_r; [exact Hn|]. rewrite Qmult_1_l.
    rewrite <- Zlt_Qlt. lia.
Qed.

Lemma forceScale_range (i numObj : nat) (m : Q) :
  (i < numObj)%nat -> 0 <= m ->
  6 * m <= forceScale i numObj m <= 10 * m.
Proof.
  intros Hi Hm. unfold forceScale.
  destruct (index_ratio_range i numObj Hi) as [H0 H1].
  set (r := inject_Z (Z.of_nat i) / inject_Z (Z.of_nat numObj)) in *.
  split; apply Qmult_le_compat_r; lra.
Qed.

(** The velocity of the first body that the later iterations read. *)
Lemma first_body_after_own_iteration
  (spcdn : bool) (s : Pass) (i : nat) (b0 : Body) :
  (1 <= i)%nat ->
  nth_error (obj s) 0 = Some b0 ->
  exists b0' : Body,
    nth_error (obj (Debris.passUpTo randUnit dRandUnit spcdn i s)) 0
    = Some b0' /\
    c1 (linearVel b0')
    = if belowFloor b0 then 0 else c1 (linearVel b0).
Proof.
  intros Hi H0.
  rewrite passUpTo_settled by lia. rewrite passUpTo_S.
  change (Debris.passUpTo randUnit dRandUnit spcdn 0 s) with s.
  destruct (debrisBody_at randUnit dRandUnit spcdn s 0 b0 H0)
    as (b0' & Hobj & _ & Habove & Hbelow & _).
  exists b0'. split.
  - rewrite Hobj. apply (nth_error_setNth _ _ _ b0 H0).
  - destruct (belowFloor b0) eqn:Hfl.
    + destruct (Hbelow eq_refl) as (-> & _). reflexivity.
    + destruct (Habove eq_refl) as (_ & -> & _). reflexivity.
Qed.

End ImpulseFacts.

(** X20.  Over the whole pass with the impulse key held, a body other
    than the first gets the impulse exactly when its own height is below
    10 and the vertical velocity of the first body is below 10, where the
    first body counts as at rest if it was below the floor (it has just
    been recycled).  The impulse adds [10 f] to the vertical force, with
    [f = (6 + 4 i / numObj) * mass], and wakes the body up; otherwise
    force and sleep state are untouched. *)
Theorem impulse_guard_over_the_pass
  (randUnit dRandUnit : nat -> Q) (s : Debris.Pass)
  (i : nat) (b0 bi : Debris.Body) :
  (1 <= i)%nat ->
  nth_error (Debris.obj s) 0 = Some b0 ->
  nth_error (Debris.obj s) i = Some bi ->
  exists b' : Debris.Body,
    nth_error (Debris.obj (Debris.debrisPass randUnit dRandUnit true s)) i
    = Some b' /\
    let v0 := if Debris.belowFloor b0 then 0
              else Debris.c1 (Debris.linearVel b0) in
    let hit := Qltb v0 10 && Qltb (Debris.c1 (Debris.position bi)) 10 in
    (hit = true ->
       Debris.enabled b' = true /\
       Debris.c1 (Debris.force b')
       = Debris.c1 (Debris.force bi)
         + Debris.forceScale i (length (Debris.obj s)) (Debris.mass bi) * 10)
    /\
    (hit = false ->
       Debris.force b' = Debris.force bi /\
       Debris.enabled b' = Debris.enabled bi).
Proof.
  intros Hi H0 Hbi.
  destruct (debrisPass_body randUnit dRandUnit true s i bi Hbi) as [Ht Hfin].
  destruct (first_body_after_own_iteration randUnit dRandUnit true s i b0
              Hi H0) as (b0' & Hb0' & Hv0).
  destruct (debrisBody_at randUnit dRandUnit true _ i bi Ht)
    as (b' & Hobj & _ & _ & _ & Hno & Hyes).
  exists b'. split.
  { rewrite Hfin, Hobj. apply (nth_error_setNth _ _ _ bi Ht). }
  cbn zeta.
  assert (Hg : Debris.impulseGuard i
                 (Debris.passUpTo randUnit dRandUnit true i s)
               = Qltb (if Debris.belowFloor b0 then 0
                       else Debris.c1 (Debris.linearVel b0)) 10
                 && Qltb (Debris.c1 (Debris.position bi)) 10).
  { unfold Debris.impulseGuard. rewrite Hb0', Ht, Hv0. reflexivity. }
  cbn [andb] in Hno, Hyes. rewrite Hg in Hno, Hyes.
  rewrite (passUpTo_length randUnit dRandUnit) in Hyes.
  split; assumption.
Qed.

(** X20 on the resting body behind a fallen first body: the first body
    fell at -30 and is recycled, so the resting body gets the impulse. *)
Lemma impulse_guard_over_the_pass_witness :
  (1 <= 1)%nat /\
  exists b' : Debris.Body,
    nth_error
      (Debris.obj
         (Debris.debrisPass Scene.half Scene.half true
            (Debris.mkPass [Scene.fallen; Scene.resting] Scene.fresh)))
      1 = Some b' /\
    Debris.enabled b' = true.
Proof.
  split; [apply Nat.le_refl|].
  destruct (impulse_guard_over_the_pass Scene.half Scene.half
              (Debris.mkPass [Scene.fallen; Scene.resting] Scene.fresh)
              1 Scene.fallen Scene.resting (Nat.le_refl 1) eq_refl eq_refl)
    as (b' & Hb & Hyes & _).
  exists b'. split; [exact Hb|]. exact (proj1 (Hyes eq_refl)).
Defined.



(** X22.  The force scale of the impulse, [f = (6 + 4 i / numObj) * mass],
    is between 6 and 10 times the mass for every index of the population,
    and for equal positive masses it is strictly larger at a later
    index. *)
Theorem force_scale_ramp (i j numObj : nat) (m : Q) :
  (i < j)%nat -> (j < numObj)%nat -> 0 < m ->
  6 * m <= Debris.forceScale i numObj m /\
  Debris.forceScale i numObj m < Debris.forceScale j numObj m /\
  Debris.forceScale j numObj m <= 10 * m.
Proof.
  intros Hij Hj Hm. split; [|split].
  - apply forceScale_range; [lia|lra].
  - apply forceScale_ramp; [exact Hij|lia|exact Hm].
  - apply forceScale_range; [exact Hj|lra].
Qed.

(** X22 on the bodies 10 and 200 of 300, with mass 2. *)
Lemma force_scale_ramp_witness :
  (10 < 200)%nat /\ (200 < 300)%nat /\ 0 < 2 /\
  Debris.forceScale 10 300 2 < Debris.forceScale 200 300 2.
Proof.
  assert (H1 : (10 < 200)%nat) by (apply Nat.ltb_lt; reflexivity).
  assert (H2 : (200 < 300)%nat) by (apply Nat.ltb_lt; reflexivity).
  assert (H3 : 0 < 2) by reflexivity.
  split; [exact H1|]. split; [exact H2|]. split; [exact H3|].
  exact (proj1 (proj2 (force_scale_ramp 10 200 300 2 H1 H2 H3))).
Defined.

(** X23.  The impulse is biased upwards: with the generator in [0, 1]
    and a body of non-negative mass, the impulse block adds exactly
    [10 f] to the vertical force and between [-f] and [f] to each
    horizontal component. *)
Theorem impulse_is_upward_biased
  (randUnit : nat -> Q) (i : nat) (s : Debris.Pass) (bi : Debris.Body) :
  (forall k : nat, 0 <= randUnit k <= 1) ->
  nth_error (Debris.obj s) i = Some bi ->
  0 <= Debris.mass bi ->
  exists b' : Debris.Body,
    nth_error (Debris.obj (Debris.impulse randUnit i s)) i = Some b' /\
    let f := Debris.forceScale i (length (Debris.obj s)) (Debris.mass bi) in
    0 <= f /\
    Debris.c1 (Debris.force b') == Debris.c1 (Debris.force bi) + 10 * f /\
    - f <= Debris.c0 (Debris.force b') - Debris.c0 (Debris.force bi) <= f /\
    - f <= Debris.c2 (Debris.force b') - Debris.c2 (Debris.force bi) <= f.
Proof.
  intros Hr Hi Hm.
  assert (Hlt : (i < length (Debris.obj s))%nat).
  { apply nth_error_Some. rewrite Hi. discriminate. }
  destruct (forceScale_range i (length (Debris.obj s)) (Debris.mass bi)
              Hlt Hm) as [Hf6 _].
  destruct (impulse_at randUnit i s bi Hi) as (fx & fz & Hobj & Hfx & Hfz).
  eexists. split.
  { rewrite Hobj. apply (nth_error_setNth _ _ _ bi Hi). }
  cbn zeta. cbn [Debris.dBodyAddForce Debris.dBodyEnable Debris.force
                 Debris.c0 Debris.c1 Debris.c2].
  set (f := Debris.forceScale i (length (Debris.obj s)) (Debris.mass bi)) in *.
  assert (Hf0 : 0 <= f) by lra.
  assert (Hx : - f <= fx <= f).
  { rewrite Hfx. apply rndf_range; [apply Hr|lra]. }
  assert (Hz : - f <= fz <= f).
  { rewrite Hfz. apply rndf_range; [apply Hr|lra]. }
  split; [exact Hf0|]. split; [ring|]. split; lra.
Qed.

(** X23 on the resting body of the sample scene. *)
Lemma impulse_is_upward_biased_witness :
  (forall k : nat, 0 <= Scene.half k <= 1) /\
  0 <= Debris.mass Scene.resting /\
  exists b' : Debris.Body,
    nth_error
      (Debris.obj
         (Debris.impulse Scene.half 0
            (Debris.mkPass [Scene.resting] Scene.fresh)))
      0 = Some b' /\
    Debris.c1 (Debris.force b') == 60.
Proof.
  assert (Hh : forall k : nat, 0 <= Scene.half k <= 1)
    by (intros k; split; discriminate).
  assert (Hm : 0 <= Debris.mass Scene.resting) by discriminate.
  split; [exact Hh|]. split; [exact Hm|].
  destruct (impulse_is_upward_biased Scene.half 0
              (Debris.mkPass [Scene.resting] Scene.fresh) Scene.resting
              Hh eq_refl Hm)
    as (b' & Hb & _ & Hy & _).
  exists b'. split; [exact Hb|]. rewrite Hy. reflexivity.
Defined.

(** ** The chase camera *)

Section CameraFacts.

Import Camera.






End CameraFacts.



(** ** The creation of the debris bodies *)

Section SpawnFacts.

Import Debris Spawn.

Variable randUnit : nat -> Q.
Variable dRandUnit : nat -> Q.

Hypothesis rand_unit : forall k : nat, 0 <= randUnit k <= 1.
Hypothesis dRand_unit : forall k : nat, 0 <= dRandUnit k <= 1.

Lemma rndf_draw (min max : Q) (g : Rng) :
  min <= max -> min <= fst (rndf randUnit min max g) <= max.
Proof.
  intros H. apply rndf_range; [apply rand_unit|exact H].
Qed.

Lemma spawnShape_spec (g : Rng) :
  inQuarter (fst (rndf randUnit 0 1 g)) (fst (spawnShape randUnit g)) /\
  inRanges (fst (spawnShape randUnit g)).
Proof.
  unfold spawnShape.
  destruct (rndf randUnit 0 1 g) as [typ g1] eqn:Htyp. cbn [fst].
  destruct (Qltb typ (25 # 100)) eqn:H1.
  - apply Qltb_true_iff in H1.
    pose proof (rndf_draw (25 # 100) (5 # 10) g1 ltac:(discriminate)) as Hx.
    destruct (rndf randUnit (25 # 100) (5 # 10) g1) as [sx g2].
    pose proof (rndf_draw (25 # 100) (5 # 10) g2 ltac:(discriminate)) as Hy.
    destruct (rndf randUnit (25 # 100) (5 # 10) g2) as [sy g3].
    pose proof (rndf_draw (25 # 100) (5 # 10) g3 ltac:(discriminate)) as Hz.
    destruct (rndf randUnit (25 # 100) (5 # 10) g3) as [sz g4].
    cbn [fst inQuarter inRanges] in *. repeat split; lra.
  - apply Qltb_false_iff in H1. destruct (Qltb typ (5 # 10)) eqn:H2.
    + apply Qltb_true_iff in H2.
      pose proof (rndf_draw (125 # 1000) (25 # 100) g1 ltac:(discriminate))
        as Hr.
      destruct (rndf randUnit (125 # 1000) (25 # 100) g1) as [r g2].
      cbn [fst inQuarter inRanges] in *. repeat split; lra.
    + apply Qltb_false_iff in H2. destruct (Qltb typ (75 # 100)) eqn:H3.
      * apply Qltb_true_iff in H3.
        pose proof (rndf_draw (125 # 1000) (5 # 10) g1 ltac:(discriminate))
          as Hl.
        destruct (rndf randUnit (125 # 1000) (5 # 10) g1) as [l g2].
        pose proof (rndf_draw (125 # 1000) (5 # 10) g2 ltac:(discriminate))
          as Hr.
        destruct (rndf randUnit (125 # 1000) (5 # 10) g2) as [r g3].
        cbn [fst inQuarter inRanges] in *. repeat split; lra.
      * apply Qltb_false_iff in H3.
        pose proof (rndf_draw (25 # 100) (5 # 10) g1 ltac:(discriminate))
          as Hl.
        destruct (rndf randUnit (25 # 100) (5 # 10) g1) as [l g2].
        cbn [fst inQuarter inRanges] in *. repeat split; lra.
Qed.



End SpawnFacts.

(** X25.  With [rand] in [0, 1], the kind of a new body follows the
    quarter of [0, 1] that [typ] falls in (box, sphere, cylinder,
    composite, in this order), and its dimensions are in the ranges of its
    branch: box sides in [0.25, 0.5], sphere radius in [0.125, 0.25],
    cylinder radius and length in [0.125, 0.5], composite length in
    [0.25, 0.5]. *)
Theorem spawn_shape_by_quarter (randUnit : nat -> Q) (g : Debris.Rng) :
  (forall k : nat, 0 <= randUnit k <= 1) ->
  Spawn.inQuarter (randUnit (Debris.randCalls g))
                  (fst (Spawn.spawnShape randUnit g)) /\
  Spawn.inRanges (fst (Spawn.spawnShape randUnit g)).
Proof.
  intros Hr. destruct (spawnShape_spec randUnit Hr g) as [Hq Hin].
  split; [|exact Hin].
  unfold Debris.rndf in Hq. cbn [fst] in Hq.
  set (u := randUnit (Debris.randCalls g)) in *.
  assert (Hu : u * (1 - 0) + 0 == u) by ring.
  destruct (fst (Spawn.spawnShape randUnit g)); cbn [Spawn.inQuarter] in *;
    lra.
Qed.

(** X25 with the generator at 1/2: a cylinder. *)
Lemma spawn_shape_by_quarter_witness :
  (forall k : nat, 0 <= Scene.half k <= 1) /\
  Spawn.inRanges (fst (Spawn.spawnShape Scene.half Scene.fresh)).
Proof.
  assert (Hh : forall k : nat, 0 <= Scene.half k <= 1)
    by (intros k; split; discriminate).
  split; [exact Hh|].
  exact (proj2 (spawn_shape_by_quarter Scene.half Scene.fresh Hh)).
Defined.



(** X27.  The bodies start in layers of ten: body [i] is created at the
    height [4 + i / 10] with the division of integers, so bodies
    [10 k .. 10 k + 9] share the height [4 + k], whatever the generators
    answer. *)
Theorem spawn_heights_in_layers
  (randUnit dRandUnit : nat -> Q) (numObj i : nat) (g : Debris.Rng) :
  (i < numObj)%nat ->
  exists b : Spawn.Spawned,
    nth_error (fst (Spawn.spawnAll randUnit dRandUnit numObj g)) i = Some b /\
    Debris.c1 (Spawn.place b) = inject_Z (4 + Z.of_nat i / 10).
Proof.
  intros Hi. unfold Spawn.spawnAll.
  assert (Hgen : forall (n j : nat) (g0 : Debris.Rng),
             length (fst (Spawn.spawnFrom randUnit dRandUnit j n g0)) = n /\
             forall (k : nat) (b : Spawn.Spawned),
               nth_error (fst (Spawn.spawnFrom randUnit dRandUnit j n g0)) k
               = Some b ->
               Debris.c1 (Spawn.place b)
               = inject_Z (4 + Z.of_nat (j + k) / 10)).
  { induction n as [|n IH]; intros j g0.
    - split; [reflexivity|]. intros [|k] b H; discriminate.
    - cbn [Spawn.spawnFrom].
      assert (Hb : Debris.c1 (Spawn.place
                     (fst (Spawn.spawnBody randUnit dRandUnit j g0)))
                   = inject_Z (4 + Z.of_nat j / 10)).
      { unfold Spawn.spawnBody.
        destruct (Spawn.spawnShape randUnit g0) as [sh g1]. reflexivity. }
      destruct (Spawn.spawnBody randUnit dRandUnit j g0) as [b0 g1].
      destruct (IH (S j) g1) as [Hlen Hrest].
      destruct (Spawn.spawnFrom randUnit dRandUnit (S j) n g1) as [bs g2].
      cbn [fst length] in *. split; [rewrite Hlen; reflexivity|].
      intros [|k] b H; cbn [nth_error] in H.
      + inversion H; subst b. rewrite Nat.add_0_r. exact Hb.
      + replace (j + S k)%nat with (S j + k)%nat by lia.
        apply Hrest. exact H. }
  destruct (Hgen numObj 0%nat g) as [Hlen Hall].
  destruct (nth_error (fst (Spawn.spawnFrom randUnit dRandUnit 0 numObj g)) i)
    as [b|] eqn:Hb.
  - exists b. split; [reflexivity|]. exact (Hall i b Hb).
  - apply nth_error_None in Hb. lia.
Qed.

(** X27 on body 25 of 300: height 6. *)
Lemma spawn_heights_in_layers_witness :
  (25 < 300)%nat /\
  exists b : Spawn.Spawned,
    nth_error (fst (Spawn.spawnAll Scene.half Scene.half 300 Scene.fresh)) 25
    = Some b /\
    Debris.c1 (Spawn.place b) = 6.
Proof.
  assert (H : (25 < 300)%nat) by (apply Nat.ltb_lt; reflexivity).
  split; [exact H|].
  exact (spawn_heights_in_layers Scene.half Scene.half 300 25 Scene.fresh H).
Defined.

(** ** Pairs that the callback does not filter *)

Section CallbackComplete.

Import Collision.

Variable dGeomID : Type.
Variable dContactGeom : Type.
Variable dGeomGetBody : dGeomID -> dBodyID.
Variable checkColliding : dGeomID -> bool.
Variable contactPoints : dGeomID -> dGeomID -> list dContactGeom.

Lemma body_eqb_true (a : dBodyID) (b : nat) :
  body_eqb a b = true -> a = Some b.
Proof.
  destruct a as [x|]; cbn; intros H; [|discriminate].
  apply Nat.eqb_eq in H. subst. reflexivity.
Qed.

(** Without a linking joint ODE answers no. *)
Lemma unlinked_not_connected
  (w : Collision.World dContactGeom) (x y : nat) :
  (forall j : Joint, In j (joints w) -> ~ linksBodies j x y) ->
  dAreConnectedExcluding w x y dJointTypeContact = false.
Proof.
  intros Hno. destruct w as [js cg]. cbn [joints] in Hno.
  rewrite connected_ignores_contacts.
  unfold dAreConnectedExcluding, allJoints. cbn [joints contactgroup map].
  rewrite app_nil_r.
  destruct (existsb _ js) eqn:He; [exfalso|reflexivity].
  apply existsb_exists in He. destruct He as (j & Hin & Hj).
  apply andb_true_iff in Hj. destruct Hj as [Hty Hb].
  apply (Hno j Hin). split.
  - intros Heq. rewrite Heq in Hty. discriminate.
  - apply orb_true_iff in Hb.
    destruct Hb as [Hb|Hb]; apply andb_true_iff in Hb; destruct Hb as [H1 H2];
      apply body_eqb_true in H1; apply body_eqb_true in H2; tauto.
Qed.

End CallbackComplete.

(** X28.  A pair of collidable geometries on separate bodies that no joint
    of the vehicle links always gets its contacts: one contact joint for
    each of the first 8 contact points, attached to the two bodies. *)
Theorem unfiltered_pair_gets_contacts
  (dGeomID dContactGeom : Type)
  (dGeomGetBody : dGeomID -> Collision.dBodyID)
  (checkColliding : dGeomID -> bool)
  (contactPoints : dGeomID -> dGeomID -> list dContactGeom)
  (o1 o2 : dGeomID) (w : Collision.World dContactGeom) :
  Collision.separateBodies (dGeomGetBody o1) (dGeomGetBody o2) ->
  checkColliding o1 = true ->
  checkColliding o2 = true ->
  (forall (j : Collision.Joint) (x y : nat),
     dGeomGetBody o1 = Some x -> dGeomGetBody o2 = Some y ->
     In j (Collision.joints w) -> ~ Collision.linksBodies j x y) ->
  Collision.nearCallback dGeomGetBody checkColliding contactPoints o1 o2 w
  = Collision.mkWorld (Collision.joints w)
      (Collision.contactgroup w ++
       map (Collision.contactOf (dGeomGetBody o1) (dGeomGetBody o2))
           (firstn 8 (contactPoints o1 o2))).
Proof.
  intros _ H1 H2 Hno. rewrite nearCallback_eq, H1, H2.
  assert (Hc : Collision.connectedByJoint w (dGeomGetBody o1)
                 (dGeomGetBody o2) = false).
  { destruct (dGeomGetBody o1) as [x|] eqn:E1; [|reflexivity].
    destruct (dGeomGetBody o2) as [y|] eqn:E2; [|reflexivity].
    cbn [Collision.connectedByJoint]. apply unlinked_not_connected.
    intros j Hin. apply (Hno j x y eq_refl eq_refl Hin). }
  rewrite Hc. reflexivity.
Qed.

(** X28 on the bodies 3 and 4 of the sample scene, which the hinge between
    bodies 1 and 2 does not link. *)
Lemma unfiltered_pair_gets_contacts_witness :
  Collision.separateBodies (Scene.bodyOf 3) (Scene.bodyOf 4) /\
  Scene.collidable 3 = true /\ Scene.collidable 4 = true /\
  Collision.nearCallback Scene.bodyOf Scene.collidable Scene.points
    3%nat 4%nat Scene.hinged
  = Collision.mkWorld (Collision.joints Scene.hinged)
      (map (Collision.contactOf (Some 3%nat) (Some 4%nat)) (seq 0 8)).
Proof.
  assert (Hsep : Collision.separateBodies (Scene.bodyOf 3) (Scene.bodyOf 4)).
  { right. right. discriminate. }
  split; [exact Hsep|]. split; [reflexivity|]. split; [reflexivity|].
  apply (unfiltered_pair_gets_contacts nat nat Scene.bodyOf
           Scene.collidable Scene.points 3%nat 4%nat Scene.hinged
           Hsep eq_refl eq_refl).
  intros j x y Hx Hy [<-|[]] [_ [[H _]|[H _]]];
    cbn in Hx, Hy, H; congruence.
Defined.

(** ** What the roll formula measures *)

Section RollAxes.

Import Roll.

Local Open Scope R_scope.

Lemma atan2_neg_nonneg (y x : R) :
  x < 0 -> 0 <= y -> atan2 y x = atan (y / x) + PI.
Proof.
  intros Hx Hy. unfold atan2.
  destruct (Rlt_dec 0 x); [Lra.lra|].
  destruct (Rlt_dec x 0); [|contradiction].
  destruct (Rle_dec 0 y); [reflexivity|contradiction].
Qed.

Lemma atan2_neg_neg (y x : R) :
  x < 0 -> y < 0 -> atan2 y x = atan (y / x) - PI.
Proof.
  intros Hx Hy. unfold atan2.
  destruct (Rlt_dec 0 x); [Lra.lra|].
  destruct (Rlt_dec x 0); [|contradiction].
  destruct (Rle_dec 0 y); [Lra.lra|reflexivity].
Qed.

Lemma atan2_zero_x (y : R) :
  (0 < y -> atan2 y 0 = PI / 2) /\ (y < 0 -> atan2 y 0 = - (PI / 2)).
Proof.
  unfold atan2. destruct (Rlt_dec 0 0); [Lra.lra|].
  split; intros Hy.
  - destruct (Rlt_dec 0 y); [reflexivity|contradiction].
  - destruct (Rlt_dec 0 y); [Lra.lra|].
    destruct (Rlt_dec y 0); [reflexivity|contradiction].
Qed.

(** [atan2] recovers an angle from its sine and cosine. *)
Lemma atan2_sin_cos (theta : R) :
  - PI < theta <= PI -> atan2 (sin theta) (cos theta) = theta.
Proof.
  intros [Hlo Hhi]. pose proof PI_RGT_0 as Hpi.
  destruct (Rtotal_order theta (- (PI / 2))) as [H1|[H1|H1]].
  - (* third quadrant *)
    assert (Hc : cos theta < 0).
    { rewrite <- cos_neg. apply cos_lt_0; Lra.lra. }
    assert (Hs : sin theta < 0) by (apply sin_lt_0_var; Lra.lra).
    rewrite atan2_neg_neg by assumption.
    replace (sin theta / cos theta) with (tan (theta + PI)).
    + rewrite atan_tan by Lra.lra. Lra.lra.
    + unfold tan. rewrite neg_sin, neg_cos. field. Lra.lra.
  - subst theta. rewrite sin_neg, cos_neg, sin_PI2, cos_PI2.
    apply atan2_zero_x. Lra.lra.
  - destruct (Rtotal_order theta (PI / 2)) as [H2|[H2|H2]].
    + assert (Hc : 0 < cos theta) by (apply cos_gt_0; Lra.lra).
      rewrite atan2_pos by exact Hc.
      change (sin theta / cos theta) with (tan theta).
      apply atan_tan. Lra.lra.
    + subst theta. rewrite sin_PI2, cos_PI2. apply atan2_zero_x. Lra.lra.
    + assert (Hc : cos theta < 0) by (apply cos_lt_0; Lra.lra).
      assert (Hs : 0 <= sin theta) by (apply sin_ge_0; Lra.lra).
      rewrite atan2_neg_nonneg by assumption.
      replace (sin theta / cos theta) with (tan (theta - PI)).
      * rewrite atan_tan by Lra.lra. Lra.lra.
      * unfold tan.
        replace (sin theta) with (sin (theta - PI + PI)) by (f_equal; Lra.lra).
        replace (cos theta) with (cos (theta - PI + PI)) by (f_equal; Lra.lra).
        rewrite neg_sin, neg_cos.
        assert (Hc' : cos (theta - PI) <> 0).
        { intros H0.
          assert (Hct : cos theta = cos (theta - PI + PI))
            by (f_equal; Lra.lra).
          rewrite neg_cos, H0 in Hct. Lra.lra. }
        field. exact Hc'.
Qed.

Lemma aboutZ_z (theta : R) :
  z0 (aboutAxis 0 0 1 theta) = sin theta /\
  z1 (aboutAxis 0 0 1 theta) = cos theta.
Proof.
  unfold z0, z1, aboutAxis. cbn [q0 q1 q2 q3].
  assert (Hs : sin theta = 2 * sin (theta / 2) * cos (theta / 2)).
  { replace (sin theta) with (sin (2 * (theta / 2))) by (f_equal; Lra.lra).
    apply sin_2a. }
  assert (Hc : cos theta = 1 - 2 * sin (theta / 2) * sin (theta / 2)).
  { replace (cos theta) with (cos (2 * (theta / 2))) by (f_equal; Lra.lra).
    apply cos_2a_sin. }
  rewrite Hs, Hc. split; ring.
Qed.

End RollAxes.

(** X29.  The roll formula reads a rotation about the body's z axis
    exactly: for an orientation turned by [theta] about z, with [theta]
    between [-PI] (excluded) and [PI], the roll is [theta].  A rotation
    about the vertical y axis is not seen at all: its roll is 0. *)
Theorem roll_reads_z_rotation (theta : R) :
  ((- PI < theta <= PI)%R ->
     Roll.roll (Roll.aboutAxis 0 0 1 theta) = theta) /\
  Roll.roll (Roll.aboutAxis 0 1 0 theta) = 0%R.
Proof.
  split.
  - intros Ht. unfold Roll.roll. destruct (aboutZ_z theta) as [-> ->].
    apply atan2_sin_cos. exact Ht.
  - unfold Roll.roll, Roll.z0, Roll.z1, Roll.aboutAxis.
    cbn [Roll.q0 Roll.q1 Roll.q2 Roll.q3].
    match goal with |- Roll.atan2 ?a ?b = _ =>
      replace a with 0%R by ring; replace b with 1%R by ring end.
    apply atan2_zero_pos. Lra.lra.
Qed.

(** X29 on a quarter turn about z. *)
Lemma roll_reads_z_rotation_witness :
  (- PI < PI / 2 <= PI)%R /\
  Roll.roll (Roll.aboutAxis 0 0 1 (PI / 2)) = (PI / 2)%R.
Proof.
  assert (H : (- PI < PI / 2 <= PI)%R)
    by (pose proof PI_RGT_0; split; Lra.lra).
  split; [exact H|].
  exact (proj1 (roll_reads_z_rotation (PI / 2)) H).
Defined.

(** X30.  A rotation about the forward x axis shows in the roll only
    past a quarter turn, and then as a half turn: the roll is 0 while the
    cosine of the angle is positive, and [PI], which is over the limit
    [PI/2 - 0.001] of the flip monitor, when it is negative. *)
Theorem roll_about_forward_axis (theta : R) :
  ((0 < cos theta)%R -> Roll.roll (Roll.aboutForward theta) = 0%R) /\
  ((cos theta < 0)%R ->
     Roll.roll (Roll.aboutForward theta) = PI /\
     (Rabs (Roll.roll (Roll.aboutForward theta)) > PI / 2 - 1 / 1000)%R).
Proof.
  destruct (roll_about_forward theta) as [Hpos Hneg].
  split; [exact Hpos|].
  intros Hc. rewrite (Hneg Hc). split; [reflexivity|].
  pose proof PI_RGT_0. rewrite Rabs_right; Lra.lra.
Qed.

(** X30 on a rotation of three quarters of [PI]. *)
Lemma roll_about_forward_axis_witness :
  (cos (3 * (PI / 4)) < 0)%R /\
  Roll.roll (Roll.aboutForward (3 * (PI / 4))) = PI.
Proof.
  assert (H : (cos (3 * (PI / 4)) < 0)%R).
  { pose proof PI_RGT_0. apply cos_lt_0; Lra.lra. }
  split; [exact H|].
  exact (proj1 (proj2 (roll_about_forward_axis (3 * (PI / 4))) H)).
Defined.

(** * Part IV: the controls in binary32 arithmetic *)

(** ** Rounding to nearest even *)

Section Rounding.

Import Binary.

Lemma pow2_pos (e : Z) : 0 < pow2 e.
Proof. unfold pow2. apply Qpower.Qpower_0_lt. reflexivity. Qed.

Lemma pow2_add (a b : Z) : pow2 (a + b) == pow2 a * pow2 b.
Proof. unfold pow2. apply Qpower.Qpower_plus. discriminate. Qed.

Lemma pow2_le (a b : Z) : (a <= b)%Z -> pow2 a <= pow2 b.
Proof.
  intros H. unfold pow2.
  apply Qpower.Qpower_le_compat_l; [exact H|discriminate].
Qed.

Lemma pow2_lt_inv (a b : Z) : pow2 a < pow2 b -> (a < b)%Z.
Proof.
  intros H. unfold pow2 in H.
  apply (Qpower.Qpower_lt_compat_l_inv 2); [exact H|reflexivity].
Qed.

Lemma pow2_half (a : Z) : pow2 (a - 1) == (1 # 2) * pow2 a.
Proof. unfold Z.sub. rewrite Z.add_comm, pow2_add. reflexivity. Qed.

Lemma pow2_Z (a : Z) : (0 <= a)%Z -> inject_Z (2 ^ a) == pow2 a.
Proof. intros H. unfold pow2. apply Qpower.Zpower_Qpower. exact H. Qed.

(** [ilog2] is the binary exponent: [2^e <= x < 2^(e+1)]. *)
Lemma ilog2_spec (x : Q) :
  0 < x -> pow2 (ilog2 x) <= x /\ x < pow2 (ilog2 x + 1).
Proof.
  intros Hx. unfold ilog2.
  set (c := (Z.log2 (Qnum x) - Z.log2 (Z.pos (Qden x)))%Z).
  assert (Hcase : pow2 (c - 1) <= x /\ x < pow2 (c + 1)).
  { destruct x as [n d]. cbn [Qnum Qden] in *.
    assert (Hn : (0 < n)%Z) by (unfold Qlt in Hx; cbn in Hx; lia).
    set (a := Z.log2 n) in *. set (b := Z.log2 (Z.pos d)) in *.
    assert (Ha : (0 <= a)%Z) by apply Z.log2_nonneg.
    assert (Hb : (0 <= b)%Z) by apply Z.log2_nonneg.
    destruct (Z.log2_spec n Hn) as [Hn1 Hn2].
    destruct (Z.log2_spec (Z.pos d) ltac:(lia)) as [Hd1 Hd2].
    fold a in Hn1, Hn2. fold b in Hd1, Hd2. unfold Z.succ in *.
    rewrite (Qmake_Qdiv n d).
    assert (Hdpos : 0 < inject_Z (Z.pos d)).
    { change 0 with (inject_Z 0). rewrite <- Zlt_Qlt. lia. }
    split.
    - apply Qle_shift_div_l; [exact Hdpos|].
      apply Qle_trans with (pow2 (c - 1) * pow2 (b + 1)).
      + apply Qmult_le_l; [apply pow2_pos|].
        rewrite <- pow2_Z by lia. rewrite <- Zle_Qle. lia.
      + rewrite <- pow2_add.
        replace (c - 1 + (b + 1))%Z with a by (unfold c; lia).
        rewrite <- pow2_Z by exact Ha. rewrite <- Zle_Qle. exact Hn1.
    - apply Qlt_shift_div_r; [exact Hdpos|].
      apply Qlt_le_trans with (pow2 (c + 1) * pow2 b).
      + rewrite <- pow2_add.
        replace (c + 1 + b)%Z with (a + 1)%Z by (unfold c; lia).
        rewrite <- pow2_Z by lia. rewrite <- Zlt_Qlt. exact Hn2.
      + apply Qmult_le_l; [apply pow2_pos|].
        rewrite <- pow2_Z by exact Hb. rewrite <- Zle_Qle. exact Hd1. }
  destruct Hcase as [Hlo Hhi].
  destruct (Qle_bool (pow2 c) x) eqn:Hc.
  - apply Qle_bool_iff in Hc. split; assumption.
  - split; [exact Hlo|].
    replace (c - 1 + 1)%Z with c by lia.
    destruct (Qlt_le_dec x (pow2 c)) as [H|H]; [exact H|].
    apply Qle_bool_iff in H. rewrite H in Hc. discriminate.
Qed.

(** The nearest integer is at most a half away. *)
Lemma nearestEven_error (y : Q) :
  Qabs (inject_Z (nearestEven y) - y) <= 1 # 2.
Proof.
  unfold nearestEven.
  pose proof (Qfloor_le y) as H1. pose proof (Qlt_floor y) as H2.
  rewrite inject_Z_plus in H2. change (inject_Z 1) with 1 in H2.
  set (f := Qfloor y) in *.
  apply Qabs_Qle_condition.
  destruct (Qcompare (y - inject_Z f) (1 # 2)) eqn:Hc.
  - apply Qeq_alt in Hc. destruct (Z.even f).
    + lra.
    + rewrite inject_Z_plus. change (inject_Z 1) with 1. lra.
  - apply Qlt_alt in Hc. lra.
  - apply Qgt_alt in Hc. rewrite inject_Z_plus. change (inject_Z 1) with 1.
    lra.
Qed.

(** Rounding a value below [2^k] to [prec] bits moves it by at most half a
    unit in the last place, [2^(k - prec - 1)]. *)
Lemma roundBinary_error (prec emin k : Z) (x : Q) :
  Qabs x < pow2 k -> (emin <= k - prec)%Z ->
  Qabs (roundBinary prec emin x - x) <= pow2 (k - prec - 1).
Proof.
  intros Hx Hemin. unfold roundBinary.
  destruct (Qeq_bool x 0) eqn:H0.
  - apply Qeq_bool_iff in H0. rewrite H0.
    setoid_replace (0 - 0) with 0 by ring. cbn [Qabs Z.abs Qnum].
    apply Qlt_le_weak. apply pow2_pos.
  - apply Qeq_bool_neq in H0.
    assert (Hpos : 0 < Qabs x).
    { destruct (Qlt_le_dec 0 (Qabs x)) as [H|H]; [exact H|].
      exfalso. apply H0. apply Qabs_Qle_condition in H. lra. }
    destruct (ilog2_spec (Qabs x) Hpos) as [Hlo _].
    assert (He : (ilog2 (Qabs x) < k)%Z) by (apply pow2_lt_inv; lra).
    set (q := Z.max (ilog2 (Qabs x) - prec + 1) emin).
    assert (Hq : (q <= k - prec)%Z) by (unfold q; lia).
    pose proof (pow2_pos q) as Hu.
    pose proof (nearestEven_error (x / pow2 q)) as Herr.
    set (z := inject_Z (nearestEven (x / pow2 q))) in *.
    assert (Heq : z * pow2 q - x == (z - x / pow2 q) * pow2 q).
    { field. lra. }
    rewrite Heq, Qabs_Qmult, (Qabs_pos (pow2 q)) by lra.
    apply Qle_trans with ((1 # 2) * pow2 q).
    + apply Qmult_le_compat_r; [exact Herr|lra].
    + rewrite pow2_half. apply Qmult_le_l; [reflexivity|].
      apply pow2_le. lia.
Qed.

(** A [double] result below 1 stored in a [float], and one below 128. *)
Lemma viaDouble_error_1 (x : Q) :
  Qabs x <= 9 # 10 ->
  Qabs (viaDouble x - x) <= (1 # 33554432) + (1 # 18014398509481984).
Proof.
  intros Hx. unfold viaDouble, round32, round64.
  assert (H64 : Qabs (roundBinary 53 (-1074) x - x) <= pow2 (0 - 53 - 1)).
  { apply roundBinary_error; [|lia].
    apply Qle_lt_trans with (9 # 10); [exact Hx|reflexivity]. }
  set (d := roundBinary 53 (-1074) x) in *.
  change (pow2 (0 - 53 - 1)) with (1 # 18014398509481984) in H64.
  apply Qabs_Qle_condition in Hx. apply Qabs_Qle_condition in H64.
  assert (H32 : Qabs (roundBinary 24 (-149) d - d) <= pow2 (0 - 24 - 1)).
  { apply roundBinary_error; [|lia].
    change (pow2 0) with 1. apply Qabs_Qlt_condition. lra. }
  change (pow2 (0 - 24 - 1)) with (1 # 33554432) in H32.
  apply Qabs_Qle_condition in H32. apply Qabs_Qle_condition. lra.
Qed.

Lemma viaDouble_error_128 (x : Q) :
  Qabs x <= 100 ->
  Qabs (viaDouble x - x) <= (1 # 262144) + (1 # 140737488355328).
Proof.
  intros Hx. unfold viaDouble, round32, round64.
  assert (H64 : Qabs (roundBinary 53 (-1074) x - x) <= pow2 (7 - 53 - 1)).
  { apply roundBinary_error; [|lia].
    apply Qle_lt_trans with 100; [exact Hx|reflexivity]. }
  set (d := roundBinary 53 (-1074) x) in *.
  change (pow2 (7 - 53 - 1)) with (1 # 140737488355328) in H64.
  apply Qabs_Qle_condition in Hx. apply Qabs_Qle_condition in H64.
  assert (H32 : Qabs (roundBinary 24 (-149) d - d) <= pow2 (7 - 24 - 1)).
  { apply roundBinary_error; [|lia].
    change (pow2 7) with 128. apply Qabs_Qlt_condition. lra. }
  change (pow2 (7 - 24 - 1)) with (1 # 262144) in H32.
  apply Qabs_Qle_condition in H32. apply Qabs_Qle_condition. lra.
Qed.

End Rounding.

(** ** The clamps move two values no further apart *)

Section ClampFacts.

Import Controls.

Lemma clampSteer_close (a b e : Q) :
  - e <= a - b <= e -> - e <= clampSteer a - clampSteer b <= e.
Proof.
  intros Hab.
  destruct (clampSteer_spec a) as (_ & Ha1 & Ha2 & Ha3).
  destruct (clampSteer_spec b) as (_ & Hb1 & Hb2 & Hb3).
  destruct (Qlt_le_dec (1 # 2) a) as [Ha|Ha];
    [rewrite (Ha2 Ha)
    |destruct (Qlt_le_dec a (- (1 # 2))) as [Ha'|Ha'];
       [rewrite (Ha3 Ha')|rewrite (Ha1 (conj Ha' Ha))]];
    (destruct (Qlt_le_dec (1 # 2) b) as [Hb|Hb];
       [rewrite (Hb2 Hb)
       |destruct (Qlt_le_dec b (- (1 # 2))) as [Hb'|Hb'];
          [rewrite (Hb3 Hb')|rewrite (Hb1 (conj Hb' Hb))]]);
    lra.
Qed.

Lemma clampAccel_close (a b e : Q) :
  - e <= a - b <= e -> - e <= clampAccel a - clampAccel b <= e.
Proof.
  intros Hab.
  destruct (clampAccel_spec a) as (_ & Ha1 & Ha2 & Ha3).
  destruct (clampAccel_spec b) as (_ & Hb1 & Hb2 & Hb3).
  unfold minAccel, maxAccel in *.
  destruct (Qlt_le_dec 75 a) as [Ha|Ha];
    [rewrite (Ha2 Ha)
    |destruct (Qlt_le_dec a (-25)) as [Ha'|Ha'];
       [rewrite (Ha3 Ha')|rewrite (Ha1 (conj Ha' Ha))]];
    (destruct (Qlt_le_dec 75 b) as [Hb|Hb];
       [rewrite (Hb2 Hb)
       |destruct (Qlt_le_dec b (-25)) as [Hb'|Hb'];
          [rewrite (Hb3 Hb')|rewrite (Hb1 (conj Hb' Hb))]]);
    lra.
Qed.

End ClampFacts.

(** ** One frame of the controls, rounded *)

Section Controls32Facts.

Import Binary.

Lemma c01_bounds :
  1 # 10 <= Controls32.c01 <= (1 # 10) + (1 # 100000000000000000).
Proof. split; vm_compute; discriminate. Qed.

Lemma c99_bounds :
  (99 # 100) - (1 # 100000000000000000) <= Controls32.c99 <= 99 # 100.
Proof. split; vm_compute; discriminate. Qed.

(** The frames as a clamp of the rounded sums. *)
Lemma steerFrame32_both (s : Q) :
  Controls32.steerFrame true true s
  = Controls.clampSteer
      (viaDouble (viaDouble (s - Controls32.c01) + Controls32.c01)).
Proof.
  cbv beta iota zeta delta
    [Controls32.steerFrame Controls.clampSteer negb andb].
  reflexivity.
Qed.

Lemma steerFrame32_right (s : Q) :
  Controls32.steerFrame true false s
  = Controls.clampSteer (viaDouble (s - Controls32.c01)).
Proof.
  cbv beta iota zeta delta
    [Controls32.steerFrame Controls.clampSteer negb andb].
  reflexivity.
Qed.

Lemma steerFrame32_left (s : Q) :
  Controls32.steerFrame false true s
  = Controls.clampSteer (viaDouble (s + Controls32.c01)).
Proof.
  cbv beta iota zeta delta
    [Controls32.steerFrame Controls.clampSteer negb andb].
  reflexivity.
Qed.

Lemma steerFrame32_none (s : Q) :
  Controls32.steerFrame false false s
  = Controls.clampSteer (viaDouble (s * (5 # 10))).
Proof.
  cbv beta iota zeta delta
    [Controls32.steerFrame Controls.clampSteer negb andb].
  reflexivity.
Qed.

Lemma accelFrame32_both (a : Q) :
  Controls32.accelFrame true true a
  = Controls.clampAccel
      (viaDouble
         (viaDouble (viaDouble (a * Controls32.c99) + (25 # 10)) - (25 # 10))).
Proof.
  cbv beta iota zeta delta [Controls32.accelFrame Controls.clampAccel].
  reflexivity.
Qed.

Lemma accelFrame32_none (a : Q) :
  Controls32.accelFrame false false a
  = Controls.clampAccel (viaDouble (a * Controls32.c99)).
Proof.
  cbv beta iota zeta delta [Controls32.accelFrame Controls.clampAccel].
  reflexivity.
Qed.

(** A rounded sum of a steer value and a tenth. *)
Lemma steer_sum_rounded (x : Q) :
  - (7 # 10) <= x <= 7 # 10 ->
  - ((1 # 33554432) + (1 # 18014398509481984)) <= viaDouble x - x
  <= (1 # 33554432) + (1 # 18014398509481984).
Proof.
  intros Hx. apply Qabs_Qle_condition. apply viaDouble_error_1.
  apply Qabs_Qle_condition. lra.
Qed.

(** A rounded sum in the range of the accel value. *)
Lemma accel_sum_rounded (x : Q) :
  - 100 <= x <= 100 ->
  - ((1 # 262144) + (1 # 140737488355328)) <= viaDouble x - x
  <= (1 # 262144) + (1 # 140737488355328).
Proof.
  intros Hx. apply Qabs_Qle_condition. apply viaDouble_error_128.
  apply Qabs_Qle_condition. lra.
Qed.

Lemma steerFrame32_both_close (s : Q) :
  - (1 # 2) <= s <= 1 # 2 ->
  Qabs (Controls32.steerFrame true true s - s) <= 1 # 8388608.
Proof.
  intros Hs. rewrite steerFrame32_both.
  pose proof c01_bounds as Hc.
  generalize dependent Controls32.c01. intros c Hc.
  assert (H1 := steer_sum_rounded (s - c) ltac:(lra)).
  generalize dependent (viaDouble (s - c)). intros r H1.
  assert (H2 := steer_sum_rounded (r + c) ltac:(lra)).
  generalize dependent (viaDouble (r + c)). intros l H2.
  assert (Hd : - (1 # 8388608) <= l - s <= 1 # 8388608) by lra.
  pose proof (clampSteer_close l s _ Hd) as Hcl.
  destruct (clampSteer_spec s) as (_ & Hid & _).
  rewrite (Hid Hs) in Hcl. apply Qabs_Qle_condition. exact Hcl.
Qed.

Lemma steerFrame32_right_close (s : Q) :
  - (1 # 2) <= s <= 1 # 2 ->
  Qabs (Controls32.steerFrame true false s
        - Controls.clampSteer (s - (1 # 10))) <= 1 # 8388608.
Proof.
  intros Hs. rewrite steerFrame32_right.
  pose proof c01_bounds as Hc.
  generalize dependent Controls32.c01. intros c Hc.
  assert (H1 := steer_sum_rounded (s - c) ltac:(lra)).
  generalize dependent (viaDouble (s - c)). intros r H1.
  apply Qabs_Qle_condition. apply clampSteer_close. lra.
Qed.

Lemma steerFrame32_left_close (s : Q) :
  - (1 # 2) <= s <= 1 # 2 ->
  Qabs (Controls32.steerFrame false true s
        - Controls.clampSteer (s + (1 # 10))) <= 1 # 8388608.
Proof.
  intros Hs. rewrite steerFrame32_left.
  pose proof c01_bounds as Hc.
  generalize dependent Controls32.c01. intros c Hc.
  assert (H1 := steer_sum_rounded (s + c) ltac:(lra)).
  generalize dependent (viaDouble (s + c)). intros r H1.
  apply Qabs_Qle_condition. apply clampSteer_close. lra.
Qed.

Lemma steerFrame32_none_close (s : Q) :
  - (1 # 2) <= s <= 1 # 2 ->
  Qabs (Controls32.steerFrame false false s - s * (1 # 2)) <= 1 # 8388608.
Proof.
  intros Hs. rewrite steerFrame32_none.
  assert (H1 := steer_sum_rounded (s * (5 # 10)) ltac:(lra)).
  generalize dependent (viaDouble (s * (5 # 10))). intros r H1.
  assert (Hd : - (1 # 8388608) <= r - s * (5 # 10) <= 1 # 8388608) by lra.
  pose proof (clampSteer_close r (s * (5 # 10)) _ Hd) as Hcl.
  destruct (clampSteer_spec (s * (5 # 10))) as (_ & Hid & _).
  rewrite Hid in Hcl by lra. apply Qabs_Qle_condition. lra.
Qed.

(** A frame of steer-left from a value in range: the value stays in range
    and is at full lock or has grown by 0.0999 at least; and the same to
    the right. *)
Lemma steerFrame32_left_step (s : Q) :
  - (1 # 2) <= s <= 1 # 2 ->
  - (1 # 2) <= Controls32.steerFrame false true s <= 1 # 2 /\
  (1 # 2 <= Controls32.steerFrame false true s \/
   s + (999 # 10000) <= Controls32.steerFrame false true s).
Proof.
  intros Hs. rewrite steerFrame32_left.
  pose proof c01_bounds as Hc.
  generalize dependent Controls32.c01. intros c Hc.
  assert (H1 := steer_sum_rounded (s + c) ltac:(lra)).
  generalize dependent (viaDouble (s + c)). intros x H1.
  destruct (clampSteer_spec x) as (Hr & Hid & Hhi & _).
  split; [exact Hr|].
  destruct (Qlt_le_dec (1 # 2) x) as [Hx|Hx].
  - left. rewrite (Hhi Hx). discriminate.
  - right. rewrite Hid by lra. lra.
Qed.

Lemma steerFrame32_right_step (s : Q) :
  - (1 # 2) <= s <= 1 # 2 ->
  - (1 # 2) <= Controls32.steerFrame true false s <= 1 # 2 /\
  (Controls32.steerFrame true false s <= - (1 # 2) \/
   Controls32.steerFrame true false s <= s - (999 # 10000)).
Proof.
  intros Hs. rewrite steerFrame32_right.
  pose proof c01_bounds as Hc.
  generalize dependent Controls32.c01. intros c Hc.
  assert (H1 := steer_sum_rounded (s - c) ltac:(lra)).
  generalize dependent (viaDouble (s - c)). intros x H1.
  destruct (clampSteer_spec x) as (Hr & Hid & _ & Hlo).
  split; [exact Hr|].
  destruct (Qlt_le_dec x (- (1 # 2))) as [Hx|Hx].
  - left. rewrite (Hlo Hx). discriminate.
  - right. rewrite Hid by lra. lra.
Qed.

Lemma steerRun32_left_inv (k : nat) (s : Q) :
  - (1 # 2) <= s <= 1 # 2 ->
  - (1 # 2) <= Controls32.steerRun false true k s <= 1 # 2 /\
  (1 # 2 <= Controls32.steerRun false true k s \/
   - (1 # 2) + inject_Z (Z.of_nat k) * (999 # 10000)
   <= Controls32.steerRun false true k s).
Proof.
  intros Hs. induction k as [|k [IHr IHg]].
  - change (Controls32.steerRun false true 0 s) with s.
    split; [exact Hs|]. right.
    change (inject_Z (Z.of_nat 0)) with 0. lra.
  - unfold Controls32.steerRun in *. rewrite Nat.iter_succ.
    generalize dependent (Nat.iter k (Controls32.steerFrame false true) s).
    intros v IHr IHg.
    destruct (steerFrame32_left_step v IHr) as [Hr Hg].
    split; [exact Hr|].
    rewrite Nat2Z.inj_succ. unfold Z.succ. rewrite inject_Z_plus.
    change (inject_Z 1) with 1.
    destruct Hg as [Hg|Hg]; [left; exact Hg|].
    destruct IHg as [IHg|IHg]; [left; lra|right; lra].
Qed.

Lemma steerRun32_right_inv (k : nat) (s : Q) :
  - (1 # 2) <= s <= 1 # 2 ->
  - (1 # 2) <= Controls32.steerRun true false k s <= 1 # 2 /\
  (Controls32.steerRun true false k s <= - (1 # 2) \/
   Controls32.steerRun true false k s
   <= (1 # 2) - inject_Z (Z.of_nat k) * (999 # 10000)).
Proof.
  intros Hs. induction k as [|k [IHr IHg]].
  - change (Controls32.steerRun true false 0 s) with s.
    split; [exact Hs|]. right.
    change (inject_Z (Z.of_nat 0)) with 0. lra.
  - unfold Controls32.steerRun in *. rewrite Nat.iter_succ.
    generalize dependent (Nat.iter k (Controls32.steerFrame true false) s).
    intros v IHr IHg.
    destruct (steerFrame32_right_step v IHr) as [Hr Hg].
    split; [exact Hr|].
    rewrite Nat2Z.inj_succ. unfold Z.succ. rewrite inject_Z_plus.
    change (inject_Z 1) with 1.
    destruct Hg as [Hg|Hg]; [left; exact Hg|].
    destruct IHg as [IHg|IHg]; [left; lra|right; lra].
Qed.

(** Accelerate and brake together against neither, from a value in range. *)
Lemma accelFrame32_both_close (a : Q) :
  -25 <= a <= 75 ->
  Qabs (Controls32.accelFrame true true a - Controls32.accelFrame false false a)
  <= 1 # 65536.
Proof.
  intros Ha. rewrite accelFrame32_both, accelFrame32_none.
  pose proof c99_bounds as Hc.
  assert (Hp : - 75 <= a * Controls32.c99 <= 75).
  { generalize dependent Controls32.c99. intros c Hc. nra. }
  generalize dependent (a * Controls32.c99). intros p Hp.
  assert (H1 := accel_sum_rounded p ltac:(lra)).
  generalize dependent (viaDouble p). intros y H1.
  assert (H2 := accel_sum_rounded (y + (25 # 10)) ltac:(lra)).
  generalize dependent (viaDouble (y + (25 # 10))). intros u H2.
  assert (H3 := accel_sum_rounded (u - (25 # 10)) ltac:(lra)).
  generalize dependent (viaDouble (u - (25 # 10))). intros d H3.
  apply Qabs_Qle_condition. apply clampAccel_close. lra.
Qed.

End Controls32Facts.

(** C10, as amended.  With steer-right and steer-left both held, the frame
    subtracts 0.1 and then adds 0.1, each result rounded to a [float], and
    does not halve: the new steer value is the clamp of that rounded sum.
    For a steer value in [-0.5, 0.5] it is within [2^-23] of the old value.
    The halving is applied when neither key is held, and only then: with
    neither key the new value is within [2^-23] of half the old one, with
    one key within [2^-23] of the clamp of the old value moved by 0.1. *)
Theorem steer_both_keys_within_rounding (steer : Q) :
  - (1 # 2) <= steer <= 1 # 2 ->
  Controls32.steerFrame true true steer
  = Controls.clampSteer
      (Binary.viaDouble
         (Binary.viaDouble (steer - Controls32.c01) + Controls32.c01)) /\
  Qabs (Controls32.steerFrame true true steer - steer) <= 1 # 8388608 /\
  Qabs (Controls32.steerFrame false false steer - steer * (1 # 2))
  <= 1 # 8388608 /\
  Qabs (Controls32.steerFrame true false steer
        - Controls.clampSteer (steer - (1 # 10))) <= 1 # 8388608 /\
  Qabs (Controls32.steerFrame false true steer
        - Controls.clampSteer (steer + (1 # 10))) <= 1 # 8388608.
Proof.
  intros Hs.
  split; [apply steerFrame32_both|].
  split; [apply steerFrame32_both_close; exact Hs|].
  split; [apply steerFrame32_none_close; exact Hs|].
  split; [apply steerFrame32_right_close; exact Hs|].
  apply steerFrame32_left_close; exact Hs.
Qed.

(** C10, as amended, on a steer value of 0.3. *)
Lemma steer_both_keys_within_rounding_witness :
  - (1 # 2) <= 3 # 10 <= 1 # 2 /\
  Qabs (Controls32.steerFrame true true (3 # 10) - (3 # 10)) <= 1 # 8388608.
Proof.
  assert (H : - (1 # 2) <= 3 # 10 <= 1 # 2) by (split; discriminate).
  split; [exact H|].
  exact (proj1 (proj2 (steer_both_keys_within_rounding (3 # 10) H))).
Defined.

(** C10 as stated fails: from a steer value of 0, which is inside the
    clamp range, a frame with both keys held gives [-13421773 / 2^53]
    (about -1.49e-9), not 0.  The double precision operations of the
    Standard Library's IEEE 754 specification give the same number. *)
Lemma steer_both_keys_change_zero :
  - (1 # 2) <= 0 <= 1 # 2 /\
  Controls32.steerFrame true true 0 == - (13421773 # 9007199254740992) /\
  ~ Controls32.steerFrame true true 0 == 0 /\
  ~ Controls32.steerFrame true true 0 == Controls.clampSteer 0 /\
  Ieee.SF2Q (Ieee.steerBothKeys (S754_zero false))
  == Controls32.steerFrame true true 0.
Proof.
  split; [split; discriminate|].
  split; [vm_compute; reflexivity|].
  split; [apply Qeq_bool_neq; vm_compute; reflexivity|].
  split; [apply Qeq_bool_neq; vm_compute; reflexivity|].
  vm_compute. reflexivity.
Qed.

(** The rounding of [Binary] against the Standard Library's IEEE 754
    operations: the [double] constant [.1], the [float] [physSlice], and a
    both-keys frame from 1/32. *)
Remark binary_agrees_with_ieee :
  Ieee.SF2Q (Ieee.doubleOf 1 10) == Controls32.c01 /\
  Ieee.SF2Q (Ieee.toSingle (Ieee.doubleOf 1 240))
  == Binary.viaDouble (1 # 240) /\
  Binary.viaDouble (1 # 240) == 8947849 # 2147483648 /\
  Ieee.SF2Q (Ieee.steerBothKeys (S754_finite false 1 (-5)))
  == Controls32.steerFrame true true (1 # 32) /\
  Controls32.steerFrame true true (1 # 32) == 16777215 # 536870912.
Proof. repeat split; vm_compute; reflexivity. Qed.

(** X13.  Accelerate and brake held together nearly cancel: from an accel
    value in [-25, 75] the frame gives a value within [2^-16] of the one
    that a frame with neither key held gives.  The two need not be equal:
    after three frames of accelerate from rest they differ. *)
Theorem opposite_accel_keys_nearly_cancel (accel : Q) :
  -25 <= accel <= 75 ->
  Qabs (Controls32.accelFrame true true accel
        - Controls32.accelFrame false false accel) <= 1 # 65536 /\
  (Controls32.accelRun true false 3 0 == 7785939 # 1048576 /\
   Controls32.accelFrame true true (7785939 # 1048576) == 481755 # 65536 /\
   Controls32.accelFrame false false (7785939 # 1048576)
   == 15416159 # 2097152).
Proof.
  intros Ha. split; [apply accelFrame32_both_close; exact Ha|].
  repeat split; vm_compute; reflexivity.
Qed.

(** X13 on the accel value after three frames of accelerate. *)
Lemma opposite_accel_keys_nearly_cancel_witness :
  -25 <= 7785939 # 1048576 <= 75 /\
  Qabs (Controls32.accelFrame true true (7785939 # 1048576)
        - Controls32.accelFrame false false (7785939 # 1048576))
  <= 1 # 65536.
Proof.
  assert (H : -25 <= 7785939 # 1048576 <= 75) by (split; discriminate).
  split; [exact H|].
  exact (proj1 (opposite_accel_keys_nearly_cancel (7785939 # 1048576) H)).
Defined.

(** X14.  From a steer value in [-0.5, 0.5], steer-left held alone for 11
    frames or more gives full left lock (0.5), and steer-right held alone
    full right lock (-0.5), in the rounded arithmetic of the program as in
    exact arithmetic. *)
Theorem full_lock_within_11_frames (n : nat) (steer : Q) :
  (11 <= n)%nat ->
  - (1 # 2) <= steer <= 1 # 2 ->
  (Controls32.steerRun false true n steer == 1 # 2 /\
   Controls32.steerRun true false n steer == - (1 # 2)) /\
  (Controls.steerRun false true n steer == 1 # 2 /\
   Controls.steerRun true false n steer == - (1 # 2)).
Proof.
  intros Hn Hs.
  assert (Hq : 11 <= inject_Z (Z.of_nat n)).
  { change 11 with (inject_Z 11). rewrite <- Zle_Qle. lia. }
  split; [split|split].
  - destruct (steerRun32_left_inv n steer Hs) as [Hr [Hg|Hg]];
      apply Qle_antisym; lra.
  - destruct (steerRun32_right_inv n steer Hs) as [Hr [Hg|Hg]];
      apply Qle_antisym; lra.
  - apply steerRun_left_full. exact Hn.
  - apply steerRun_right_full. exact Hn.
Qed.

(** X14 on 11 frames from the opposite lock. *)
Lemma full_lock_within_11_frames_witness :
  (11 <= 11)%nat /\ - (1 # 2) <= - (1 # 2) <= 1 # 2 /\
  Controls32.steerRun false true 11 (- (1 # 2)) == 1 # 2.
Proof.
  assert (H : - (1 # 2) <= - (1 # 2) <= 1 # 2) by (split; discriminate).
  split; [apply Nat.le_refl|]. split; [exact H|].
  exact (proj1 (proj1 (full_lock_within_11_frames 11 (- (1 # 2))
                         (Nat.le_refl 11) H))).
Defined.
